(** * Validation of Tekton v1alpha1 task specifications

    A shallow embedding of [pkg/apis/pipeline/v1alpha1/task_validation.go]
    and of the helpers it calls, and of the two methods [SetDefaults] of
    [taskrun_defaults.go], followed by the properties of the validator and
    of the defaults.

    The functions of the file are embedded from the Go source.  The
    package [substitution], whose three checks decide the rules on
    variable references, is modelled from the specification; the other
    functions of other packages that [TaskSpec.Validate] calls are the
    fields of the record [Collaborators].

    Conventions of the embedding:
    - a Go [string] is a [string]; a slice is a [list]; a pointer that may
      be [nil] is an [option];
    - a Go [map[string]struct{}] used as a set is a [gset string];
    - a function returning [*apis.FieldError] returns
      [option FieldError], [None] standing for [nil];
    - a [for] loop that returns at the first error is a recursive function
      over the slice that threads the loop's local state (index, set of
      names seen so far). *)

From Stdlib Require Import Ascii DecimalString.
From stdpp Require Import gmap strings list.

(** ** Strings *)

(** [strings.HasPrefix(s, prefix)]. *)
Definition HasPrefix (s p : string) : bool := String.prefix p s.

(** [strings.HasSuffix(s, suffix)]. *)
Definition HasSuffix (s suffix : string) : bool :=
  String.prefix (String.rev suffix) (String.rev s).

(** [%d] of a non-negative [int]. *)
Definition itoa (n : nat) : string := NilZero.string_of_uint (Nat.to_uint n).

(** [s != ""] and [s == ""]. *)
Definition nonEmpty (s : string) : bool :=
  match s with EmptyString => false | String _ _ => true end.

(** [strings.Split(s, sep)] for a separator of one character. *)
Fixpoint splitOn (sep : ascii) (acc s : string) : list string :=
  match s with
  | EmptyString => [acc]
  | String c s' =>
      if Ascii.eqb c sep then acc :: splitOn sep "" s'
      else splitOn sep (acc +:+ String c "") s'
  end.

(** [strings.Join(parts, sep)]. *)
Fixpoint joinWith (sep : string) (parts : list string) : string :=
  match parts with
  | [] => ""
  | [p] => p
  | p :: parts' => p +:+ sep +:+ joinWith sep parts'
  end.

(** ** Field errors ([knative.dev/pkg/apis]) *)

(** The message of a field error.  Each constructor is one format string
    of the Go sources together with the values formatted into it. *)
Inductive Msg : Type :=
  | MsgMissingFields
      (* "missing field(s)" *)
  | MsgMultipleOneOf
      (* "expected exactly one, got both" *)
  | MsgInvalidValue (value : string)
      (* "invalid value: %v" *)
  | MsgMergeError (err : string)
      (* "error merging step template and steps: %s" *)
  | MsgInvalidStepName (name : string)
      (* "invalid value %q" *)
  | MsgWorkspaceName (name : string)
      (* "workspace name %q must be unique" *)
  | MsgWorkspaceMountPath (mountPath : string)
      (* "workspace mount path %q must be unique" *)
  | MsgVolumeName (name : string)
      (* "multiple volumes with same name %q" *)
  | MsgScriptWithCommand (idx : nat)
      (* "step %d script cannot be used with command" *)
  | MsgMountUnderTekton (idx : nat) (name mountPath : string)
      (* "step %d volumeMount cannot be mounted under /tekton/
          (volumeMount %q mounted at %q)" *)
  | MsgMountNameInternal (idx : nat) (name : string)
      (* "step %d volumeMount name %q cannot start with
          \"tekton-internal-\"" *)
  | MsgDefaultType (ptype dtype : string)
      (* "\"%v\" type does not match default value's type: \"%v\"" *)
  | MsgNonExistentVariable (value locationName name : string)
      (* unresolved variable reference *)
  | MsgVariableTypeInvalid (value locationName name : string)
      (* array variable in a field that admits no array *)
  | MsgVariableNotIsolated (value locationName name : string).
      (* array variable spliced into a larger string *)

Record FieldError : Type := mkFieldError {
  Message : Msg;
  Paths : list string;
  Details : string
}.

#[global] Instance Msg_eq_dec : EqDecision Msg.
Proof. solve_decision. Defined.

#[global] Instance FieldError_eq_dec : EqDecision FieldError.
Proof. solve_decision. Defined.

(** [apis.CurrentField]. *)
Definition CurrentField : string := "".

Definition ErrMissingField (fieldPaths : list string) : FieldError :=
  {| Message := MsgMissingFields; Paths := fieldPaths; Details := "" |}.

Definition ErrMultipleOneOf (fieldPaths : list string) : FieldError :=
  {| Message := MsgMultipleOneOf; Paths := fieldPaths; Details := "" |}.

Definition ErrInvalidValue (value fieldPath : string) : FieldError :=
  {| Message := MsgInvalidValue value; Paths := [fieldPath]; Details := "" |}.

(** Sequencing of checks: the first error ends the validation. *)
Definition orElse (check rest : option FieldError) : option FieldError :=
  match check with
  | Some err => Some err
  | None => rest
  end.

Notation "check ;;; rest" := (orElse check rest)
  (at level 100, rest at level 200, right associativity, only parsing).

(** [FieldError.ViaField] of [knative.dev/pkg/apis]: every path of the
    error is put under [prefix].  Its helper [flatten] splits the parts of
    a path at the dots, drops the empty parts (the current field), glues
    an index part [[i]] to the part before it and joins the parts with
    dots. *)
Definition isIndex (part : string) : bool :=
  HasPrefix part "[" && HasSuffix part "]".

Fixpoint flattenParts (newPath : list string) (parts : list string) : list string :=
  match parts with
  | [] => newPath
  | p :: parts' =>
      if String.eqb p CurrentField then flattenParts newPath parts'
      else match rev newPath with
           | lastPart :: before =>
               if isIndex p
               then flattenParts (rev before ++ [lastPart +:+ p]) parts'
               else flattenParts (newPath ++ [p]) parts'
           | [] => flattenParts (newPath ++ [p]) parts'
           end
  end.

Definition flatten (path : list string) : string :=
  joinWith "." (flattenParts [] (concat (map (splitOn "."%char "") path))).

Definition ViaField (prefix : string) (fe : option FieldError) : option FieldError :=
  match fe with
  | None => None
  | Some err =>
      Some {| Message := Message err;
              Paths := map (fun oldPath => flatten [prefix; oldPath]) (Paths err);
              Details := Details err |}
  end.

(** ** The data model

    The declarations of the types are outside the validator; each record
    lists the fields that the validator reads, under a name made of the Go
    type and the Go field. *)

Record EnvVar : Type := {
  EnvVar_Name : string;
  EnvVar_Value : string
}.

Record VolumeMount : Type := {
  VolumeMount_Name : string;
  VolumeMount_MountPath : string;
  VolumeMount_SubPath : string
}.

(** [corev1.Container], the type of the step template. *)
Record Container : Type := {
  Container_VolumeMounts : list VolumeMount
}.

(** [Step]: a container with a script. *)
Record Step : Type := {
  Step_Name : string;
  Step_Image : string;
  Step_Command : list string;
  Step_Args : list string;
  Step_WorkingDir : string;
  Step_Env : list EnvVar;
  Step_VolumeMounts : list VolumeMount;
  Step_Script : string
}.

Record Volume : Type := {
  Volume_Name : string
}.

Record WorkspaceDeclaration : Type := {
  Workspace_Name : string;
  Workspace_MountPath : string
}.

(** [type ParamType string]. *)
Definition ParamType : Type := string.

(** Modelled from the spec: the constants [ParamTypeString],
    [ParamTypeArray] and the table [AllParamTypes] are declared outside
    the validator; the declared type of a parameter is one of string and
    array. *)
Definition ParamTypeString : ParamType := "string".
Definition ParamTypeArray : ParamType := "array".
Definition AllParamTypes : list ParamType := [ParamTypeString; ParamTypeArray].

Record ArrayOrString : Type := {
  ArrayOrString_Type : ParamType;
  ArrayOrString_StringVal : string;
  ArrayOrString_ArrayVal : list string
}.

Record ParamSpec : Type := {
  ParamSpec_Name : string;
  ParamSpec_Type : ParamType;
  ParamSpec_Default : option ArrayOrString
}.

(** [type PipelineResourceType string]. *)
Definition PipelineResourceType : Type := string.

Record TaskResource : Type := {
  TaskResource_Name : string;
  TaskResource_Type : PipelineResourceType
}.

(** [v1alpha2.TaskResources]. *)
Record TaskResources : Type := {
  TaskResources_Inputs : list TaskResource;
  TaskResources_Outputs : list TaskResource
}.

Record Inputs : Type := {
  Inputs_Resources : list TaskResource;
  Inputs_Params : list ParamSpec
}.

Record Outputs : Type := {
  Outputs_Resources : list TaskResource
}.

Record TaskSpec : Type := {
  TaskSpec_Resources : option TaskResources;
  TaskSpec_Params : list ParamSpec;
  TaskSpec_Steps : list Step;
  TaskSpec_Volumes : list Volume;
  TaskSpec_StepTemplate : option Container;
  TaskSpec_Workspaces : list WorkspaceDeclaration;
  TaskSpec_Inputs : option Inputs;
  TaskSpec_Outputs : option Outputs
}.

(** [equality.Semantic.DeepEqual(ts, &TaskSpec{})]: every slice is empty
    ([nil] and the empty slice are equal) and every pointer is [nil]. *)
Definition isNil {A} (l : list A) : bool :=
  match l with [] => true | _ :: _ => false end.

Definition isNone {A} (o : option A) : bool :=
  match o with None => true | Some _ => false end.

Definition DeepEqualEmpty (ts : TaskSpec) : bool :=
  isNone (TaskSpec_Resources ts) && isNil (TaskSpec_Params ts) &&
  isNil (TaskSpec_Steps ts) && isNil (TaskSpec_Volumes ts) &&
  isNone (TaskSpec_StepTemplate ts) && isNil (TaskSpec_Workspaces ts) &&
  isNone (TaskSpec_Inputs ts) && isNone (TaskSpec_Outputs ts).

(** ** Loops that return the first error *)

Fixpoint forEach {A} (body : A -> option FieldError) (l : list A)
  : option FieldError :=
  match l with
  | [] => None
  | x :: rest => body x ;;; forEach body rest
  end.

Fixpoint forIndexed {A} (body : nat -> A -> option FieldError) (i : nat)
    (l : list A) : option FieldError :=
  match l with
  | [] => None
  | x :: rest => body i x ;;; forIndexed body (S i) rest
  end.

(** ** Paths *)

(** [filepath.Clean] on a slash-separated path, by the rules of its
    documentation: empty elements and [.] elements are dropped; a [..]
    element removes the element before it, is dropped at the root of a
    rooted path and is kept at the start of a relative one; the empty
    result is [.].  [out] is the stack of the elements kept so far, the
    last one first. *)
Fixpoint cleanElems (rooted : bool) (out : list string) (elems : list string)
  : list string :=
  match elems with
  | [] => rev out
  | e :: elems' =>
      if String.eqb e "" then cleanElems rooted out elems'
      else if String.eqb e "." then cleanElems rooted out elems'
      else if String.eqb e ".." then
        match out with
        | top :: below =>
            if String.eqb top ".." then cleanElems rooted (e :: out) elems'
            else cleanElems rooted below elems'
        | [] =>
            if rooted then cleanElems rooted out elems'
            else cleanElems rooted (e :: out) elems'
        end
      else cleanElems rooted (e :: out) elems'
  end.

Definition Clean (path : string) : string :=
  match path with
  | EmptyString => "."
  | String c _ =>
      let rooted := Ascii.eqb c "/"%char in
      let elems := cleanElems rooted [] (splitOn "/"%char "" path) in
      if rooted then "/" +:+ joinWith "/" elems
      else match elems with
           | [] => "."
           | _ :: _ => joinWith "/" elems
           end
  end.

(** ** Workspaces and volumes *)

(** Modelled from the spec: the method [WorkspaceDeclaration.GetMountPath]
    is declared outside the validator; the mount path of a workspace
    defaults deterministically when it is unset.  The default is the
    parameter [defaultMountPath], a function of the workspace's name. *)
Definition GetMountPath (defaultMountPath : string -> string)
    (w : WorkspaceDeclaration) : string :=
  if nonEmpty (Workspace_MountPath w) then Workspace_MountPath w
  else defaultMountPath (Workspace_Name w).

(** The first two loops of [validateDeclaredWorkspaces]: the cleaned mount
    paths of the steps and of the step template. *)
Definition addMountPaths (mountPaths : gset string) (vms : list VolumeMount)
  : gset string :=
  foldl (fun acc vm => {[ Clean (VolumeMount_MountPath vm) ]} ∪ acc)
        mountPaths vms.

Definition stepsMountPaths (mountPaths : gset string) (steps : list Step)
  : gset string :=
  foldl (fun acc step => addMountPaths acc (Step_VolumeMounts step))
        mountPaths steps.

(** The two errors of [validateDeclaredWorkspaces]. *)
Definition workspaceNameError (name : string) : FieldError :=
  {| Message := MsgWorkspaceName name; Paths := ["workspaces.name"];
     Details := "" |}.

Definition mountPathError (mountPath : string) : FieldError :=
  {| Message := MsgWorkspaceMountPath mountPath;
     Paths := ["workspaces.mountpath"]; Details := "" |}.

(** The loop over the workspaces, with its two sets. *)
Fixpoint workspacesLoop (defaultMountPath : string -> string)
    (wsNames mountPaths : gset string) (workspaces : list WorkspaceDeclaration)
  : option FieldError :=
  match workspaces with
  | [] => None
  | w :: rest =>
      if bool_decide (Workspace_Name w ∈ wsNames) then
        Some (workspaceNameError (Workspace_Name w))
      else
        let wsNames' := {[ Workspace_Name w ]} ∪ wsNames in
        let mountPath := Clean (GetMountPath defaultMountPath w) in
        if bool_decide (mountPath ∈ mountPaths) then
          Some (mountPathError mountPath)
        else
          workspacesLoop defaultMountPath wsNames'
                         ({[ mountPath ]} ∪ mountPaths) rest
  end.

Definition validateDeclaredWorkspaces (defaultMountPath : string -> string)
    (workspaces : list WorkspaceDeclaration) (steps : list Step)
    (stepTemplate : option Container) : option FieldError :=
  let mountPaths := stepsMountPaths ∅ steps in
  let mountPaths :=
    match stepTemplate with
    | Some tmpl => addMountPaths mountPaths (Container_VolumeMounts tmpl)
    | None => mountPaths
    end in
  workspacesLoop defaultMountPath ∅ mountPaths workspaces.

Fixpoint volumesLoop (vols : gset string) (volumes : list Volume)
  : option FieldError :=
  match volumes with
  | [] => None
  | v :: rest =>
      if bool_decide (Volume_Name v ∈ vols) then
        Some {| Message := MsgVolumeName (Volume_Name v);
                Paths := ["name"]; Details := "" |}
      else volumesLoop ({[ Volume_Name v ]} ∪ vols) rest
  end.

Definition ValidateVolumes (volumes : list Volume) : option FieldError :=
  volumesLoop ∅ volumes.

(** ** Steps *)

(** The three errors of [validateSteps] on step [idx] that carry the index. *)
Definition scriptError (idx : nat) : FieldError :=
  {| Message := MsgScriptWithCommand idx; Paths := ["script"]; Details := "" |}.

Definition reservedPathError (idx : nat) (vm : VolumeMount) : FieldError :=
  {| Message := MsgMountUnderTekton idx (VolumeMount_Name vm)
                  (VolumeMount_MountPath vm);
     Paths := ["volumeMounts.mountPath"]; Details := "" |}.

Definition internalNameError (idx : nat) (vm : VolumeMount) : FieldError :=
  {| Message := MsgMountNameInternal idx (VolumeMount_Name vm);
     Paths := ["volumeMounts.name"]; Details := "" |}.

(** The inner loop of [validateSteps] over the volume mounts of step [idx]. *)
Fixpoint volumeMountsLoop (idx : nat) (vms : list VolumeMount)
  : option FieldError :=
  match vms with
  | [] => None
  | vm :: rest =>
      if HasPrefix (VolumeMount_MountPath vm) "/tekton/" &&
         negb (HasPrefix (VolumeMount_MountPath vm) "/tekton/home") then
        Some (reservedPathError idx vm)
      else if HasPrefix (VolumeMount_Name vm) "tekton-internal-" then
        Some (internalNameError idx vm)
      else volumeMountsLoop idx rest
  end.

(** The body of the loop of [validateSteps] on step [s] of index [idx];
    [names] is the set of the step names seen before [s]. *)
Definition stepBody (names : gset string) (idx : nat) (s : Step)
  : option FieldError :=
  if negb (nonEmpty (Step_Image s)) then Some (ErrMissingField ["Image"])
  else if nonEmpty (Step_Script s) && negb (isNil (Step_Command s)) then
    Some (scriptError idx)
  else if nonEmpty (Step_Name s) && bool_decide (Step_Name s ∈ names) then
    Some (ErrInvalidValue (Step_Name s) "name")
  else volumeMountsLoop idx (Step_VolumeMounts s).

(** The set [names] after the body has run on [s] with no error. *)
Definition addStepName (names : gset string) (s : Step) : gset string :=
  if nonEmpty (Step_Name s) then {[ Step_Name s ]} ∪ names else names.

(** The loop of [validateSteps]: [idx] is the index of the first step of
    [steps]. *)
Fixpoint stepsLoop (names : gset string) (idx : nat) (steps : list Step)
  : option FieldError :=
  match steps with
  | [] => None
  | s :: rest =>
      stepBody names idx s ;;; stepsLoop (addStepName names s) (S idx) rest
  end.

Definition validateSteps (steps : list Step) : option FieldError :=
  stepsLoop ∅ 0 steps.

(** ** Types of the legacy input parameters *)

(** The inner loop over [AllParamTypes]. *)
Definition validType (t : ParamType) : bool :=
  existsb (fun allowedType => String.eqb t allowedType) AllParamTypes.

(** The two errors of [validateInputParameterTypes]. *)
Definition invalidTypeError (p : ParamSpec) : FieldError :=
  ErrInvalidValue (ParamSpec_Type p)
    ("taskspec.inputs.params." +:+ ParamSpec_Name p +:+ ".type").

Definition defaultTypeError (p : ParamSpec) (d : ArrayOrString) : FieldError :=
  {| Message := MsgDefaultType (ParamSpec_Type p) (ArrayOrString_Type d);
     Paths := ["taskspec.inputs.params." +:+ ParamSpec_Name p +:+ ".type";
               "taskspec.inputs.params." +:+ ParamSpec_Name p
                 +:+ ".default.type"];
     Details := "" |}.

(** The body of the loop of [validateInputParameterTypes]. *)
Definition paramBody (p : ParamSpec) : option FieldError :=
  if negb (validType (ParamSpec_Type p)) then Some (invalidTypeError p)
  else
    match ParamSpec_Default p with
    | Some d =>
        if negb (String.eqb (ArrayOrString_Type d) (ParamSpec_Type p))
        then Some (defaultTypeError p d)
        else None
    | None => None
    end.

Definition validateInputParameterTypes (inputs : Inputs) : option FieldError :=
  forEach paramBody (Inputs_Params inputs).

(** ** Variable references ([pkg/substitution])

    The package [substitution] is not among the sources of the validator;
    its reference scanner and its three checks are modelled from the
    specification. *)

(** Modelled from the spec: the grammar of the variable names is part of
    the package [substitution]; the spec writes [<name>] and leaves the
    characters open.  The model takes a name to be a letter or an
    underscore followed by letters, digits, underscores and hyphens. *)
Definition isLetter (c : ascii) : bool :=
  let n := nat_of_ascii c in
  ((65 <=? n) && (n <=? 90)) || ((97 <=? n) && (n <=? 122)).

Definition isDigit (c : ascii) : bool :=
  let n := nat_of_ascii c in (48 <=? n) && (n <=? 57).

Definition isNameStart (c : ascii) : bool :=
  isLetter c || Ascii.eqb c "_"%char.

Definition isNameChar (c : ascii) : bool :=
  isNameStart c || isDigit c || Ascii.eqb c "-"%char.

(** Modelled from the spec: a step of the scanner of the package
    [substitution]: [stripPrefix p s] is the rest of [s] after its prefix
    [p]. *)
Fixpoint stripPrefix (p s : string) : option string :=
  match p with
  | EmptyString => Some s
  | String a p' =>
      match s with
      | String b s' => if Ascii.eqb a b then stripPrefix p' s' else None
      | EmptyString => None
      end
  end.

(** Modelled from the spec: a step of the scanner of the package
    [substitution]: the longest prefix of [s] made of name characters,
    and the rest. *)
Fixpoint spanName (s : string) : string * string :=
  match s with
  | String c s' =>
      if isNameChar c then
        let '(n, r) := spanName s' in (String c n, r)
      else ("", s)
  | EmptyString => ("", "")
  end.

(** Modelled from the spec: a step of the scanner of the package
    [substitution]: a name followed by the closing parenthesis. *)
Definition matchName (s : string) : option string :=
  match s with
  | String c _ =>
      if isNameStart c then
        match spanName s with
        | (n, String ")" _) => Some n
        | _ => None
        end
      else None
  | EmptyString => None
  end.

(** Modelled from the spec: a step of the scanner of the package
    [substitution]: the placeholder [$(scope.name)] at the head of [s],
    its name and its length. *)
Definition matchScope (scope s : string) : option (string * nat) :=
  s1 ← stripPrefix "$(" s;
  s2 ← stripPrefix scope s1;
  s3 ← stripPrefix "." s2;
  n ← matchName s3;
  Some (n, 2 + String.length scope + 1 + String.length n + 1).

(** Modelled from the spec: a step of the scanner of the package
    [substitution]: the alternation of the scopes, the first one that
    matches. *)
Fixpoint matchPlaceholder (scopes : list string) (s : string)
  : option (string * nat) :=
  match scopes with
  | [] => None
  | scope :: rest =>
      match matchScope scope s with
      | Some r => Some r
      | None => matchPlaceholder rest s
      end
  end.

(** Modelled from the spec: the match record of the reference scanner of
    the package [substitution], which is not among the sources: the name
    of the variable, the span of the placeholder in the field value, and
    whether the placeholder is the whole field value. *)
Record Match : Type := {
  Match_name : string;
  Match_start : nat;
  Match_end : nat;
  Match_isWholeField : bool
}.

(** Modelled from the spec: the reference scanner of the package
    [substitution], which is not among the sources.  It locates every
    substring of the field value that matches the placeholder grammar
    [$(scope.name)], for [scope] one of [scopes], embedded in any
    surrounding text, from left to right and without overlap; text that
    is not a well-formed placeholder is plain text.  [total] is the length
    of the field value, [pos] the position of the head of [s] in it, and
    [skip] the number of characters of [s] that belong to the placeholder
    found last. *)
Fixpoint scanFrom (scopes : list string) (total pos skip : nat) (s : string)
  : list Match :=
  match s with
  | EmptyString => []
  | String _ s' =>
      match skip with
      | S skip' => scanFrom scopes total (S pos) skip' s'
      | O =>
          match matchPlaceholder scopes s with
          | Some (n, len) =>
              {| Match_name := n;
                 Match_start := pos;
                 Match_end := pos + len;
                 Match_isWholeField := (pos =? 0) && (pos + len =? total) |}
              :: scanFrom scopes total (S pos) (len - 1) s'
          | None => scanFrom scopes total (S pos) 0 s'
          end
      end
  end.

Definition scan (scopes : list string) (value : string) : list Match :=
  scanFrom scopes (String.length value) 0 0 value.

(** Modelled from the spec: [substitution.ValidateVariable], which is not
    among the sources: every matched name that is not in the namespace
    [vars] is an unresolved reference; the error names the field path. *)
Definition ValidateVariable (name value : string) (scopes : list string)
    (locationName path : string) (vars : gset string) : option FieldError :=
  if existsb (fun m => negb (bool_decide (Match_name m ∈ vars)))
             (scan scopes value)
  then Some {| Message := MsgNonExistentVariable value locationName name;
               Paths := [path +:+ "." +:+ name]; Details := "" |}
  else None.

(** Modelled from the spec: [substitution.ValidateVariableProhibited],
    which is not among the sources: a reference that names a variable of
    [vars] (the array names) is prohibited, wherever it stands in the
    field. *)
Definition ValidateVariableProhibited (name value : string)
    (scopes : list string) (locationName path : string) (vars : gset string)
  : option FieldError :=
  if existsb (fun m => bool_decide (Match_name m ∈ vars)) (scan scopes value)
  then Some {| Message := MsgVariableTypeInvalid value locationName name;
               Paths := [path +:+ "." +:+ name]; Details := "" |}
  else None.

(** Modelled from the spec: [substitution.ValidateVariableIsolated], which
    is not among the sources: a reference that names a variable of [vars]
    (the array names) must be the entire field value, with nothing else
    concatenated. *)
Definition ValidateVariableIsolated (name value : string)
    (scopes : list string) (locationName path : string) (vars : gset string)
  : option FieldError :=
  if existsb (fun m => bool_decide (Match_name m ∈ vars) &&
                       negb (Match_isWholeField m))
             (scan scopes value)
  then Some {| Message := MsgVariableNotIsolated value locationName name;
               Paths := [path +:+ "." +:+ name]; Details := "" |}
  else None.

(** The scopes of the pattern ["(?:inputs|outputs)." + prefix] that the
    validator passes to the package [substitution]: the alternation of
    [inputs] and [outputs], a dot, the prefix.  The dot is read as the
    separator that the placeholder grammar of the spec shows. *)
Definition scopesOf (prefix : string) : list string :=
  ["inputs." +:+ prefix; "outputs." +:+ prefix].

Definition validateTaskVariable (name value prefix : string)
    (vars : gset string) : option FieldError :=
  ValidateVariable name value (scopesOf prefix) "step" "taskspec.steps" vars.

Definition validateTaskNoArrayReferenced (name value prefix : string)
    (arrayNames : gset string) : option FieldError :=
  ValidateVariableProhibited name value (scopesOf prefix) "step"
                             "taskspec.steps" arrayNames.

Definition validateTaskArraysIsolated (name value prefix : string)
    (arrayNames : gset string) : option FieldError :=
  ValidateVariableIsolated name value (scopesOf prefix) "step"
                           "taskspec.steps" arrayNames.

(** ** Variables of the steps *)

Definition stepArrayUsage (prefix : string) (vars : gset string) (step : Step)
  : option FieldError :=
  validateTaskNoArrayReferenced "name" (Step_Name step) prefix vars ;;;
  validateTaskNoArrayReferenced "image" (Step_Image step) prefix vars ;;;
  validateTaskNoArrayReferenced "workingDir" (Step_WorkingDir step) prefix vars ;;;
  forIndexed (fun i cmd =>
    validateTaskArraysIsolated ("command[" +:+ itoa i +:+ "]") cmd prefix vars)
    0 (Step_Command step) ;;;
  forIndexed (fun i arg =>
    validateTaskArraysIsolated ("arg[" +:+ itoa i +:+ "]") arg prefix vars)
    0 (Step_Args step) ;;;
  forEach (fun env =>
    validateTaskNoArrayReferenced ("env[" +:+ EnvVar_Name env +:+ "]")
      (EnvVar_Value env) prefix vars)
    (Step_Env step) ;;;
  forIndexed (fun i v =>
    validateTaskNoArrayReferenced ("volumeMount[" +:+ itoa i +:+ "].Name")
      (VolumeMount_Name v) prefix vars ;;;
    validateTaskNoArrayReferenced ("volumeMount[" +:+ itoa i +:+ "].MountPath")
      (VolumeMount_MountPath v) prefix vars ;;;
    validateTaskNoArrayReferenced ("volumeMount[" +:+ itoa i +:+ "].SubPath")
      (VolumeMount_SubPath v) prefix vars)
    0 (Step_VolumeMounts step).

Definition validateArrayUsage (steps : list Step) (prefix : string)
    (vars : gset string) : option FieldError :=
  forEach (stepArrayUsage prefix vars) steps.

Definition stepVariables (prefix : string) (vars : gset string) (step : Step)
  : option FieldError :=
  validateTaskVariable "name" (Step_Name step) prefix vars ;;;
  validateTaskVariable "image" (Step_Image step) prefix vars ;;;
  validateTaskVariable "workingDir" (Step_WorkingDir step) prefix vars ;;;
  forIndexed (fun i cmd =>
    validateTaskVariable ("command[" +:+ itoa i +:+ "]") cmd prefix vars)
    0 (Step_Command step) ;;;
  forIndexed (fun i arg =>
    validateTaskVariable ("arg[" +:+ itoa i +:+ "]") arg prefix vars)
    0 (Step_Args step) ;;;
  forEach (fun env =>
    validateTaskVariable ("env[" +:+ EnvVar_Name env +:+ "]")
      (EnvVar_Value env) prefix vars)
    (Step_Env step) ;;;
  forIndexed (fun i v =>
    validateTaskVariable ("volumeMount[" +:+ itoa i +:+ "].Name")
      (VolumeMount_Name v) prefix vars ;;;
    validateTaskVariable ("volumeMount[" +:+ itoa i +:+ "].MountPath")
      (VolumeMount_MountPath v) prefix vars ;;;
    validateTaskVariable ("volumeMount[" +:+ itoa i +:+ "].SubPath")
      (VolumeMount_SubPath v) prefix vars)
    0 (Step_VolumeMounts step).

Definition validateVariables (steps : list Step) (prefix : string)
    (vars : gset string) : option FieldError :=
  forEach (stepVariables prefix vars) steps.

(** The two sets built by [validateInputParameterVariables]. *)
Definition addParameterNames (names : gset string) (params : list ParamSpec)
  : gset string :=
  foldl (fun acc p => {[ ParamSpec_Name p ]} ∪ acc) names params.

Definition addArrayParameterNames (names : gset string)
    (params : list ParamSpec) : gset string :=
  foldl (fun acc p =>
           if String.eqb (ParamSpec_Type p) ParamTypeArray
           then {[ ParamSpec_Name p ]} ∪ acc else acc)
        names params.

Definition inputsParams (inputs : option Inputs) : list ParamSpec :=
  match inputs with
  | Some i => Inputs_Params i
  | None => []
  end.

Definition validateInputParameterVariables (steps : list Step)
    (inputs : option Inputs) (params : list ParamSpec) : option FieldError :=
  let parameterNames := addParameterNames ∅ params in
  let arrayParameterNames := addArrayParameterNames ∅ params in
  let parameterNames := addParameterNames parameterNames (inputsParams inputs) in
  let arrayParameterNames :=
    addArrayParameterNames arrayParameterNames (inputsParams inputs) in
  validateVariables steps "params" parameterNames ;;;
  validateArrayUsage steps "params" arrayParameterNames.

(** ** Resources *)

Definition addResourceNames (names : gset string) (rs : list TaskResource)
  : gset string :=
  foldl (fun acc r => {[ TaskResource_Name r ]} ∪ acc) names rs.

Definition validateResourceVariables (steps : list Step)
    (inputs : option Inputs) (outputs : option Outputs)
    (resources : option TaskResources) : option FieldError :=
  let resourceNames :=
    match resources with
    | Some r =>
        addResourceNames (addResourceNames ∅ (TaskResources_Inputs r))
                         (TaskResources_Outputs r)
    | None => ∅
    end in
  let resourceNames :=
    match inputs with
    | Some i => addResourceNames resourceNames (Inputs_Resources i)
    | None => resourceNames
    end in
  let resourceNames :=
    match outputs with
    | Some o => addResourceNames resourceNames (Outputs_Resources o)
    | None => resourceNames
    end in
  validateVariables steps "resources" resourceNames.

(** The functions and tables of other packages that [TaskSpec.Validate]
    calls and that are not among the sources of the validator. *)
Record Collaborators : Type := {
  (** [MergeStepsWithStepTemplate]: the merged steps, or an error text. *)
  MergeStepsWithStepTemplate : option Container -> list Step -> list Step + string;
  (** The method [Validate] of [v1alpha2.TaskResources]. *)
  TaskResources_Validate : option TaskResources -> option FieldError;
  (** [v1alpha2.ValidateParameterTypes]. *)
  ValidateParameterTypes : list ParamSpec -> option FieldError;
  (** [v1alpha2.ValidateParameterVariables]. *)
  ValidateParameterVariables : list Step -> list ParamSpec -> option FieldError;
  (** [v1alpha2.ValidateResourcesVariables]. *)
  ValidateResourcesVariables : list Step -> option TaskResources -> option FieldError;
  (** [validation.IsDNS1123Label]: the list of the violations. *)
  IsDNS1123Label : string -> list string;
  (** [strings.ToLower]. *)
  ToLower : string -> string;
  (** The table [AllResourceTypes]. *)
  AllResourceTypes : list PipelineResourceType;
  (** The default of [WorkspaceDeclaration.GetMountPath]. *)
  defaultMountPath : string -> string
}.

Fixpoint duplicatesLoop (toLower : string -> string) (path : string)
    (encountered : gset string) (resources : list TaskResource)
  : option FieldError :=
  match resources with
  | [] => None
  | r :: rest =>
      if bool_decide (toLower (TaskResource_Name r) ∈ encountered) then
        Some (ErrMultipleOneOf [path])
      else
        duplicatesLoop toLower path
          ({[ toLower (TaskResource_Name r) ]} ∪ encountered) rest
  end.

Definition checkForDuplicates (ext : Collaborators)
    (resources : list TaskResource) (path : string) : option FieldError :=
  duplicatesLoop (ToLower ext) path ∅ resources.

Definition validateResourceType (ext : Collaborators) (r : TaskResource)
    (path : string) : option FieldError :=
  if existsb (fun allowed => String.eqb (TaskResource_Type r) allowed)
             (AllResourceTypes ext)
  then None
  else Some (ErrInvalidValue (TaskResource_Type r) path).

(** ** The validator *)

Definition stepNameDetails : string :=
  "Task step name must be a valid DNS Label, For more info refer to https://kubernetes.io/docs/concepts/overview/working-with-objects/names/#names".

Definition resourcesInputs (r : option TaskResources) : list TaskResource :=
  match r with Some r => TaskResources_Inputs r | None => [] end.

Definition resourcesOutputs (r : option TaskResources) : list TaskResource :=
  match r with Some r => TaskResources_Outputs r | None => [] end.

(** The block of [TaskSpec.Validate] on the legacy inputs and outputs that
    are declared twice. *)
Definition validateOneOf (ts : TaskSpec) : option FieldError :=
  match TaskSpec_Inputs ts with
  | Some inputs =>
      if negb (isNil (Inputs_Params inputs)) &&
         negb (isNil (TaskSpec_Params ts)) then
        Some (ErrMultipleOneOf ["inputs.params"; "params"])
      else if negb (isNil (resourcesInputs (TaskSpec_Resources ts))) &&
              negb (isNil (Inputs_Resources inputs)) then
        Some (ErrMultipleOneOf ["inputs.resources"; "resources.inputs"])
      else None
  | None => None
  end ;;;
  match TaskSpec_Outputs ts with
  | Some outputs =>
      if negb (isNil (resourcesOutputs (TaskSpec_Resources ts))) &&
         negb (isNil (Outputs_Resources outputs)) then
        Some (ErrMultipleOneOf ["outputs.resources"; "resources.outputs"])
      else None
  | None => None
  end.

(** The deprecated inputs and outputs of [TaskSpec.Validate]. *)
Definition validateDeprecated (ext : Collaborators) (ts : TaskSpec)
  : option FieldError :=
  match TaskSpec_Inputs ts with
  | Some inputs =>
      forEach (fun resource =>
        validateResourceType ext resource
          ("taskspec.Inputs.Resources." +:+ TaskResource_Name resource +:+ ".Type"))
        (Inputs_Resources inputs) ;;;
      checkForDuplicates ext (Inputs_Resources inputs)
                         "taskspec.Inputs.Resources.Name" ;;;
      validateInputParameterTypes inputs
  | None => None
  end ;;;
  match TaskSpec_Outputs ts with
  | Some outputs =>
      forEach (fun resource =>
        validateResourceType ext resource
          ("taskspec.Outputs.Resources." +:+ TaskResource_Name resource +:+ ".Type"))
        (Outputs_Resources outputs) ;;;
      checkForDuplicates ext (Outputs_Resources outputs)
                         "taskspec.Outputs.Resources.Name"
  | None => None
  end.

Definition validateStepNames (ext : Collaborators) (steps : list Step)
  : option FieldError :=
  forEach (fun step =>
    if nonEmpty (Step_Name step) &&
       negb (isNil (IsDNS1123Label ext (Step_Name step))) then
      Some {| Message := MsgInvalidStepName (Step_Name step);
              Paths := ["taskspec.steps.name"];
              Details := stepNameDetails |}
    else None) steps.

(** [TaskSpec.Validate]. *)
Definition Validate (ext : Collaborators) (ts : TaskSpec) : option FieldError :=
  if DeepEqualEmpty ts then Some (ErrMissingField [CurrentField])
  else if isNil (TaskSpec_Steps ts) then Some (ErrMissingField ["steps"])
  else
    ViaField "volumes" (ValidateVolumes (TaskSpec_Volumes ts)) ;;;
    validateDeclaredWorkspaces (defaultMountPath ext) (TaskSpec_Workspaces ts)
      (TaskSpec_Steps ts) (TaskSpec_StepTemplate ts) ;;;
    match MergeStepsWithStepTemplate ext (TaskSpec_StepTemplate ts)
                                     (TaskSpec_Steps ts) with
    | inr err =>
        Some {| Message := MsgMergeError err; Paths := ["stepTemplate"];
                Details := "" |}
    | inl mergedSteps =>
        ViaField "steps" (validateSteps mergedSteps) ;;;
        validateOneOf ts ;;;
        TaskResources_Validate ext (TaskSpec_Resources ts) ;;;
        ValidateParameterTypes ext (TaskSpec_Params ts) ;;;
        validateDeprecated ext ts ;;;
        validateStepNames ext (TaskSpec_Steps ts) ;;;
        ValidateParameterVariables ext (TaskSpec_Steps ts) (TaskSpec_Params ts) ;;;
        validateInputParameterVariables (TaskSpec_Steps ts) (TaskSpec_Inputs ts)
                                        (TaskSpec_Params ts) ;;;
        ValidateResourcesVariables ext (TaskSpec_Steps ts) (TaskSpec_Resources ts) ;;;
        validateResourceVariables (TaskSpec_Steps ts) (TaskSpec_Inputs ts)
          (TaskSpec_Outputs ts) (TaskSpec_Resources ts)
    end.

(** ** Notions used in the statements *)

(** The error of [TaskSpec.Validate] on the parameters declared in both
    lists. *)
Definition paramsOneOfError : FieldError :=
  ErrMultipleOneOf ["inputs.params"; "params"].

(** The test of the reserved mount paths, on the text of the path. *)
Definition underReservedPath (mountPath : string) : Prop :=
  (exists rest, mountPath = "/tekton/" +:+ rest) /\
  ~ (exists rest, mountPath = "/tekton/home" +:+ rest).

(** The set of names after the loop has run over [steps] with no error. *)
Definition namesAfter (names : gset string) (steps : list Step) : gset string :=
  foldl addStepName names steps.

(** The cleaned, default-applied mount path of a workspace. *)
Definition resolvedPath (defaultMountPath : string -> string)
    (w : WorkspaceDeclaration) : string :=
  Clean (GetMountPath defaultMountPath w).

(** The string is made of name characters. *)
Fixpoint allNameChars (s : string) : bool :=
  match s with
  | EmptyString => true
  | String c s' => isNameChar c && allNameChars s'
  end.

(** A well-formed variable name. *)
Definition validName (n : string) : bool :=
  match n with
  | EmptyString => false
  | String c _ => isNameStart c && allNameChars n
  end.

(** The text of the placeholder of variable [n] in scope [scope]. *)
Definition placeholderText (scope n : string) : string :=
  "$(" +:+ scope +:+ "." +:+ n +:+ ")".

(** The string has no dollar sign. *)
Fixpoint noDollar (s : string) : bool :=
  match s with
  | EmptyString => true
  | String c s' => negb (Ascii.eqb c "$"%char) && noDollar s'
  end.

(** The field value contains the placeholder of variable [q], in one of
    the scopes of [prefix]. *)
Definition references (prefix value q : string) : Prop :=
  exists pre scope post,
    value = pre +:+ placeholderText scope q +:+ post /\
    scope ∈ scopesOf prefix /\ validName q = true.

(** The field value is exactly the placeholder of variable [q]. *)
Definition wholeFieldReference (prefix value q : string) : Prop :=
  exists scope,
    value = placeholderText scope q /\
    scope ∈ scopesOf prefix /\ validName q = true.

(** The two classes of the fields that the validator scans: the fields in
    which no array may be referenced, and the command and argument tokens,
    in which an array reference must be isolated. *)
Inductive FieldClass : Type :=
  | NoArrayField
  | IsolatedArrayField.

(** The elements of a slice with their indices, from index [i]. *)
Fixpoint enumFrom {A} (i : nat) (l : list A) : list (nat * A) :=
  match l with
  | [] => []
  | x :: rest => (i, x) :: enumFrom (S i) rest
  end.

(** The fields of a step that the validator scans, in the order of the
    scan: the class of the field, its name in the error path, its value. *)
Definition stepFields (step : Step) : list (FieldClass * string * string) :=
  [(NoArrayField, "name", Step_Name step);
   (NoArrayField, "image", Step_Image step);
   (NoArrayField, "workingDir", Step_WorkingDir step)] ++
  map (fun '(i, cmd) => (IsolatedArrayField, "command[" +:+ itoa i +:+ "]", cmd))
      (enumFrom 0 (Step_Command step)) ++
  map (fun '(i, arg) => (IsolatedArrayField, "arg[" +:+ itoa i +:+ "]", arg))
      (enumFrom 0 (Step_Args step)) ++
  map (fun env => (NoArrayField, "env[" +:+ EnvVar_Name env +:+ "]",
                   EnvVar_Value env))
      (Step_Env step) ++
  flat_map (fun '(i, v) =>
              [(NoArrayField, "volumeMount[" +:+ itoa i +:+ "].Name",
                VolumeMount_Name v);
               (NoArrayField, "volumeMount[" +:+ itoa i +:+ "].MountPath",
                VolumeMount_MountPath v);
               (NoArrayField, "volumeMount[" +:+ itoa i +:+ "].SubPath",
                VolumeMount_SubPath v)])
           (enumFrom 0 (Step_VolumeMounts step)).

(** The three errors on the variables of field [name] of value [value]. *)
Definition unresolvedError (name value : string) : FieldError :=
  {| Message := MsgNonExistentVariable value "step" name;
     Paths := ["taskspec.steps." +:+ name]; Details := "" |}.

Definition prohibitedError (name value : string) : FieldError :=
  {| Message := MsgVariableTypeInvalid value "step" name;
     Paths := ["taskspec.steps." +:+ name]; Details := "" |}.

Definition notIsolatedError (name value : string) : FieldError :=
  {| Message := MsgVariableNotIsolated value "step" name;
     Paths := ["taskspec.steps." +:+ name]; Details := "" |}.

(** The check of the arrays on a field, by the class of the field. *)
Definition arrayCheck (prefix : string) (vars : gset string)
    (field : FieldClass * string * string) : option FieldError :=
  match field with
  | (NoArrayField, name, value) =>
      validateTaskNoArrayReferenced name value prefix vars
  | (IsolatedArrayField, name, value) =>
      validateTaskArraysIsolated name value prefix vars
  end.

(** The check of the references on a field. *)
Definition variableCheck (prefix : string) (vars : gset string)
    (field : FieldClass * string * string) : option FieldError :=
  validateTaskVariable field.1.2 field.2 prefix vars.

(** A parameter name declared in the new-style list or in the legacy
    list. *)
Definition declaredParam (inputs : option Inputs) (params : list ParamSpec)
    (q : string) : Prop :=
  q ∈ map ParamSpec_Name params \/
  q ∈ map ParamSpec_Name (inputsParams inputs).

(** The two sets of names that [validateInputParameterVariables] builds
    from the new-style list and from the legacy list. *)
Definition parameterNames (inputs : option Inputs) (params : list ParamSpec)
  : gset string :=
  addParameterNames (addParameterNames ∅ params) (inputsParams inputs).

Definition arrayParameterNames (inputs : option Inputs)
    (params : list ParamSpec) : gset string :=
  addArrayParameterNames (addArrayParameterNames ∅ params)
                         (inputsParams inputs).

(** A parameter declared with the array type, in either list. *)
Definition declaredArray (inputs : option Inputs) (params : list ParamSpec)
    (q : string) : Prop :=
  exists p, (p ∈ params \/ p ∈ inputsParams inputs) /\
            ParamSpec_Name p = q /\ ParamSpec_Type p = ParamTypeArray.

(** ** Sample inputs *)

(** An instance of the collaborators for the examples: the steps are
    merged with no change, the other packages accept every input, the
    default mount path of a workspace is under [/workspace]. *)
Definition acceptAll : Collaborators := {|
  MergeStepsWithStepTemplate := fun _ steps => inl steps;
  TaskResources_Validate := fun _ => None;
  ValidateParameterTypes := fun _ => None;
  ValidateParameterVariables := fun _ _ => None;
  ValidateResourcesVariables := fun _ _ => None;
  IsDNS1123Label := fun _ => [];
  ToLower := fun s => s;
  AllResourceTypes := ["git"; "storage"; "image"; "cluster"; "pullRequest"; "cloudEvent"];
  defaultMountPath := fun name => "/workspace/" +:+ name
|}.

Definition emptySpec : TaskSpec := {|
  TaskSpec_Resources := None;
  TaskSpec_Params := [];
  TaskSpec_Steps := [];
  TaskSpec_Volumes := [];
  TaskSpec_StepTemplate := None;
  TaskSpec_Workspaces := [];
  TaskSpec_Inputs := None;
  TaskSpec_Outputs := None
|}.

Definition mkStep (name image : string) : Step := {|
  Step_Name := name;
  Step_Image := image;
  Step_Command := [];
  Step_Args := [];
  Step_WorkingDir := "";
  Step_Env := [];
  Step_VolumeMounts := [];
  Step_Script := ""
|}.

Definition mkParam (name : string) (type : ParamType) : ParamSpec := {|
  ParamSpec_Name := name;
  ParamSpec_Type := type;
  ParamSpec_Default := None
|}.

Definition volumeOnlySpec : TaskSpec := {|
  TaskSpec_Resources := None;
  TaskSpec_Params := [];
  TaskSpec_Steps := [];
  TaskSpec_Volumes := [{| Volume_Name := "cache" |}];
  TaskSpec_StepTemplate := None;
  TaskSpec_Workspaces := [];
  TaskSpec_Inputs := None;
  TaskSpec_Outputs := None
|}.

Definition bothParamsSpec : TaskSpec := {|
  TaskSpec_Resources := None;
  TaskSpec_Params := [mkParam "revision" ParamTypeString];
  TaskSpec_Steps := [mkStep "build" "busybox"];
  TaskSpec_Volumes := [];
  TaskSpec_StepTemplate := None;
  TaskSpec_Workspaces := [];
  TaskSpec_Inputs :=
    Some {| Inputs_Resources := [];
            Inputs_Params := [mkParam "flags" ParamTypeArray] |};
  TaskSpec_Outputs := None
|}.

Definition bothParamsNoStepsSpec : TaskSpec := {|
  TaskSpec_Resources := None;
  TaskSpec_Params := [mkParam "revision" ParamTypeString];
  TaskSpec_Steps := [];
  TaskSpec_Volumes := [];
  TaskSpec_StepTemplate := None;
  TaskSpec_Workspaces := [];
  TaskSpec_Inputs :=
    Some {| Inputs_Resources := [];
            Inputs_Params := [mkParam "flags" ParamTypeArray] |};
  TaskSpec_Outputs := None
|}.

Definition newParamsSpec : TaskSpec := {|
  TaskSpec_Resources := None;
  TaskSpec_Params := [mkParam "revision" ParamTypeString];
  TaskSpec_Steps := [mkStep "build" "busybox"];
  TaskSpec_Volumes := [];
  TaskSpec_StepTemplate := None;
  TaskSpec_Workspaces := [];
  TaskSpec_Inputs := Some {| Inputs_Resources := []; Inputs_Params := [] |};
  TaskSpec_Outputs := None
|}.

Definition stepDupA : Step := mkStep "compile" "".
Definition stepBuild : Step := mkStep "compile" "golang".
Definition stepTest : Step := mkStep "test" "golang".

Definition stepScriptNoImage : Step := {|
  Step_Name := "lint";
  Step_Image := "";
  Step_Command := ["make"];
  Step_Args := [];
  Step_WorkingDir := "";
  Step_Env := [];
  Step_VolumeMounts := [];
  Step_Script := "#!/bin/sh"
|}.

Definition stepScriptAndCommand : Step := {|
  Step_Name := "lint";
  Step_Image := "golang";
  Step_Command := ["make"];
  Step_Args := [];
  Step_WorkingDir := "";
  Step_Env := [];
  Step_VolumeMounts := [];
  Step_Script := "#!/bin/sh"
|}.

Definition mountAt (name mountPath : string) : VolumeMount := {|
  VolumeMount_Name := name;
  VolumeMount_MountPath := mountPath;
  VolumeMount_SubPath := ""
|}.

Definition stepWithMount (vm : VolumeMount) : Step := {|
  Step_Name := "build";
  Step_Image := "golang";
  Step_Command := [];
  Step_Args := [];
  Step_WorkingDir := "";
  Step_Env := [];
  Step_VolumeMounts := [vm];
  Step_Script := ""
|}.

Definition paramNumberDefaultString : ParamSpec := {|
  ParamSpec_Name := "depth";
  ParamSpec_Type := "number";
  ParamSpec_Default :=
    Some {| ArrayOrString_Type := ParamTypeString;
            ArrayOrString_StringVal := "1";
            ArrayOrString_ArrayVal := [] |}
|}.

Definition paramArrayDefaultString : ParamSpec := {|
  ParamSpec_Name := "flags";
  ParamSpec_Type := ParamTypeArray;
  ParamSpec_Default :=
    Some {| ArrayOrString_Type := ParamTypeString;
            ArrayOrString_StringVal := "-v";
            ArrayOrString_ArrayVal := [] |}
|}.

(** The legacy inputs with the parameters [params] and no resource. *)
Definition legacyParams (params : list ParamSpec) : Inputs :=
  {| Inputs_Resources := []; Inputs_Params := params |}.

Definition wsSrc : WorkspaceDeclaration :=
  {| Workspace_Name := "src"; Workspace_MountPath := "/data" |}.
Definition wsSrcSlash : WorkspaceDeclaration :=
  {| Workspace_Name := "src"; Workspace_MountPath := "/data/" |}.
Definition wsOut : WorkspaceDeclaration :=
  {| Workspace_Name := "out"; Workspace_MountPath := "/data/./" |}.
Definition wsLogs : WorkspaceDeclaration :=
  {| Workspace_Name := "logs"; Workspace_MountPath := "" |}.
Definition underWorkspace (name : string) : string := "/workspace/" +:+ name.

Definition stepEcho (arg : string) : Step := {|
  Step_Name := "echo";
  Step_Image := "busybox";
  Step_Command := ["echo"];
  Step_Args := [arg];
  Step_WorkingDir := "";
  Step_Env := [];
  Step_VolumeMounts := [];
  Step_Script := ""
|}.

Definition legacyOnly (params : list ParamSpec) : option Inputs :=
  Some {| Inputs_Resources := []; Inputs_Params := params |}.

Definition stepCommand (command : list string) : Step := {|
  Step_Name := "run";
  Step_Image := "busybox";
  Step_Command := command;
  Step_Args := [];
  Step_WorkingDir := "";
  Step_Env := [];
  Step_VolumeMounts := [];
  Step_Script := ""
|}.

Definition stepImage (image : string) : Step := {|
  Step_Name := "run";
  Step_Image := image;
  Step_Command := [];
  Step_Args := [];
  Step_WorkingDir := "";
  Step_Env := [];
  Step_VolumeMounts := [];
  Step_Script := ""
|}.

(** ** Further notions used in the statements *)

(** The first element of [l] whose key is in [seen] or is the key of an
    element before it. *)
Fixpoint firstDup {A} (key : A -> string) (seen : gset string) (l : list A)
  : option A :=
  match l with
  | [] => None
  | x :: rest =>
      if bool_decide (key x ∈ seen) then Some x
      else firstDup key ({[ key x ]} ∪ seen) rest
  end.

(** The error of [ValidateVolumes]. *)
Definition volumeNameError (name : string) : FieldError :=
  {| Message := MsgVolumeName name; Paths := ["name"]; Details := "" |}.

(** A cleaned mount path of a volume mount of a step or of the step
    template. *)
Definition mountedPath (steps : list Step) (stepTemplate : option Container)
    (p : string) : Prop :=
  (exists step vm, step ∈ steps /\ vm ∈ Step_VolumeMounts step /\
                   Clean (VolumeMount_MountPath vm) = p) \/
  (exists tmpl vm, stepTemplate = Some tmpl /\
                   vm ∈ Container_VolumeMounts tmpl /\
                   Clean (VolumeMount_MountPath vm) = p).

(** The name of a volume mount starts with the reserved prefix. *)
Definition internalName (name : string) : Prop :=
  exists rest, name = "tekton-internal-" +:+ rest.

(** What the loop of [validateSteps] accepts in a step, names apart. *)
Definition stepWellFormed (s : Step) : Prop :=
  Step_Image s <> "" /\
  (Step_Script s = "" \/ Step_Command s = []) /\
  forall vm, vm ∈ Step_VolumeMounts s ->
    ~ underReservedPath (VolumeMount_MountPath vm) /\
    ~ internalName (VolumeMount_Name vm).

(** The non-empty names of the steps, in order. *)
Definition stepNamesOf (steps : list Step) : list string :=
  filter (fun n : string => n <> "") (map Step_Name steps).

(** The index of a step that a message of [validateSteps] carries. *)
Definition errorIndex (e : FieldError) : option nat :=
  match Message e with
  | MsgScriptWithCommand idx => Some idx
  | MsgMountUnderTekton idx _ _ => Some idx
  | MsgMountNameInternal idx _ => Some idx
  | _ => None
  end.

(** The two sets of [validateDeclaredWorkspaces] after its loop has run
    over [workspaces] with no error. *)
Definition addWorkspaceNames (wsNames : gset string)
    (workspaces : list WorkspaceDeclaration) : gset string :=
  foldl (fun acc w => {[ Workspace_Name w ]} ∪ acc) wsNames workspaces.

Definition addWorkspacePaths (defaultMountPath : string -> string)
    (mountPaths : gset string) (workspaces : list WorkspaceDeclaration)
  : gset string :=
  foldl (fun acc w => {[ resolvedPath defaultMountPath w ]} ∪ acc)
        mountPaths workspaces.

(** ASCII lower-casing, for the examples. *)
Definition lowerChar (c : ascii) : ascii :=
  let n := nat_of_ascii c in
  if (65 <=? n) && (n <=? 90) then ascii_of_nat (n + 32) else c.

Fixpoint lowerAscii (s : string) : string :=
  match s with
  | EmptyString => EmptyString
  | String c s' => String (lowerChar c) (lowerAscii s')
  end.

Definition lowerCasing : Collaborators := {|
  MergeStepsWithStepTemplate := fun _ steps => inl steps;
  TaskResources_Validate := fun _ => None;
  ValidateParameterTypes := fun _ => None;
  ValidateParameterVariables := fun _ _ => None;
  ValidateResourcesVariables := fun _ _ => None;
  IsDNS1123Label := fun _ => [];
  ToLower := lowerAscii;
  AllResourceTypes := ["git"; "storage"; "image"; "cluster"; "pullRequest"; "cloudEvent"];
  defaultMountPath := fun name => "/workspace/" +:+ name
|}.

Definition mkResource (name : string) (type : PipelineResourceType)
  : TaskResource :=
  {| TaskResource_Name := name; TaskResource_Type := type |}.

Definition wsCache : WorkspaceDeclaration :=
  {| Workspace_Name := "cache"; Workspace_MountPath := "/cache/" |}.

Definition stepNoImage : Step := mkStep "fetch" "".

Definition stepInternalMount : Step :=
  stepWithMount (mountAt "tekton-internal-tools" "/tools").

(** Every reference of the field value is to a declared parameter. *)
Definition fieldResolves (inputs : option Inputs) (params : list ParamSpec)
    (value : string) : Prop :=
  forall q, references "params" value q -> declaredParam inputs params q.

(** Every reference of the field value to an array parameter is legal for
    the class of the field: the field is a command or argument token and
    the reference is the whole token. *)
Definition fieldArraysLegal (inputs : option Inputs) (params : list ParamSpec)
    (cls : FieldClass) (value : string) : Prop :=
  forall q, references "params" value q -> declaredArray inputs params q ->
    cls = IsolatedArrayField /\ wholeFieldReference "params" value q.

(** The error of the check of the arrays on a field, by its class. *)
Definition arrayError (cls : FieldClass) (name value : string) : FieldError :=
  match cls with
  | NoArrayField => prohibitedError name value
  | IsolatedArrayField => notIsolatedError name value
  end.

(** The step with another script. *)
Definition withScript (s : Step) (script : string) : Step := {|
  Step_Name := Step_Name s;
  Step_Image := Step_Image s;
  Step_Command := Step_Command s;
  Step_Args := Step_Args s;
  Step_WorkingDir := Step_WorkingDir s;
  Step_Env := Step_Env s;
  Step_VolumeMounts := Step_VolumeMounts s;
  Step_Script := script
|}.

(** A resource name declared in one of the four lists of resources. *)
Definition declaredResource (inputs : option Inputs) (outputs : option Outputs)
    (resources : option TaskResources) (n : string) : Prop :=
  n ∈ map TaskResource_Name (resourcesInputs resources) \/
  n ∈ map TaskResource_Name (resourcesOutputs resources) \/
  n ∈ map TaskResource_Name
        (match inputs with Some i => Inputs_Resources i | None => [] end) \/
  n ∈ map TaskResource_Name
        (match outputs with Some o => Outputs_Resources o | None => [] end).

Definition gitSource : TaskResource := mkResource "source" "git".
Definition imageBuilt : TaskResource := mkResource "built" "image".

(** The legacy lists of resources of a specification. *)
Definition legacyInputResources (ts : TaskSpec) : list TaskResource :=
  match TaskSpec_Inputs ts with
  | Some inputs => Inputs_Resources inputs
  | None => []
  end.

Definition legacyOutputResources (ts : TaskSpec) : list TaskResource :=
  match TaskSpec_Outputs ts with
  | Some outputs => Outputs_Resources outputs
  | None => []
  end.

Definition resourcesSpec (inputs : option Inputs) (outputs : option Outputs)
    (resources : option TaskResources) : TaskSpec := {|
  TaskSpec_Resources := resources;
  TaskSpec_Params := [];
  TaskSpec_Steps := [mkStep "build" "busybox"];
  TaskSpec_Volumes := [];
  TaskSpec_StepTemplate := None;
  TaskSpec_Workspaces := [];
  TaskSpec_Inputs := inputs;
  TaskSpec_Outputs := outputs
|}.

(** The five paths of the errors of [validateSteps], as [TaskSpec.Validate]
    reports them under the field [steps]. *)
Definition stepErrorPaths : list (list string) :=
  [["steps.Image"]; ["steps.script"]; ["steps.name"];
   ["steps.volumeMounts.mountPath"]; ["steps.volumeMounts.name"]].

(** A specification with a workspace, a volume, a legacy parameter that a
    step refers to, and two steps. *)
Definition buildSpec : TaskSpec := {|
  TaskSpec_Resources := None;
  TaskSpec_Params := [];
  TaskSpec_Steps := [stepEcho "$(inputs.params.revision)";
                     stepWithMount (mountAt "cache" "/cache")];
  TaskSpec_Volumes := [{| Volume_Name := "cache" |}];
  TaskSpec_StepTemplate := None;
  TaskSpec_Workspaces := [wsSrc];
  TaskSpec_Inputs := legacyOnly [mkParam "revision" ParamTypeString];
  TaskSpec_Outputs := None
|}.

(** The same with a second step that has no image and a volume declared
    twice. *)
Definition brokenStepSpec : TaskSpec := {|
  TaskSpec_Resources := None;
  TaskSpec_Params := [];
  TaskSpec_Steps := [stepEcho "$(inputs.params.revision)"; stepNoImage];
  TaskSpec_Volumes := [{| Volume_Name := "cache" |}];
  TaskSpec_StepTemplate := None;
  TaskSpec_Workspaces := [wsSrc];
  TaskSpec_Inputs := legacyOnly [mkParam "revision" ParamTypeString];
  TaskSpec_Outputs := None
|}.

(** * Defaults of task runs

    A shallow embedding of the two methods [SetDefaults] of the file
    [taskrun_defaults.go] of the same package.  A method that updates its
    receiver in place is a function from the receiver before the call to
    the receiver after it.  The declarations of the types are outside the
    file: each record lists the fields that the methods read or write, and
    one field for all the others. *)

(** [time.Minute], a [time.Duration]: a number of nanoseconds. *)
Definition Minute : Z := 60000000000.

(** The wrap-around of [int64], the type under [time.Duration]. *)
Definition wrap64 (z : Z) : Z := ((z + 2 ^ 63) mod 2 ^ 64 - 2 ^ 63)%Z.

Definition managedByLabelKey : string := "app.kubernetes.io/managed-by".

Record TaskRef : Type := {
  TaskRef_Name : string;
  TaskRef_Kind : string;
  TaskRef_APIVersion : string
}.

Set Implicit Arguments.

Section TaskRunDefaults.
(** The pod template, and the fields of the specification and of the
    metadata of a task run that the methods neither read nor write. *)
Variables PodTemplate OtherSpec OtherMeta : Type.

Record TaskRunSpec : Type := {
  TaskRunSpec_ServiceAccountName : string;
  TaskRunSpec_TaskRef : option TaskRef;
  TaskRunSpec_TaskSpec : option TaskSpec;
  (** [*metav1.Duration]: the nanoseconds of the duration. *)
  TaskRunSpec_Timeout : option Z;
  TaskRunSpec_PodTemplate : option PodTemplate;
  TaskRunSpec_Other : OtherSpec
}.

(** [metav1.ObjectMeta]; a Go map that may be [nil] is an [option]. *)
Record ObjectMeta : Type := {
  ObjectMeta_Labels : option (gmap string string);
  ObjectMeta_Other : OtherMeta
}.

Record TaskRun : Type := {
  TaskRun_ObjectMeta : ObjectMeta;
  TaskRun_Spec : TaskRunSpec
}.

(** [config.Defaults], the field [Defaults] of the configuration. *)
Record Defaults : Type := {
  (** A Go [int]. *)
  DefaultTimeoutMinutes : Z;
  DefaultServiceAccount : string;
  DefaultManagedByLabelValue : string;
  DefaultPodTemplate : option PodTemplate
}.

(** The context, the other API version of the specification, and the
    functions and constants of other files and packages that the methods
    use. *)
Variables Ctx V1alpha2TaskRunSpec : Type.
(** [contexts.IsUpgradeViaDefaulting]. *)
Variable IsUpgradeViaDefaulting : Ctx -> bool.
(** [config.FromContextOrDefaults(ctx).Defaults]. *)
Variable FromContextOrDefaults : Ctx -> Defaults.
(** [apis.WithinParent] and [apis.WithinSpec]. *)
Variable WithinParent : Ctx -> ObjectMeta -> Ctx.
Variable WithinSpec : Ctx -> Ctx.
(** The conversions [ConvertUp] and [ConvertDown] from and to a fresh
    value; [None] stands for an error. *)
Variable ConvertUp : Ctx -> TaskRunSpec -> option V1alpha2TaskRunSpec.
Variable ConvertDown : Ctx -> V1alpha2TaskRunSpec -> option TaskRunSpec.
(** The method [SetDefaults] of [TaskSpec]. *)
Variable TaskSpec_SetDefaults : Ctx -> TaskSpec -> TaskSpec.
(** The constants [NamespacedTaskKind] and [config.DefaultTimeoutMinutes]. *)
Variable NamespacedTaskKind : string.
Variable config_DefaultTimeoutMinutes : Z.

(** The assignments to the fields of the specification. *)
Definition setKind (trs : TaskRunSpec) (ref : TaskRef) (kind : string)
  : TaskRunSpec := {|
  TaskRunSpec_ServiceAccountName := TaskRunSpec_ServiceAccountName trs;
  TaskRunSpec_TaskRef :=
    Some {| TaskRef_Name := TaskRef_Name ref; TaskRef_Kind := kind;
            TaskRef_APIVersion := TaskRef_APIVersion ref |};
  TaskRunSpec_TaskSpec := TaskRunSpec_TaskSpec trs;
  TaskRunSpec_Timeout := TaskRunSpec_Timeout trs;
  TaskRunSpec_PodTemplate := TaskRunSpec_PodTemplate trs;
  TaskRunSpec_Other := TaskRunSpec_Other trs
|}.

Definition setTimeout (trs : TaskRunSpec) (timeout : option Z)
  : TaskRunSpec := {|
  TaskRunSpec_ServiceAccountName := TaskRunSpec_ServiceAccountName trs;
  TaskRunSpec_TaskRef := TaskRunSpec_TaskRef trs;
  TaskRunSpec_TaskSpec := TaskRunSpec_TaskSpec trs;
  TaskRunSpec_Timeout := timeout;
  TaskRunSpec_PodTemplate := TaskRunSpec_PodTemplate trs;
  TaskRunSpec_Other := TaskRunSpec_Other trs
|}.

Definition setServiceAccountName (trs : TaskRunSpec) (name : string)
  : TaskRunSpec := {|
  TaskRunSpec_ServiceAccountName := name;
  TaskRunSpec_TaskRef := TaskRunSpec_TaskRef trs;
  TaskRunSpec_TaskSpec := TaskRunSpec_TaskSpec trs;
  TaskRunSpec_Timeout := TaskRunSpec_Timeout trs;
  TaskRunSpec_PodTemplate := TaskRunSpec_PodTemplate trs;
  TaskRunSpec_Other := TaskRunSpec_Other trs
|}.

Definition setPodTemplate (trs : TaskRunSpec) (tmpl : option PodTemplate)
  : TaskRunSpec := {|
  TaskRunSpec_ServiceAccountName := TaskRunSpec_ServiceAccountName trs;
  TaskRunSpec_TaskRef := TaskRunSpec_TaskRef trs;
  TaskRunSpec_TaskSpec := TaskRunSpec_TaskSpec trs;
  TaskRunSpec_Timeout := TaskRunSpec_Timeout trs;
  TaskRunSpec_PodTemplate := tmpl;
  TaskRunSpec_Other := TaskRunSpec_Other trs
|}.

Definition setTaskSpec (trs : TaskRunSpec) (ts : option TaskSpec)
  : TaskRunSpec := {|
  TaskRunSpec_ServiceAccountName := TaskRunSpec_ServiceAccountName trs;
  TaskRunSpec_TaskRef := TaskRunSpec_TaskRef trs;
  TaskRunSpec_TaskSpec := ts;
  TaskRunSpec_Timeout := TaskRunSpec_Timeout trs;
  TaskRunSpec_PodTemplate := TaskRunSpec_PodTemplate trs;
  TaskRunSpec_Other := TaskRunSpec_Other trs
|}.

(** The first block of [TaskRunSpec.SetDefaults]: in an upgrade, the
    specification is replaced by its conversion up and down again, when
    both conversions succeed. *)
Definition upgradeViaDefaulting (ctx : Ctx) (trs : TaskRunSpec)
  : TaskRunSpec :=
  if IsUpgradeViaDefaulting ctx then
    match ConvertUp ctx trs with
    | Some v =>
        match ConvertDown ctx v with
        | Some alpha => alpha
        | None => trs
        end
    | None => trs
    end
  else trs.

(** The default timeout.  The product of the two constants is a constant
    of Go, which has no wrap-around; the product with the configured
    number of minutes is a product of [time.Duration]. *)
Definition defaultTimeout (ctx : Ctx) (cfg : Defaults) : Z :=
  if IsUpgradeViaDefaulting ctx then
    (config_DefaultTimeoutMinutes * Minute)%Z
  else wrap64 (DefaultTimeoutMinutes cfg * Minute).

(** [TaskRunSpec.SetDefaults]. *)
Definition TaskRunSpec_SetDefaults (ctx : Ctx) (trs : TaskRunSpec)
  : TaskRunSpec :=
  let trs := upgradeViaDefaulting ctx trs in
  let cfg := FromContextOrDefaults ctx in
  let trs :=
    match TaskRunSpec_TaskRef trs with
    | Some ref =>
        if String.eqb (TaskRef_Kind ref) "" then
          setKind trs ref NamespacedTaskKind
        else trs
    | None => trs
    end in
  let trs :=
    match TaskRunSpec_Timeout trs with
    | None => setTimeout trs (Some (defaultTimeout ctx cfg))
    | Some _ => trs
    end in
  let defaultSA := DefaultServiceAccount cfg in
  let trs :=
    if String.eqb (TaskRunSpec_ServiceAccountName trs) "" &&
       negb (String.eqb defaultSA "") then
      setServiceAccountName trs defaultSA
    else trs in
  let defaultPodTemplate := DefaultPodTemplate cfg in
  let trs :=
    match TaskRunSpec_PodTemplate trs with
    | None => setPodTemplate trs defaultPodTemplate
    | Some _ => trs
    end in
  match TaskRunSpec_TaskSpec trs with
  | Some ts => setTaskSpec trs (Some (TaskSpec_SetDefaults ctx ts))
  | None => trs
  end.

(** [TaskRun.SetDefaults]. *)
Definition TaskRun_SetDefaults (ctx : Ctx) (tr : TaskRun) : TaskRun :=
  let ctx := WithinParent ctx (TaskRun_ObjectMeta tr) in
  let spec := TaskRunSpec_SetDefaults (WithinSpec ctx) (TaskRun_Spec tr) in
  let cfg := FromContextOrDefaults ctx in
  let labels :=
    match ObjectMeta_Labels (TaskRun_ObjectMeta tr) with
    | None => ∅
    | Some labels => labels
    end in
  let labels :=
    match labels !! managedByLabelKey with
    | None => <[managedByLabelKey := DefaultManagedByLabelValue cfg]> labels
    | Some _ => labels
    end in
  {| TaskRun_ObjectMeta :=
       {| ObjectMeta_Labels := Some labels;
          ObjectMeta_Other := ObjectMeta_Other (TaskRun_ObjectMeta tr) |};
     TaskRun_Spec := spec |}.

End TaskRunDefaults.

Unset Implicit Arguments.

(** A platform for the examples: the context is the pair of the upgrade
    flag and of the configured defaults, the pod template is its name,
    the conversions succeed and return the specification as it is, and
    the defaults of a task specification change nothing. *)
Definition sampleDefaults : Defaults string := {|
  DefaultTimeoutMinutes := 60;
  DefaultServiceAccount := "default";
  DefaultManagedByLabelValue := "tekton-pipelines";
  DefaultPodTemplate := None
|}.

Definition sampleSetDefaults
  : bool * Defaults string -> TaskRunSpec string unit -> TaskRunSpec string unit :=
  TaskRunSpec_SetDefaults fst snd (fun _ trs => Some trs) (fun _ v => Some v)
    (fun _ ts => ts) "Task" 60.

Definition sampleRunSpec : TaskRunSpec string unit := {|
  TaskRunSpec_ServiceAccountName := "";
  TaskRunSpec_TaskRef :=
    Some {| TaskRef_Name := "build"; TaskRef_Kind := "";
            TaskRef_APIVersion := "" |};
  TaskRunSpec_TaskSpec := None;
  TaskRunSpec_Timeout := None;
  TaskRunSpec_PodTemplate := None;
  TaskRunSpec_Other := tt
|}.

Definition explicitRunSpec : TaskRunSpec string unit := {|
  TaskRunSpec_ServiceAccountName := "builder";
  TaskRunSpec_TaskRef :=
    Some {| TaskRef_Name := "build"; TaskRef_Kind := "ClusterTask";
            TaskRef_APIVersion := "" |};
  TaskRunSpec_TaskSpec := None;
  TaskRunSpec_Timeout := Some (5 * Minute)%Z;
  TaskRunSpec_PodTemplate := Some "spot-nodes";
  TaskRunSpec_Other := tt
|}.

(** * Properties *)

(** ** Sequencing and loops *)

Lemma orElse_None (a b : option FieldError) :
  (a ;;; b) = None <-> a = None /\ b = None.
Proof. destruct a; simpl; [split; [done | by intros []] | tauto]. Qed.

Lemma orElse_Some (a b : option FieldError) (e : FieldError) :
  (a ;;; b) = Some e <-> a = Some e \/ (a = None /\ b = Some e).
Proof.
  destruct a; simpl.
  - split; [by left | by intros [|[]]].
  - split; [by right | by intros [|[]]].
Qed.

Lemma orElse_is_Some_l (a b : option FieldError) :
  a <> None -> (a ;;; b) <> None.
Proof. destruct a; simpl; congruence. Qed.

Lemma orElse_is_Some_r (a b : option FieldError) :
  b <> None -> (a ;;; b) <> None.
Proof. destruct a; simpl; congruence. Qed.

Lemma isNil_false {A} (l : list A) : isNil l = false <-> l <> [].
Proof. destruct l; simpl; split; congruence. Qed.

Lemma nonEmpty_true (s : string) : nonEmpty s = true <-> s <> "".
Proof. destruct s; simpl; split; congruence. Qed.

Lemma nonEmpty_false (s : string) : nonEmpty s = false <-> s = "".
Proof. destruct s; simpl; split; congruence. Qed.

Lemma forEach_None {A} (body : A -> option FieldError) (l : list A) :
  forEach body l = None <-> forall x, x ∈ l -> body x = None.
Proof.
  induction l as [|x l IH]; simpl.
  - split; [intros _ x Hx; inversion Hx | done].
  - rewrite orElse_None, IH. split.
    + intros [Hx Hl] y Hy. apply elem_of_cons in Hy as [->|Hy]; auto.
    + intros H. split; [apply H; left | intros y Hy; apply H; by right].
Qed.

Lemma forEach_Some {A} (body : A -> option FieldError) (l : list A) e :
  forEach body l = Some e ->
  exists pre x post, l = pre ++ x :: post /\ forEach body pre = None /\
                     body x = Some e.
Proof.
  induction l as [|x l IH]; simpl; [done|].
  rewrite orElse_Some. intros [Hx|[Hx Hl]].
  - by exists [], x, l.
  - destruct (IH Hl) as (pre & y & post & -> & Hpre & Hy).
    exists (x :: pre), y, post. simpl. rewrite Hx. done.
Qed.

Lemma forEach_app {A} (body : A -> option FieldError) (l1 l2 : list A) :
  forEach body (l1 ++ l2) = (forEach body l1 ;;; forEach body l2).
Proof.
  induction l1 as [|x l1 IH]; simpl; [done|].
  rewrite IH. by destruct (body x), (forEach body l1).
Qed.

(** ** The validator's first checks *)

Lemma DeepEqualEmpty_spec (ts : TaskSpec) :
  DeepEqualEmpty ts = true <-> ts = emptySpec.
Proof.
  split; [|by intros ->].
  destruct ts as [resources params steps volumes template workspaces
                  inputs outputs].
  unfold DeepEqualEmpty. simpl.
  destruct resources, params, steps, volumes, template, workspaces,
           inputs, outputs; simpl; done.
Qed.

(** C5, the claim as stated fails: the specification with nothing in it
    has an empty step list, and its validation fails at the guard on the
    empty specification, whose error names the current field (the empty
    path) and not ["steps"]. *)
Lemma Validate_emptySpec_current_field :
  TaskSpec_Steps emptySpec = [] /\
  (forall ext, Validate ext emptySpec = Some (ErrMissingField [CurrentField])) /\
  (forall ext, Validate ext emptySpec <> Some (ErrMissingField ["steps"])).
Proof.
  split; [reflexivity|]. split; [reflexivity|]. intros ext. discriminate.
Qed.

(** C5 (amended).  For every specification that is not entirely empty
    (that differs from the specification with no field set) and whose
    step list is empty, validation fails with the missing-field error
    whose field path is ["steps"]. *)
Theorem Validate_no_steps (ext : Collaborators) (ts : TaskSpec) :
  ts <> emptySpec ->
  TaskSpec_Steps ts = [] ->
  Validate ext ts = Some (ErrMissingField ["steps"]).
Proof.
  intros Hne Hsteps. unfold Validate.
  destruct (DeepEqualEmpty ts) eqn:Hempty.
  - by apply DeepEqualEmpty_spec in Hempty.
  - by rewrite Hsteps.
Qed.

Lemma Validate_no_steps_witness :
  volumeOnlySpec <> emptySpec /\
  TaskSpec_Steps volumeOnlySpec = [] /\
  Validate acceptAll volumeOnlySpec = Some (ErrMissingField ["steps"]).
Proof.
  split; [discriminate|]. split; [reflexivity|].
  apply (Validate_no_steps acceptAll volumeOnlySpec);
    [discriminate | reflexivity].
Defined.

(** ** Parameters declared twice *)

Lemma DeepEqualEmpty_Params (ts : TaskSpec) :
  TaskSpec_Params ts <> [] -> DeepEqualEmpty ts = false.
Proof.
  intros H. unfold DeepEqualEmpty.
  apply isNil_false in H. rewrite H.
  by rewrite andb_false_r.
Qed.

Lemma validateOneOf_params (ts : TaskSpec) :
  inputsParams (TaskSpec_Inputs ts) <> [] ->
  TaskSpec_Params ts <> [] ->
  validateOneOf ts = Some paramsOneOfError.
Proof.
  intros Hi Hp. unfold validateOneOf.
  destruct (TaskSpec_Inputs ts) as [inputs|]; simpl in *; [|done].
  apply isNil_false in Hi, Hp. by rewrite Hi, Hp.
Qed.

(** C8, the claim as stated fails: a specification with both parameter
    lists populated and no step is rejected by the check on the steps,
    which comes first; the error is the missing field ["steps"]. *)
Lemma Validate_both_params_no_steps :
  inputsParams (TaskSpec_Inputs bothParamsNoStepsSpec) <> [] /\
  TaskSpec_Params bothParamsNoStepsSpec <> [] /\
  (forall ext,
     Validate ext bothParamsNoStepsSpec = Some (ErrMissingField ["steps"])) /\
  (forall ext, Validate ext bothParamsNoStepsSpec <> Some paramsOneOfError).
Proof.
  split; [discriminate|]. split; [discriminate|].
  split; [reflexivity|]. intros ext. discriminate.
Qed.

(** C8 (amended).  For every specification in which both the legacy
    [inputs.params] list and the new-style [params] list are non-empty,
    validation fails; when the checks that come first pass (there is a
    step, the volume names and the workspaces are accepted, the step
    template merges, the merged steps are accepted) the error is the
    mutually-exclusive-fields error naming ["inputs.params"] and
    ["params"].  If at most one of the two lists is non-empty, the block
    of the check does not report this error. *)
Theorem Validate_params_oneOf (ext : Collaborators) (ts : TaskSpec) :
  (inputsParams (TaskSpec_Inputs ts) <> [] -> TaskSpec_Params ts <> [] ->
   Validate ext ts <> None) /\
  (forall mergedSteps,
     inputsParams (TaskSpec_Inputs ts) <> [] -> TaskSpec_Params ts <> [] ->
     TaskSpec_Steps ts <> [] ->
     ValidateVolumes (TaskSpec_Volumes ts) = None ->
     validateDeclaredWorkspaces (defaultMountPath ext) (TaskSpec_Workspaces ts)
       (TaskSpec_Steps ts) (TaskSpec_StepTemplate ts) = None ->
     MergeStepsWithStepTemplate ext (TaskSpec_StepTemplate ts)
       (TaskSpec_Steps ts) = inl mergedSteps ->
     validateSteps mergedSteps = None ->
     Validate ext ts = Some paramsOneOfError) /\
  (inputsParams (TaskSpec_Inputs ts) = [] \/ TaskSpec_Params ts = [] ->
   validateOneOf ts <> Some paramsOneOfError).
Proof.
  split; [|split].
  - intros Hi Hp. unfold Validate.
    destruct (DeepEqualEmpty ts); [done|].
    destruct (isNil (TaskSpec_Steps ts)); [done|].
    destruct (ViaField "volumes" _); [done|].
    destruct (validateDeclaredWorkspaces _ _ _ _); [done|].
    destruct (MergeStepsWithStepTemplate _ _ _); [|done].
    destruct (ViaField "steps" _); [done|].
    simpl. by rewrite validateOneOf_params.
  - intros merged Hi Hp Hsteps Hvol Hws Hmerge Hval. unfold Validate.
    rewrite (DeepEqualEmpty_Params ts Hp).
    apply isNil_false in Hsteps. rewrite Hsteps, Hvol, Hws, Hmerge, Hval.
    simpl. by rewrite validateOneOf_params.
  - intros Hempty. unfold validateOneOf.
    destruct (TaskSpec_Inputs ts) as [inputs|]; simpl in *.
    + destruct Hempty as [-> | ->]; simpl.
      * destruct (_ && _); simpl; [discriminate|].
        destruct (TaskSpec_Outputs ts); [|done].
        destruct (_ && _); [discriminate|done].
      * rewrite andb_false_r.
        destruct (_ && _); simpl; [discriminate|].
        destruct (TaskSpec_Outputs ts); [|done].
        destruct (_ && _); [discriminate|done].
    + destruct (TaskSpec_Outputs ts); [|done].
      destruct (_ && _); [discriminate|done].
Qed.

Lemma Validate_params_oneOf_witness :
  Validate acceptAll bothParamsSpec <> None /\
  Validate acceptAll bothParamsSpec = Some paramsOneOfError /\
  validateOneOf newParamsSpec <> Some paramsOneOfError.
Proof.
  split; [|split].
  - apply (proj1 (Validate_params_oneOf acceptAll bothParamsSpec));
      discriminate.
  - apply (proj1 (proj2 (Validate_params_oneOf acceptAll bothParamsSpec))
             [mkStep "build" "busybox"]);
      solve [discriminate | vm_compute; reflexivity].
  - apply (proj2 (proj2 (Validate_params_oneOf acceptAll newParamsSpec))).
    left. reflexivity.
Defined.

(** ** Steps *)

Lemma String_app_cons (a : ascii) (s t : string) :
  String a s +:+ t = String a (s +:+ t).
Proof. reflexivity. Qed.

Lemma HasPrefix_spec (s p : string) :
  HasPrefix s p = true <-> exists rest, s = p +:+ rest.
Proof.
  unfold HasPrefix. revert p. induction s as [|b s IH]; intros [|a p]; simpl.
  - split; [intros _; by exists "" | done].
  - split; [done | by intros [rest Hrest]].
  - split; [intros _; by exists (String b s) | done].
  - destruct (Ascii.ascii_dec a b) as [->|Hab].
    + rewrite IH. split; intros [rest Hrest]; exists rest.
      * by rewrite Hrest.
      * rewrite String_app_cons in Hrest. congruence.
    + split; [done | intros [rest Hrest]].
      rewrite String_app_cons in Hrest. congruence.
Qed.

Lemma underReservedPath_spec (mountPath : string) :
  HasPrefix mountPath "/tekton/" && negb (HasPrefix mountPath "/tekton/home")
    = true <-> underReservedPath mountPath.
Proof.
  unfold underReservedPath. rewrite <- !HasPrefix_spec.
  destruct (HasPrefix mountPath "/tekton/"),
           (HasPrefix mountPath "/tekton/home"); simpl;
    split; try done; try (by intros []); by split.
Qed.

Lemma volumeMountsLoop_Some idx vms e :
  volumeMountsLoop idx vms = Some e ->
  exists vm, vm ∈ vms /\
    ((e = reservedPathError idx vm /\
      underReservedPath (VolumeMount_MountPath vm)) \/
     e = internalNameError idx vm).
Proof.
  induction vms as [|vm vms IH]; simpl; [done|].
  destruct (_ && _) eqn:Hres.
  - intros [= <-]. exists vm. split; [left|].
    left. by rewrite <- underReservedPath_spec.
  - destruct (HasPrefix (VolumeMount_Name vm) _).
    + intros [= <-]. exists vm. split; [left | by right].
    + intros H. destruct (IH H) as (vm' & Hin & Hcase).
      exists vm'. split; [by right | done].
Qed.

Lemma volumeMountsLoop_app idx pre vms :
  volumeMountsLoop idx pre = None ->
  volumeMountsLoop idx (pre ++ vms) = volumeMountsLoop idx vms.
Proof.
  induction pre as [|vm pre IH]; simpl; [done|].
  destruct (_ && _); [done|].
  destruct (HasPrefix (VolumeMount_Name vm) _); [done | exact IH].
Qed.

Lemma elem_of_addStepName x names s :
  x ∈ addStepName names s <-> x ∈ names \/ (x <> "" /\ Step_Name s = x).
Proof.
  unfold addStepName. destruct (nonEmpty (Step_Name s)) eqn:Hne.
  - apply nonEmpty_true in Hne.
    rewrite elem_of_union, elem_of_singleton. split.
    + intros [->|Hx]; [right | by left]. done.
    + intros [Hx|[_ <-]]; [by right | by left].
  - apply nonEmpty_false in Hne. split; [by left|].
    intros [|[Hx Hs]]; [done | congruence].
Qed.

Lemma elem_of_namesAfter x names steps :
  x ∈ namesAfter names steps <->
  x ∈ names \/ (x <> "" /\ exists s, s ∈ steps /\ Step_Name s = x).
Proof.
  unfold namesAfter. revert names.
  induction steps as [|s steps IH]; intros names; simpl.
  - split; [by left|]. intros [|[_ (s & Hs & _)]]; [done | inversion Hs].
  - rewrite IH, elem_of_addStepName. split.
    + intros [[|[Hx Hs]]|[Hx (s' & Hin & Hs')]]; [by left | right..].
      * split; [done|]. exists s. split; [left | done].
      * split; [done|]. exists s'. split; [by right | done].
    + intros [|[Hx (s' & Hin & Hs')]]; [by left; left|].
      apply elem_of_cons in Hin as [->|Hin].
      * left. by right.
      * right. split; [done|]. by exists s'.
Qed.

Lemma stepsLoop_app names idx pre steps :
  stepsLoop names idx pre = None ->
  stepsLoop names idx (pre ++ steps) =
  stepsLoop (namesAfter names pre) (idx + length pre) steps.
Proof.
  revert names idx. induction pre as [|s pre IH]; intros names idx; simpl.
  - intros _. by rewrite Nat.add_0_r.
  - rewrite orElse_None. intros [Hs Hpre]. rewrite Hs. simpl.
    rewrite (IH _ _ Hpre). unfold namesAfter. simpl.
    f_equal. lia.
Qed.

Lemma stepsLoop_app_Some names idx pre steps e :
  stepsLoop names idx pre = Some e ->
  stepsLoop names idx (pre ++ steps) = Some e.
Proof.
  revert names idx. induction pre as [|s pre IH]; intros names idx; simpl;
    [done|].
  rewrite orElse_Some. intros [Hs|[Hs Hpre]]; rewrite Hs; simpl; [done|].
  by apply IH.
Qed.

(** The step at which the loop ends with an error: the steps before it
    pass, and its body reports the error. *)
Lemma stepsLoop_Some names idx steps e :
  stepsLoop names idx steps = Some e ->
  exists pre s post,
    steps = pre ++ s :: post /\ stepsLoop names idx pre = None /\
    stepBody (namesAfter names pre) (idx + length pre) s = Some e.
Proof.
  revert names idx. induction steps as [|s steps IH]; intros names idx; simpl;
    [done|].
  rewrite orElse_Some. intros [Hs|[Hs Hrest]].
  - exists [], s, steps. by rewrite Nat.add_0_r.
  - destruct (IH _ _ Hrest) as (pre & s' & post & -> & Hpre & Hbody).
    exists (s :: pre), s', post. simpl. rewrite Hs. simpl.
    replace (idx + S (length pre)) with (S idx + length pre) by lia. done.
Qed.

(** The four ways in which the body of the loop reports an error. *)
Lemma stepBody_Some names idx s e :
  stepBody names idx s = Some e ->
  (Step_Image s = "" /\ e = ErrMissingField ["Image"]) \/
  (Step_Script s <> "" /\ Step_Command s <> [] /\ e = scriptError idx) \/
  (Step_Name s <> "" /\ Step_Name s ∈ names /\
   e = ErrInvalidValue (Step_Name s) "name") \/
  volumeMountsLoop idx (Step_VolumeMounts s) = Some e.
Proof.
  unfold stepBody.
  destruct (nonEmpty (Step_Image s)) eqn:Himg; simpl.
  2:{ intros [= <-]. left. by apply nonEmpty_false in Himg. }
  destruct (nonEmpty (Step_Script s) && _) eqn:Hscript.
  { intros [= <-]. right; left.
    apply andb_true_iff in Hscript as [Hs Hc].
    apply nonEmpty_true in Hs. apply negb_true_iff, isNil_false in Hc. done. }
  destruct (nonEmpty (Step_Name s) && _) eqn:Hname.
  { intros [= <-]. right; right; left.
    apply andb_true_iff in Hname as [Hn Hin].
    apply nonEmpty_true in Hn. apply bool_decide_eq_true in Hin. done. }
  intros H. by repeat right.
Qed.

Lemma stepBody_script names idx s :
  Step_Image s <> "" -> Step_Script s <> "" -> Step_Command s <> [] ->
  stepBody names idx s = Some (scriptError idx).
Proof.
  intros Himg Hs Hc. unfold stepBody.
  apply nonEmpty_true in Himg, Hs. apply isNil_false in Hc.
  by rewrite Himg, Hs, Hc.
Qed.

Lemma stepBody_script_is_Some names idx s :
  Step_Script s <> "" -> Step_Command s <> [] ->
  stepBody names idx s <> None.
Proof.
  intros Hs Hc. unfold stepBody.
  apply nonEmpty_true in Hs. apply isNil_false in Hc.
  rewrite Hs, Hc. by destruct (nonEmpty (Step_Image s)).
Qed.

Lemma stepBody_name_is_Some names idx s :
  Step_Name s <> "" -> Step_Name s ∈ names -> stepBody names idx s <> None.
Proof.
  intros Hn Hin. unfold stepBody.
  apply nonEmpty_true in Hn.
  rewrite Hn, (bool_decide_eq_true_2 _ Hin). simpl.
  destruct (nonEmpty (Step_Image s)); simpl; [|done].
  by destruct (_ && _).
Qed.

(** Whatever comes before it, a step whose body reports an error makes the
    loop fail. *)
Lemma stepsLoop_fails_at names idx pre s post :
  (forall idx', stepBody (namesAfter names pre) idx' s <> None) ->
  stepsLoop names idx (pre ++ s :: post) <> None.
Proof.
  intros Hbody.
  destruct (stepsLoop names idx pre) as [e|] eqn:Hpre.
  - by rewrite (stepsLoop_app_Some _ _ _ _ _ Hpre).
  - rewrite (stepsLoop_app _ _ _ _ Hpre). simpl.
    apply orElse_is_Some_l, Hbody.
Qed.

(** C6, the claim as stated fails: two steps carry the name [compile],
    and the validation of the steps fails at the first of them, which has
    no image; the error is the missing field ["Image"], not the error on
    the name. *)
Lemma validateSteps_duplicate_without_image :
  Step_Name stepDupA = Step_Name stepBuild /\ Step_Name stepDupA <> "" /\
  validateSteps [stepDupA; stepBuild] = Some (ErrMissingField ["Image"]) /\
  validateSteps [stepDupA; stepBuild] <> Some (ErrInvalidValue "compile" "name").
Proof. repeat split; discriminate. Qed.

(** C6 (amended).  For every step sequence containing two steps with
    identical non-empty names, validation fails.  The error is the
    invalid-value error on ["name"] for a step that repeats the name of an
    earlier step when the steps before it are accepted and the step
    itself has an image and does not set both script and command (these
    checks come before the check of the name).  The error on the name is
    reported only for a non-empty name that two steps carry: steps with
    empty names are exempt. *)
Theorem validateSteps_duplicate_names :
  (forall steps i j s1 s2,
     i <> j -> steps !! i = Some s1 -> steps !! j = Some s2 ->
     Step_Name s1 = Step_Name s2 -> Step_Name s1 <> "" ->
     validateSteps steps <> None) /\
  (forall pre s post s',
     validateSteps pre = None ->
     Step_Image s <> "" ->
     (Step_Script s = "" \/ Step_Command s = []) ->
     Step_Name s <> "" -> s' ∈ pre -> Step_Name s' = Step_Name s ->
     validateSteps (pre ++ s :: post)
       = Some (ErrInvalidValue (Step_Name s) "name")) /\
  (forall steps v,
     validateSteps steps = Some (ErrInvalidValue v "name") ->
     v <> "" /\
     exists i j s1 s2,
       i < j /\ steps !! i = Some s1 /\ steps !! j = Some s2 /\
       Step_Name s1 = v /\ Step_Name s2 = v).
Proof.
  split; [|split].
  - assert (Hlt : forall steps i j s1 s2,
      i < j -> steps !! i = Some s1 -> steps !! j = Some s2 ->
      Step_Name s1 = Step_Name s2 -> Step_Name s1 <> "" ->
      validateSteps steps <> None).
    { intros steps i j s1 s2 Hij H1 H2 Hname Hne.
      rewrite <- (take_drop_middle steps j s2 H2).
      apply stepsLoop_fails_at. intros idx'.
      apply stepBody_name_is_Some; [congruence|].
      apply elem_of_namesAfter. right. split; [congruence|].
      exists s1. split; [|done].
      apply list_elem_of_lookup. exists i.
      by rewrite lookup_take_lt. }
    intros steps i j s1 s2 Hij H1 H2 Hname Hne.
    destruct (Nat.lt_total i j) as [Hlt'|[Heq|Hgt]]; [eauto | done |].
    apply (Hlt steps j i s2 s1); auto; congruence.
  - intros pre s post s' Hpre Himg Hsc Hne Hin Hname.
    unfold validateSteps in *. rewrite (stepsLoop_app _ _ _ _ Hpre). simpl.
    assert (Hbody : stepBody (namesAfter ∅ pre) (length pre) s
                    = Some (ErrInvalidValue (Step_Name s) "name")).
    { unfold stepBody.
      apply nonEmpty_true in Himg, Hne. rewrite Himg, Hne. simpl.
      assert (Hs : nonEmpty (Step_Script s) && negb (isNil (Step_Command s))
                   = false).
      { destruct Hsc as [-> | ->]; [done | by rewrite andb_false_r]. }
      rewrite Hs. rewrite bool_decide_eq_true_2; [done|].
      apply elem_of_namesAfter. right.
      split; [by apply nonEmpty_true|]. by exists s'. }
    by rewrite Hbody.
  - intros steps v Hv. unfold validateSteps in Hv.
    apply stepsLoop_Some in Hv as (pre & s & post & -> & Hpre & Hbody).
    apply stepBody_Some in Hbody as [[_ He]|[(_ & _ & He)|[(Hne & Hin & He)|Hvm]]];
      try discriminate.
    + injection He as ->. split; [done|].
      apply elem_of_namesAfter in Hin as [Hin|[_ (s' & Hs' & Hname)]];
        [by apply not_elem_of_empty in Hin|].
      apply list_elem_of_lookup in Hs' as [i Hi].
      exists i, (length pre), s', s. repeat split; auto.
      * by apply lookup_lt_Some in Hi.
      * rewrite lookup_app_l; [done | by apply lookup_lt_Some in Hi].
      * by rewrite list_lookup_middle.
    + apply volumeMountsLoop_Some in Hvm as (vm & _ & [[He _]|He]);
        discriminate.
Qed.

Lemma validateSteps_duplicate_names_witness :
  validateSteps [stepBuild; stepTest; stepBuild] <> None /\
  validateSteps ([stepBuild; stepTest] ++ stepBuild :: [stepTest])
    = Some (ErrInvalidValue "compile" "name") /\
  ("compile" <> "" /\
   exists i j s1 s2,
     i < j /\ [stepBuild; stepBuild] !! i = Some s1 /\
     [stepBuild; stepBuild] !! j = Some s2 /\
     Step_Name s1 = "compile" /\ Step_Name s2 = "compile").
Proof.
  split; [|split].
  - apply (proj1 validateSteps_duplicate_names
             [stepBuild; stepTest; stepBuild] 0 2 stepBuild stepBuild);
      solve [lia | reflexivity | discriminate].
  - apply (proj1 (proj2 validateSteps_duplicate_names)
             [stepBuild; stepTest] stepBuild [stepTest] stepBuild);
      solve [vm_compute; reflexivity | discriminate | by left
            | reflexivity | left; reflexivity].
  - apply (proj2 (proj2 validateSteps_duplicate_names)
             [stepBuild; stepBuild] "compile").
    vm_compute. reflexivity.
Defined.

(** C7, the claim as stated fails: the step sets both script and command
    and has no image; the validation of the steps fails at the check of
    the image, which comes first, with the missing field ["Image"]. *)
Lemma validateSteps_script_command_without_image :
  Step_Script stepScriptNoImage <> "" /\
  Step_Command stepScriptNoImage <> [] /\
  validateSteps [stepScriptNoImage] = Some (ErrMissingField ["Image"]) /\
  validateSteps [stepScriptNoImage] <> Some (scriptError 0).
Proof. repeat split; discriminate. Qed.

(** C7 (amended).  For every step in which both the script and the
    command list are non-empty, validation fails; the error is the error
    on ["script"] with the index of the step when the steps before it are
    accepted and the step has an image (the check of the image comes
    first).  That error is reported only for a step in which both are
    non-empty: a step with at most one of them passes this check. *)
Theorem validateSteps_script_command :
  (forall steps idx s,
     steps !! idx = Some s ->
     Step_Script s <> "" -> Step_Command s <> [] ->
     validateSteps steps <> None) /\
  (forall pre s post,
     validateSteps pre = None ->
     Step_Image s <> "" ->
     Step_Script s <> "" -> Step_Command s <> [] ->
     validateSteps (pre ++ s :: post) = Some (scriptError (length pre))) /\
  (forall steps idx,
     validateSteps steps = Some (scriptError idx) ->
     exists s, steps !! idx = Some s /\
               Step_Script s <> "" /\ Step_Command s <> []).
Proof.
  split; [|split].
  - intros steps idx s Hidx Hs Hc.
    rewrite <- (take_drop_middle steps idx s Hidx).
    apply stepsLoop_fails_at. intros idx'.
    by apply stepBody_script_is_Some.
  - intros pre s post Hpre Himg Hs Hc.
    unfold validateSteps in *. rewrite (stepsLoop_app _ _ _ _ Hpre). simpl.
    by rewrite stepBody_script.
  - intros steps idx He. unfold validateSteps in He.
    apply stepsLoop_Some in He as (pre & s & post & -> & Hpre & Hbody).
    apply stepBody_Some in Hbody as [[_ He]|[(Hs & Hc & He)|[(_ & _ & He)|Hvm]]];
      try discriminate.
    + injection He as ->. exists s. by rewrite list_lookup_middle.
    + apply volumeMountsLoop_Some in Hvm as (vm & _ & [[He _]|He]);
        discriminate.
Qed.

Lemma validateSteps_script_command_witness :
  validateSteps [stepBuild; stepScriptAndCommand] <> None /\
  validateSteps ([stepBuild] ++ stepScriptAndCommand :: [])
    = Some (scriptError 1) /\
  (exists s, [stepBuild; stepScriptAndCommand] !! 1 = Some s /\
             Step_Script s <> "" /\ Step_Command s <> []).
Proof.
  split; [|split].
  - apply (proj1 validateSteps_script_command
             [stepBuild; stepScriptAndCommand] 1 stepScriptAndCommand);
      solve [reflexivity | discriminate].
  - apply (proj1 (proj2 validateSteps_script_command)
             [stepBuild] stepScriptAndCommand []);
      solve [vm_compute; reflexivity | discriminate].
  - apply (proj2 (proj2 validateSteps_script_command)
             [stepBuild; stepScriptAndCommand] 1).
    vm_compute. reflexivity.
Defined.

(** ** Reserved mount paths *)

Lemma volumeMountsLoop_reserved idx vms vm :
  vm ∈ vms -> underReservedPath (VolumeMount_MountPath vm) ->
  volumeMountsLoop idx vms <> None.
Proof.
  intros Hin Hres. induction vms as [|vm' vms IH]; [inversion Hin|]. simpl.
  destruct (_ && _) eqn:Hres'; [done|].
  destruct (HasPrefix (VolumeMount_Name vm') _); [done|].
  apply elem_of_cons in Hin as [->|Hin]; [|by apply IH].
  apply underReservedPath_spec in Hres. congruence.
Qed.

Lemma stepBody_mounts_is_Some names idx s :
  volumeMountsLoop idx (Step_VolumeMounts s) <> None ->
  stepBody names idx s <> None.
Proof.
  intros H. unfold stepBody.
  destruct (negb _); [done|]. destruct (_ && _); [done|].
  by destruct (_ && _).
Qed.

(** C10.  The restriction on the reserved mount paths is decided on the
    text of the mount path as it is written, by two prefix tests: after
    mounts that are accepted, the loop over the mounts of a step reports
    the reserved-path error for a mount exactly when its mount path
    starts with ["/tekton/"] and does not start with ["/tekton/home"];
    the validation of the steps fails whenever a step has such a mount,
    and reports the error on ["volumeMounts.mountPath"] only for such a
    mount.  The path ["/tekton/homestead"] is accepted although it is not
    under the directory [/tekton/home], and the path ["/tekton/../other"]
    is rejected although it cleans to ["/other"], outside [/tekton/]. *)
Theorem reserved_mount_path_by_prefix :
  (forall idx pre vm post,
     volumeMountsLoop idx pre = None ->
     (volumeMountsLoop idx (pre ++ vm :: post)
        = Some (reservedPathError idx vm)
      <-> underReservedPath (VolumeMount_MountPath vm))) /\
  (forall steps idx s vm,
     steps !! idx = Some s -> vm ∈ Step_VolumeMounts s ->
     underReservedPath (VolumeMount_MountPath vm) ->
     validateSteps steps <> None) /\
  (forall steps e,
     validateSteps steps = Some e ->
     Paths e = ["volumeMounts.mountPath"] ->
     exists idx s vm,
       steps !! idx = Some s /\ vm ∈ Step_VolumeMounts s /\
       e = reservedPathError idx vm /\
       underReservedPath (VolumeMount_MountPath vm)) /\
  (validateSteps [stepWithMount (mountAt "data" "/tekton/homestead")] = None /\
   Clean "/tekton/homestead" = "/tekton/homestead" /\
   HasPrefix "/tekton/homestead" "/tekton/home/" = false) /\
  (validateSteps [stepWithMount (mountAt "data" "/tekton/../other")]
     = Some (reservedPathError 0 (mountAt "data" "/tekton/../other")) /\
   Clean "/tekton/../other" = "/other" /\
   HasPrefix "/other" "/tekton/" = false).
Proof.
  split; [|split; [|split; [|split]]].
  - intros idx pre vm post Hpre.
    rewrite (volumeMountsLoop_app _ _ _ Hpre). simpl.
    destruct (_ && _) eqn:Hres.
    + apply underReservedPath_spec in Hres. by split.
    + split; [|intros H; apply underReservedPath_spec in H; congruence].
      destruct (HasPrefix (VolumeMount_Name vm) _); [discriminate|].
      intros H.
      apply volumeMountsLoop_Some in H as (vm' & _ & [[He Hvm']|He]);
        [|discriminate].
      injection He as _ Hpath. by rewrite Hpath.
  - intros steps idx s vm Hidx Hin Hres.
    rewrite <- (take_drop_middle steps idx s Hidx).
    apply stepsLoop_fails_at. intros idx'.
    by apply stepBody_mounts_is_Some, (volumeMountsLoop_reserved _ _ vm).
  - intros steps e He Hpaths. unfold validateSteps in He.
    apply stepsLoop_Some in He as (pre & s & post & -> & Hpre & Hbody).
    apply stepBody_Some in Hbody
      as [[_ ->]|[(_ & _ & ->)|[(_ & _ & ->)|Hvm]]]; try discriminate.
    apply volumeMountsLoop_Some in Hvm as (vm & Hin & [[-> Hvm'] | -> ]);
      [|discriminate].
    exists (length pre), s, vm. by rewrite list_lookup_middle.
  - repeat split.
  - repeat split.
Qed.

Lemma reserved_mount_path_by_prefix_witness :
  (volumeMountsLoop 0 ([mountAt "cache" "/cache"]
                         ++ mountAt "bin" "/tekton/bin" :: [])
     = Some (reservedPathError 0 (mountAt "bin" "/tekton/bin"))
   <-> underReservedPath "/tekton/bin") /\
  validateSteps [stepBuild; stepWithMount (mountAt "bin" "/tekton/bin")]
    <> None /\
  (exists idx s vm,
     [stepWithMount (mountAt "bin" "/tekton/bin")] !! idx = Some s /\
     vm ∈ Step_VolumeMounts s /\
     reservedPathError 0 (mountAt "bin" "/tekton/bin")
       = reservedPathError idx vm /\
     underReservedPath (VolumeMount_MountPath vm)).
Proof.
  split; [|split].
  - apply (proj1 reserved_mount_path_by_prefix 0
             [mountAt "cache" "/cache"] (mountAt "bin" "/tekton/bin") []).
    vm_compute. reflexivity.
  - apply (proj1 (proj2 reserved_mount_path_by_prefix)
             [stepBuild; stepWithMount (mountAt "bin" "/tekton/bin")]
             1 (stepWithMount (mountAt "bin" "/tekton/bin"))
             (mountAt "bin" "/tekton/bin")); [reflexivity | left |].
    apply underReservedPath_spec. reflexivity.
  - apply (proj1 (proj2 (proj2 reserved_mount_path_by_prefix))
             [stepWithMount (mountAt "bin" "/tekton/bin")]
             (reservedPathError 0 (mountAt "bin" "/tekton/bin")));
      vm_compute; reflexivity.
Defined.

(** ** Types of the legacy input parameters *)

Lemma validType_spec (t : ParamType) :
  validType t = true <-> t ∈ AllParamTypes.
Proof.
  unfold validType. rewrite existsb_exists. split.
  - intros (allowed & Hin & Heq). apply String.eqb_eq in Heq as ->.
    by apply list_elem_of_In.
  - intros Hin. exists t. split; [by apply list_elem_of_In|].
    apply String.eqb_refl.
Qed.

(** C9, the claim as stated fails: the declaration has a default value
    whose tagged type (string) differs from its declared type (number);
    its declared type is not recognized, and the error is the invalid
    value of the type, not the mismatch of the default. *)
Lemma validateInputParameterTypes_unrecognized_first :
  (exists d, ParamSpec_Default paramNumberDefaultString = Some d /\
             ArrayOrString_Type d <> ParamSpec_Type paramNumberDefaultString) /\
  validateInputParameterTypes (legacyParams [paramNumberDefaultString])
    = Some (ErrInvalidValue "number" "taskspec.inputs.params.depth.type") /\
  (forall d, validateInputParameterTypes (legacyParams [paramNumberDefaultString])
             <> Some (defaultTypeError paramNumberDefaultString d)).
Proof.
  split; [|split].
  - eexists. split; [reflexivity | discriminate].
  - reflexivity.
  - intros d. discriminate.
Qed.

(** C9 (amended).  For every legacy input parameter declaration that
    comes after declarations that are accepted, validation fails with the
    invalid-value error on the type if the declared type is not a
    recognized parameter type, and fails with the type-mismatch error if
    the declared type is recognized and a default value is present whose
    tagged type differs from it.  Validation of the declarations passes
    exactly when every declaration has a recognized type and a matching
    or absent default. *)
Theorem validateInputParameterTypes_spec :
  (forall inputs pre p post,
     Inputs_Params inputs = pre ++ p :: post ->
     validateInputParameterTypes (legacyParams pre) = None ->
     ParamSpec_Type p ∉ AllParamTypes ->
     validateInputParameterTypes inputs = Some (invalidTypeError p)) /\
  (forall inputs pre p post d,
     Inputs_Params inputs = pre ++ p :: post ->
     validateInputParameterTypes (legacyParams pre) = None ->
     ParamSpec_Type p ∈ AllParamTypes ->
     ParamSpec_Default p = Some d ->
     ArrayOrString_Type d <> ParamSpec_Type p ->
     validateInputParameterTypes inputs = Some (defaultTypeError p d)) /\
  (forall inputs,
     validateInputParameterTypes inputs = None <->
     forall p, p ∈ Inputs_Params inputs ->
       ParamSpec_Type p ∈ AllParamTypes /\
       forall d, ParamSpec_Default p = Some d ->
                 ArrayOrString_Type d = ParamSpec_Type p).
Proof.
  split; [|split].
  - intros inputs pre p post Hparams Hpre Htype.
    unfold validateInputParameterTypes in *. simpl in Hpre.
    rewrite Hparams, forEach_app, Hpre. simpl.
    unfold paramBody. rewrite <- validType_spec in Htype.
    by destruct (validType (ParamSpec_Type p)).
  - intros inputs pre p post d Hparams Hpre Htype Hd Hne.
    unfold validateInputParameterTypes in *. simpl in Hpre.
    rewrite Hparams, forEach_app, Hpre. simpl.
    unfold paramBody. apply validType_spec in Htype. rewrite Htype, Hd. simpl.
    apply String.eqb_neq in Hne. by rewrite Hne.
  - intros inputs. unfold validateInputParameterTypes.
    rewrite forEach_None. apply forall_proper; intros p.
    apply forall_proper; intros Hin. unfold paramBody.
    rewrite <- validType_spec.
    destruct (validType (ParamSpec_Type p)); simpl.
    + destruct (ParamSpec_Default p) as [d|].
      * destruct (String.eqb_spec (ArrayOrString_Type d) (ParamSpec_Type p))
          as [Heq|Hne]; simpl.
        -- split; [|done]. intros _. split; [done|]. by intros d' [= <-].
        -- split; [done|]. intros [_ H]. by destruct Hne; apply H.
      * split; [|done]. intros _. split; [done|]. by intros d'.
    + split; [done|]. by intros [H _].
Qed.

Lemma validateInputParameterTypes_spec_witness :
  validateInputParameterTypes
    (legacyParams ([mkParam "revision" ParamTypeString]
                     ++ mkParam "depth" "number" :: []))
    = Some (invalidTypeError (mkParam "depth" "number")) /\
  validateInputParameterTypes
    (legacyParams ([mkParam "revision" ParamTypeString]
                     ++ paramArrayDefaultString :: []))
    = Some {| Message := MsgDefaultType "array" "string";
              Paths := ["taskspec.inputs.params.flags.type";
                        "taskspec.inputs.params.flags.default.type"];
              Details := "" |} /\
  (validateInputParameterTypes
     (legacyParams [mkParam "revision" ParamTypeString]) = None <->
   forall p, p ∈ [mkParam "revision" ParamTypeString] ->
     ParamSpec_Type p ∈ AllParamTypes /\
     forall d, ParamSpec_Default p = Some d ->
               ArrayOrString_Type d = ParamSpec_Type p).
Proof.
  split; [|split].
  - apply (proj1 validateInputParameterTypes_spec
             (legacyParams [mkParam "revision" ParamTypeString;
                            mkParam "depth" "number"])
             [mkParam "revision" ParamTypeString] (mkParam "depth" "number") []);
      [reflexivity | reflexivity |].
    unfold AllParamTypes. rewrite !elem_of_cons, elem_of_nil.
    intros [|[|[]]]; discriminate.
  - apply (proj1 (proj2 validateInputParameterTypes_spec)
             (legacyParams [mkParam "revision" ParamTypeString;
                            paramArrayDefaultString])
             [mkParam "revision" ParamTypeString] paramArrayDefaultString []
             {| ArrayOrString_Type := ParamTypeString;
                ArrayOrString_StringVal := "-v";
                ArrayOrString_ArrayVal := [] |});
      [reflexivity | reflexivity | | reflexivity | discriminate].
    unfold AllParamTypes. rewrite !elem_of_cons. right; left. reflexivity.
  - apply (proj2 (proj2 validateInputParameterTypes_spec)
             (legacyParams [mkParam "revision" ParamTypeString])).
Defined.

(** ** Workspaces *)

Section Workspaces.
Variable dflt : string -> string.

(** When the loop accepts the workspaces, their resolved paths are
    pairwise distinct and none of them is in the initial set. *)
Lemma workspacesLoop_None wsNames mountPaths ws :
  workspacesLoop dflt wsNames mountPaths ws = None ->
  NoDup (map (resolvedPath dflt) ws) /\
  forall w, w ∈ ws -> resolvedPath dflt w ∉ mountPaths.
Proof.
  revert wsNames mountPaths.
  induction ws as [|w ws IH]; intros wsNames mountPaths; simpl.
  - intros _. split; [constructor | intros w Hw; inversion Hw].
  - destruct (bool_decide (Workspace_Name w ∈ wsNames)); [done|].
    destruct (bool_decide_reflect
                (Clean (GetMountPath dflt w) ∈ mountPaths)) as [|Hnotin];
      [done|].
    intros Hrest. destruct (IH _ _ Hrest) as [Hnodup Hfresh]. split.
    + constructor; [|done].
      intros Hin. apply list_elem_of_fmap in Hin as (w' & Heq & Hw').
      apply (Hfresh w' Hw'). rewrite <- Heq.
      apply elem_of_union_l, elem_of_singleton. reflexivity.
    + intros w' Hw'. apply elem_of_cons in Hw' as [->|Hw']; [done|].
      intros Hin. apply (Hfresh w' Hw'). by apply elem_of_union_r.
Qed.

(** With pairwise distinct names, the error is on a mount path. *)
Lemma workspacesLoop_distinct_names wsNames mountPaths ws e :
  NoDup (map Workspace_Name ws) ->
  (forall w, w ∈ ws -> Workspace_Name w ∉ wsNames) ->
  workspacesLoop dflt wsNames mountPaths ws = Some e ->
  exists w, w ∈ ws /\ e = mountPathError (resolvedPath dflt w).
Proof.
  revert wsNames mountPaths.
  induction ws as [|w ws IH]; intros wsNames mountPaths Hnodup Hfresh; simpl;
    [done|].
  rewrite bool_decide_eq_false_2 by (apply Hfresh; left).
  destruct (bool_decide (Clean (GetMountPath dflt w) ∈ mountPaths)).
  { intros [= <-]. exists w. split; [left | done]. }
  intros Hrest.
  change (NoDup (Workspace_Name w :: map Workspace_Name ws)) in Hnodup.
  apply NoDup_cons in Hnodup as [Hw Hnodup].
  apply IH in Hrest as (w' & Hw' & He); [|done|].
  - exists w'. split; [by right | done].
  - intros w' Hw'. rewrite elem_of_union, elem_of_singleton.
    intros [Heq|Hin].
    + apply Hw. rewrite <- Heq.
      apply (list_elem_of_fmap_2 Workspace_Name), Hw'.
    + apply (Hfresh w'); [by right | done].
Qed.

(** Two declarations with the same resolved path, in terms of the list
    of the resolved paths. *)
Lemma collision_not_NoDup ws i j w1 w2 :
  i <> j -> ws !! i = Some w1 -> ws !! j = Some w2 ->
  resolvedPath dflt w1 = resolvedPath dflt w2 ->
  ~ NoDup (map (resolvedPath dflt) ws).
Proof.
  intros Hij H1 H2 Heq Hnodup. apply Hij.
  apply (NoDup_lookup _ i j (resolvedPath dflt w1) Hnodup).
  - by rewrite list_lookup_fmap, H1.
  - by rewrite list_lookup_fmap, H2, Heq.
Qed.
End Workspaces.

(** C4, the claim as stated fails: the two declarations are distinct and
    their resolved paths are both ["/data"]; they also share their name,
    which is checked first, and the error is the one on the workspace
    name, not the mount-path conflict. *)
Lemma validateDeclaredWorkspaces_same_name_first :
  wsSrc <> wsSrcSlash /\
  resolvedPath underWorkspace wsSrc = resolvedPath underWorkspace wsSrcSlash /\
  validateDeclaredWorkspaces underWorkspace [wsSrc; wsSrcSlash] [] None
    = Some (workspaceNameError "src") /\
  (forall mountPath,
     validateDeclaredWorkspaces underWorkspace [wsSrc; wsSrcSlash] [] None
       <> Some (mountPathError mountPath)).
Proof.
  split; [discriminate|]. split; [reflexivity|]. split; [reflexivity|].
  intros mountPath. vm_compute. discriminate.
Qed.

(** C4 (amended).  For every specification containing two distinct
    workspace declarations whose resolved (default-applied), path-cleaned
    mount paths are equal, validation of the workspaces fails, in every
    order of the declaration list; when the workspace names are pairwise
    distinct the error is the mount-path conflict, for the resolved path
    of one of the workspaces (a repeated workspace name is reported
    first, as an error on the name). *)
Theorem validateDeclaredWorkspaces_path_conflict
    (dflt : string -> string) (workspaces workspaces' : list WorkspaceDeclaration)
    (steps : list Step) (stepTemplate : option Container)
    (i j : nat) (w1 w2 : WorkspaceDeclaration) :
  i <> j ->
  workspaces !! i = Some w1 -> workspaces !! j = Some w2 ->
  Clean (GetMountPath dflt w1) = Clean (GetMountPath dflt w2) ->
  workspaces ≡ₚ workspaces' ->
  validateDeclaredWorkspaces dflt workspaces' steps stepTemplate <> None /\
  (NoDup (map Workspace_Name workspaces) ->
   exists w, w ∈ workspaces /\
     validateDeclaredWorkspaces dflt workspaces' steps stepTemplate
       = Some (mountPathError (Clean (GetMountPath dflt w)))).
Proof.
  intros Hij H1 H2 Heq Hperm.
  assert (Hfail :
    validateDeclaredWorkspaces dflt workspaces' steps stepTemplate <> None).
  { unfold validateDeclaredWorkspaces. intros Hnone.
    apply workspacesLoop_None in Hnone as [Hnodup _].
    apply (collision_not_NoDup dflt workspaces i j w1 w2); auto.
    by rewrite Hperm. }
  split; [done|]. intros Hnames.
  destruct (validateDeclaredWorkspaces dflt workspaces' steps stepTemplate)
    as [e|] eqn:He; [|done].
  unfold validateDeclaredWorkspaces in He.
  apply workspacesLoop_distinct_names in He as (w & Hw & ->).
  - exists w. split; [by rewrite Hperm | done].
  - by rewrite <- Hperm.
  - intros w _. apply not_elem_of_empty.
Qed.

Lemma validateDeclaredWorkspaces_path_conflict_witness :
  validateDeclaredWorkspaces underWorkspace [wsOut; wsLogs; wsSrc] [] None
    <> None /\
  (NoDup (map Workspace_Name [wsSrc; wsLogs; wsOut]) ->
   exists w, w ∈ [wsSrc; wsLogs; wsOut] /\
     validateDeclaredWorkspaces underWorkspace [wsOut; wsLogs; wsSrc] [] None
       = Some (mountPathError (Clean (GetMountPath underWorkspace w)))).
Proof.
  apply (validateDeclaredWorkspaces_path_conflict underWorkspace
           [wsSrc; wsLogs; wsOut] [wsOut; wsLogs; wsSrc] [] None
           0 2 wsSrc wsOut); [lia | reflexivity | reflexivity | reflexivity |].
  change [wsOut; wsLogs; wsSrc] with (reverse [wsSrc; wsLogs; wsOut]).
  symmetry. apply reverse_Permutation.
Defined.

(** ** Strings and placeholders *)

Lemma String_app_nil_l (s : string) : "" +:+ s = s.
Proof. reflexivity. Qed.

Lemma String_app_nil_r (s : string) : s +:+ "" = s.
Proof.
  induction s as [|a s IH]; [done|]. by rewrite String_app_cons, IH.
Qed.

Lemma String_app_assoc (a b c : string) : (a +:+ b) +:+ c = a +:+ (b +:+ c).
Proof.
  induction a as [|x a IH]; [done|]. by rewrite !String_app_cons, IH.
Qed.

Lemma String_length_app (a b : string) :
  String.length (a +:+ b) = String.length a + String.length b.
Proof.
  induction a as [|x a IH]; [done|]. rewrite String_app_cons. simpl.
  by rewrite IH.
Qed.

Lemma String_length_0 (s : string) : String.length s = 0 -> s = "".
Proof. by destruct s. Qed.

Lemma stripPrefix_Some (p s r : string) :
  stripPrefix p s = Some r <-> s = p +:+ r.
Proof.
  revert s. induction p as [|a p IH]; intros s; simpl.
  - rewrite String_app_nil_l. split; congruence.
  - rewrite String_app_cons. destruct s as [|b s]; [split; discriminate|].
    destruct (Ascii.eqb_spec a b) as [->|Hab].
    + rewrite IH. split; congruence.
    + split; [discriminate | congruence].
Qed.

Lemma stripPrefix_app (p r : string) : stripPrefix p (p +:+ r) = Some r.
Proof. by apply stripPrefix_Some. Qed.

Lemma spanName_spec (s n r : string) :
  spanName s = (n, r) ->
  s = n +:+ r /\ allNameChars n = true /\
  match r with
  | EmptyString => True
  | String c _ => isNameChar c = false
  end.
Proof.
  revert n r. induction s as [|c s IH]; intros n r; simpl.
  - intros [= <- <-]. done.
  - destruct (isNameChar c) eqn:Hc.
    + destruct (spanName s) as [n' r'] eqn:Hspan. intros [= <- <-].
      destruct (IH _ _ eq_refl) as (-> & Hn' & Hr').
      rewrite String_app_cons. simpl. by rewrite Hc.
    + intros [= <- <-]. by rewrite String_app_nil_l.
Qed.

Lemma spanName_app (n r : string) :
  allNameChars n = true ->
  match r with
  | EmptyString => True
  | String c _ => isNameChar c = false
  end ->
  spanName (n +:+ r) = (n, r).
Proof.
  intros Hn Hr. induction n as [|c n IH].
  - rewrite String_app_nil_l. destruct r as [|c r]; [done|]. simpl.
    by rewrite Hr.
  - rewrite String_app_cons. simpl in *.
    apply andb_prop in Hn as [Hc Hn]. by rewrite Hc, (IH Hn).
Qed.

Lemma matchName_spec (s n : string) :
  matchName s = Some n <->
  validName n = true /\ exists rest, s = n +:+ ")" +:+ rest.
Proof.
  unfold matchName. split.
  - destruct s as [|c s]; [done|].
    destruct (isNameStart c) eqn:Hc; [|done].
    destruct (spanName (String c s)) as [n' r] eqn:Hspan.
    destruct r as [|c' r]; [done|].
    destruct (Ascii.eqb_spec c' ")"%char) as [->|Hne].
    2:{ destruct c' as [[] [] [] [] [] [] [] []]; try done. }
    intros [= <-]. destruct (spanName_spec _ _ _ Hspan) as (Hs & Hn' & _).
    split; [|exists r; by rewrite Hs].
    destruct n' as [|c0 n'].
    + rewrite String_app_nil_l in Hs. injection Hs as -> _.
      by vm_compute in Hc.
    + rewrite String_app_cons in Hs. injection Hs as <- _.
      simpl in *. by rewrite Hc, Hn'.
  - intros [Hn [rest ->]]. destruct n as [|c n]; [done|].
    simpl in Hn. apply andb_prop in Hn as [Hc Hn].
    rewrite String_app_cons. rewrite Hc. rewrite <- String_app_cons.
    rewrite spanName_app; [done | done | by vm_compute].
Qed.

Lemma option_bind_Some {A B} (x : A) (f : A -> option B) :
  (Some x ≫= f) = f x.
Proof. reflexivity. Qed.

#[local] Arguments stripPrefix : simpl never.
#[local] Arguments matchName : simpl never.

Lemma placeholderText_length (scope n : string) :
  String.length (placeholderText scope n)
  = 2 + String.length scope + 1 + String.length n + 1.
Proof.
  unfold placeholderText. rewrite !String_length_app. simpl. lia.
Qed.

Lemma matchScope_spec (scope s n : string) (len : nat) :
  matchScope scope s = Some (n, len) <->
  validName n = true /\ len = String.length (placeholderText scope n) /\
  exists rest, s = placeholderText scope n +:+ rest.
Proof.
  unfold matchScope. rewrite placeholderText_length. split.
  - destruct (stripPrefix "$(" s) as [s1|] eqn:H1; [|done]. simpl.
    destruct (stripPrefix scope s1) as [s2|] eqn:H2; [|done]. simpl.
    destruct (stripPrefix "." s2) as [s3|] eqn:H3; [|done]. simpl.
    destruct (matchName s3) as [n'|] eqn:H4; [|done]. simpl.
    intros [= <- <-].
    apply stripPrefix_Some in H1, H2, H3.
    apply matchName_spec in H4 as [Hn [rest H4]].
    split; [done|]. split; [done|]. exists rest.
    rewrite H1, H2, H3, H4. unfold placeholderText.
    by rewrite !String_app_assoc.
  - intros (Hn & -> & rest & ->). unfold placeholderText.
    rewrite !String_app_assoc.
    assert (Hm : matchName (n +:+ ")" +:+ rest) = Some n).
    { apply matchName_spec. split; [done | by exists rest]. }
    rewrite stripPrefix_app, option_bind_Some.
    rewrite stripPrefix_app, option_bind_Some.
    rewrite stripPrefix_app, option_bind_Some.
    by rewrite Hm.
Qed.

Lemma matchPlaceholder_Some (scopes : list string) (s n : string) (len : nat) :
  matchPlaceholder scopes s = Some (n, len) ->
  exists scope, scope ∈ scopes /\ matchScope scope s = Some (n, len).
Proof.
  induction scopes as [|scope scopes IH]; simpl; [done|].
  destruct (matchScope scope s) as [r|] eqn:Hm.
  - intros [= ->]. exists scope. split; [left | done].
  - intros H. destruct (IH H) as (scope' & Hin & Hm').
    exists scope'. split; [by right | done].
Qed.

(** ** The reference scanner *)

#[local] Arguments matchPlaceholder : simpl never.

(** Every match of the scanner is an occurrence of a placeholder in the
    scanned text. *)
Lemma scanFrom_sound scopes total pos skip s m :
  m ∈ scanFrom scopes total pos skip s ->
  exists pre scope rest,
    s = pre +:+ placeholderText scope (Match_name m) +:+ rest /\
    scope ∈ scopes /\ validName (Match_name m) = true /\
    Match_start m = pos + String.length pre /\
    Match_end m
      = Match_start m + String.length (placeholderText scope (Match_name m)) /\
    Match_isWholeField m = (Match_start m =? 0) && (Match_end m =? total).
Proof.
  revert pos skip. induction s as [|c s IH]; intros pos skip; simpl.
  - intros H. inversion H.
  - assert (Hshift : forall skip',
      m ∈ scanFrom scopes total (S pos) skip' s ->
      exists pre scope rest,
        String c s = pre +:+ placeholderText scope (Match_name m) +:+ rest /\
        scope ∈ scopes /\ validName (Match_name m) = true /\
        Match_start m = pos + String.length pre /\
        Match_end m
          = Match_start m
            + String.length (placeholderText scope (Match_name m)) /\
        Match_isWholeField m = (Match_start m =? 0) && (Match_end m =? total)).
    { intros skip' Hm.
      destruct (IH _ _ Hm) as (pre & scope & rest & -> & Hin & Hn & Hs & He & Hw).
      exists (String c pre), scope, rest. rewrite String_app_cons. simpl.
      repeat split; auto. lia. }
    destruct skip as [|skip']; [|apply Hshift].
    destruct (matchPlaceholder scopes (String c s)) as [[n len]|] eqn:Hmatch;
      [|apply Hshift].
    intros Hm. apply elem_of_cons in Hm as [->|Hm]; [|by eapply Hshift].
    apply matchPlaceholder_Some in Hmatch as (scope & Hin & Hmatch).
    apply matchScope_spec in Hmatch as (Hn & -> & rest & Hs).
    exists "", scope, rest. rewrite String_app_nil_l. simpl.
    rewrite Nat.add_0_r. repeat split; auto.
Qed.

Lemma scanFrom_skip_all scopes total pos skip s :
  String.length s <= skip -> scanFrom scopes total pos skip s = [].
Proof.
  revert pos skip. induction s as [|c s IH]; intros pos skip; simpl; [done|].
  destruct skip as [|skip']; [lia|]. intros H. apply IH. lia.
Qed.

(** A match that is the whole field is the only match. *)
Lemma scan_whole_unique scopes value m :
  m ∈ scan scopes value -> Match_isWholeField m = true ->
  scan scopes value = [m].
Proof.
  unfold scan. destruct value as [|c s]; simpl; [intros H; inversion H|].
  assert (Hlater : forall skip,
    m ∈ scanFrom scopes (S (String.length s)) 1 skip s ->
    Match_isWholeField m = true -> False).
  { intros skip Hm Hw.
    apply scanFrom_sound in Hm as (pre & scope & rest & _ & _ & _ & Hs & _ & Hw').
    rewrite Hw' in Hw. apply andb_prop in Hw as [Hw _].
    apply Nat.eqb_eq in Hw. lia. }
  destruct (matchPlaceholder scopes (String c s)) as [[n len]|] eqn:Hmatch.
  - intros Hm Hw. apply elem_of_cons in Hm as [->|Hm];
      [|by destruct (Hlater _ Hm Hw)].
    simpl in Hw. apply Nat.eqb_eq in Hw. subst len.
    rewrite scanFrom_skip_all; [done | simpl; lia].
  - intros Hm Hw. by destruct (Hlater _ Hm Hw).
Qed.

(** The whole-field match is the field that is exactly a placeholder. *)
Lemma scan_whole_text scopes value m :
  m ∈ scan scopes value -> Match_isWholeField m = true ->
  exists scope, scope ∈ scopes /\
                value = placeholderText scope (Match_name m).
Proof.
  intros Hm Hw. unfold scan in Hm.
  apply scanFrom_sound in Hm
    as (pre & scope & rest & Hv & Hin & _ & Hs & He & Hw').
  rewrite Hw' in Hw. apply andb_prop in Hw as [Hw0 Hw1].
  apply Nat.eqb_eq in Hw0, Hw1.
  exists scope. split; [done|].
  assert (Hpre : String.length pre = 0) by lia.
  destruct pre; [|done]. rewrite String_app_nil_l in Hv.
  assert (Hrest : String.length rest = 0).
  { rewrite Hv, String_length_app in Hw1. lia. }
  destruct rest; [|done]. by rewrite String_app_nil_r in Hv.
Qed.

(** *** Placeholders embedded in a text *)

Lemma noDollar_app (a b : string) :
  noDollar (a +:+ b) = noDollar a && noDollar b.
Proof.
  induction a as [|c a IH]; [done|]. rewrite String_app_cons. simpl.
  by rewrite IH, andb_assoc.
Qed.

Lemma allNameChars_noDollar (n : string) :
  allNameChars n = true -> noDollar n = true.
Proof.
  induction n as [|c n IH]; simpl; [done|].
  intros [Hc Hn]%andb_prop. rewrite (IH Hn), andb_true_r.
  destruct (Ascii.eqb_spec c "$"%char) as [->|]; [by vm_compute in Hc | done].
Qed.

Lemma validName_allNameChars (n : string) :
  validName n = true -> allNameChars n = true.
Proof. destruct n; simpl; [done|]. by intros [_ H]%andb_prop. Qed.

(** A text without dollar sign that is a prefix of [pre $ ...] ends
    within [pre]. *)
Lemma prefix_before_dollar (body rest pre tail : string) :
  body +:+ rest = pre +:+ String "$" tail ->
  noDollar body = true ->
  String.length body <= String.length pre.
Proof.
  revert pre. induction body as [|b body IH]; intros pre; simpl; [lia|].
  rewrite String_app_cons. intros Heq [Hb Hbody]%andb_prop.
  destruct pre as [|a pre].
  - rewrite String_app_nil_l in Heq. injection Heq as -> _. done.
  - rewrite String_app_cons in Heq. injection Heq as _ Heq.
    simpl. apply le_n_S. by apply IH.
Qed.

(** A placeholder that begins inside [pre] ends inside [pre]. *)
Lemma matchPlaceholder_before_dollar scopes c pre tail n len :
  Forall (fun scope => noDollar scope = true) scopes ->
  matchPlaceholder scopes (String c (pre +:+ String "$" tail)) = Some (n, len) ->
  len - 1 <= String.length pre.
Proof.
  intros Hscopes Hmatch.
  apply matchPlaceholder_Some in Hmatch as (scope & Hin & Hmatch).
  apply matchScope_spec in Hmatch as (Hn & -> & rest & Hs).
  rewrite Forall_forall in Hscopes. specialize (Hscopes _ Hin).
  set (body := "(" +:+ scope +:+ "." +:+ n +:+ ")").
  assert (Hph : placeholderText scope n = String "$" body) by reflexivity.
  rewrite Hph in *. rewrite String_app_cons in Hs. injection Hs as _ Hs.
  replace (String.length (String "$" body) - 1) with (String.length body)
    by (simpl; lia).
  apply (prefix_before_dollar body rest pre tail); [done|].
  unfold body. rewrite !noDollar_app, Hscopes.
  by rewrite (allNameChars_noDollar n (validName_allNameChars n Hn)).
Qed.

(** The scan of [pre $ ...] reaches the dollar sign with nothing to skip. *)
Lemma scanFrom_prefix scopes total pos skip pre tail :
  Forall (fun scope => noDollar scope = true) scopes ->
  skip <= String.length pre ->
  exists ms,
    scanFrom scopes total pos skip (pre +:+ String "$" tail)
    = ms ++ scanFrom scopes total (pos + String.length pre) 0 (String "$" tail).
Proof.
  intros Hscopes. revert pos skip.
  induction pre as [|c pre IH]; intros pos skip Hskip.
  - exists []. simpl in Hskip. assert (skip = 0) as -> by lia.
    rewrite String_app_nil_l. simpl. by rewrite Nat.add_0_r.
  - rewrite String_app_cons.
    replace (pos + String.length (String c pre))
      with (S pos + String.length pre) by (simpl; lia).
    simpl in Hskip. destruct skip as [|skip'].
    + simpl scanFrom.
      destruct (matchPlaceholder scopes _) as [[n len]|] eqn:Hmatch.
      * apply matchPlaceholder_before_dollar in Hmatch; [|done].
        destruct (IH (S pos) (len - 1) Hmatch) as [ms Hms].
        eexists (_ :: ms). by rewrite Hms.
      * apply IH. lia.
    + simpl scanFrom. apply IH. lia.
Qed.

Lemma matchPlaceholder_scopesOf prefix scope n rest :
  scope ∈ scopesOf prefix -> validName n = true ->
  matchPlaceholder (scopesOf prefix) (placeholderText scope n +:+ rest)
  = Some (n, String.length (placeholderText scope n)).
Proof.
  intros Hin Hn. unfold scopesOf in *.
  apply elem_of_cons in Hin as [->|Hin].
  - unfold matchPlaceholder.
    assert (H : matchScope ("inputs." +:+ prefix)
                  (placeholderText ("inputs." +:+ prefix) n +:+ rest)
                = Some (n, String.length
                             (placeholderText ("inputs." +:+ prefix) n))).
    { apply matchScope_spec. repeat split; [done|]. by exists rest. }
    by rewrite H.
  - apply list_elem_of_singleton in Hin as ->.
    unfold matchPlaceholder.
    destruct (matchScope ("inputs." +:+ prefix) _) as [[n' len']|] eqn:Hin.
    + apply matchScope_spec in Hin as (_ & _ & rest' & Heq).
      discriminate Heq.
    + assert (H : matchScope ("outputs." +:+ prefix)
                    (placeholderText ("outputs." +:+ prefix) n +:+ rest)
                  = Some (n, String.length
                               (placeholderText ("outputs." +:+ prefix) n))).
      { apply matchScope_spec. repeat split; [done|]. by exists rest. }
      by rewrite H.
Qed.

Lemma noDollar_scopesOf prefix :
  noDollar prefix = true ->
  Forall (fun scope => noDollar scope = true) (scopesOf prefix).
Proof.
  intros H. unfold scopesOf.
  repeat constructor; by rewrite noDollar_app, H.
Qed.

(** A placeholder in a text is found by the scanner, at its place. *)
Lemma scan_embedded prefix pre scope n post :
  noDollar prefix = true ->
  scope ∈ scopesOf prefix -> validName n = true ->
  exists m,
    m ∈ scan (scopesOf prefix) (pre +:+ placeholderText scope n +:+ post) /\
    Match_name m = n /\
    (Match_isWholeField m = true <-> pre = "" /\ post = "").
Proof.
  intros Hprefix Hin Hn. unfold scan.
  set (total := String.length (pre +:+ placeholderText scope n +:+ post)).
  set (body := "(" +:+ scope +:+ "." +:+ n +:+ ")").
  assert (Hph : placeholderText scope n +:+ post = String "$" (body +:+ post))
    by reflexivity.
  destruct (scanFrom_prefix (scopesOf prefix) total 0 0 pre (body +:+ post))
    as [ms Hms]; [by apply noDollar_scopesOf | lia |].
  rewrite Hph, Hms. simpl scanFrom. rewrite <- Hph.
  rewrite (matchPlaceholder_scopesOf prefix scope n post Hin Hn).
  eexists. split; [apply elem_of_app; right; left|].
  split; [done|]. cbn [Match_isWholeField].
  unfold total. rewrite !String_length_app.
  remember (String.length (placeholderText scope n)) as len.
  split.
  - intros [H0 H1]%andb_prop. apply Nat.eqb_eq in H0, H1.
    split; apply String_length_0; lia.
  - intros [-> ->]. simpl. apply Nat.eqb_eq. lia.
Qed.

(** The names that the scanner reports are the names of the placeholders
    in the text. *)
Lemma scan_references prefix value q :
  noDollar prefix = true ->
  (exists m, m ∈ scan (scopesOf prefix) value /\ Match_name m = q) <->
  references prefix value q.
Proof.
  intros Hprefix. unfold references. split.
  - intros (m & Hm & <-). unfold scan in Hm.
    apply scanFrom_sound in Hm as (pre & scope & rest & Hv & Hin & Hn & _).
    by exists pre, scope, rest.
  - intros (pre & scope & post & -> & Hin & Hn).
    destruct (scan_embedded prefix pre scope q post Hprefix Hin Hn)
      as (m & Hm & Hname & _).
    by exists m.
Qed.

(** The scan of a field that is exactly a placeholder. *)
Lemma scan_wholeField prefix value q :
  noDollar prefix = true ->
  wholeFieldReference prefix value q ->
  exists m, scan (scopesOf prefix) value = [m] /\
            Match_name m = q /\ Match_isWholeField m = true.
Proof.
  intros Hprefix (scope & -> & Hin & Hn).
  destruct (scan_embedded prefix "" scope q "" Hprefix Hin Hn)
    as (m & Hm & Hname & Hw).
  rewrite String_app_nil_l, String_app_nil_r in Hm.
  assert (Hwhole : Match_isWholeField m = true) by by apply Hw.
  exists m. split; [by apply scan_whole_unique | done].
Qed.

Lemma wholeFieldReference_references prefix value q :
  wholeFieldReference prefix value q -> references prefix value q.
Proof.
  intros (scope & -> & Hin & Hn). exists "", scope, "".
  by rewrite String_app_nil_l, String_app_nil_r.
Qed.

(** When a match is the whole field, the field is exactly its
    placeholder. *)
Lemma scan_whole_wholeField prefix value m :
  m ∈ scan (scopesOf prefix) value -> Match_isWholeField m = true ->
  wholeFieldReference prefix value (Match_name m).
Proof.
  intros Hm Hw. destruct (scan_whole_text _ _ _ Hm Hw) as (scope & Hin & ->).
  exists scope. repeat split; [done|].
  unfold scan in Hm. by apply scanFrom_sound in Hm as (_ & _ & _ & _ & _ & Hn & _).
Qed.

(** ** The three checks on a field *)

Lemma existsb_elem_of {A} (f : A -> bool) (l : list A) :
  existsb f l = true <-> exists x, x ∈ l /\ f x = true.
Proof.
  rewrite existsb_exists. split; intros (x & Hx & Hf); exists x;
    (split; [by apply list_elem_of_In | done]).
Qed.

Lemma existsb_false_elem_of {A} (f : A -> bool) (l : list A) :
  existsb f l = false <-> forall x, x ∈ l -> f x = false.
Proof.
  split.
  - intros H x Hx. destruct (f x) eqn:Hf; [|done].
    assert (existsb f l = true) by (apply existsb_elem_of; eauto).
    congruence.
  - intros H. destruct (existsb f l) eqn:He; [|done].
    apply existsb_elem_of in He as (x & Hx & Hf). rewrite (H x Hx) in Hf. done.
Qed.

Section Checks.
Variable prefix : string.
Hypothesis prefix_noDollar : noDollar prefix = true.
Variables (name value : string) (vars : gset string).

(** [validateTaskVariable]: every reference of the field is declared,
    or the error is the unresolved reference on the field. *)
Lemma validateTaskVariable_cases :
  (validateTaskVariable name value prefix vars = None /\
   forall q, references prefix value q -> q ∈ vars) \/
  (validateTaskVariable name value prefix vars
     = Some (unresolvedError name value) /\
   exists q, references prefix value q /\ q ∉ vars).
Proof.
  unfold validateTaskVariable, ValidateVariable.
  destruct (existsb _ _) eqn:Hex.
  - right. split; [done|].
    apply existsb_elem_of in Hex as (m & Hm & Hvar).
    exists (Match_name m). split.
    + apply scan_references; [done|]. by exists m.
    + apply negb_true_iff in Hvar. by apply bool_decide_eq_false in Hvar.
  - left. split; [done|]. intros q Hq.
    apply scan_references in Hq as (m & Hm & <-); [|done].
    rewrite existsb_false_elem_of in Hex. specialize (Hex m Hm).
    apply negb_false_iff in Hex. by apply bool_decide_eq_true in Hex.
Qed.

(** [validateTaskNoArrayReferenced]: no reference of the field names an
    array, or the error is the prohibited reference on the field. *)
Lemma validateTaskNoArrayReferenced_cases :
  (validateTaskNoArrayReferenced name value prefix vars = None /\
   forall q, references prefix value q -> q ∉ vars) \/
  (validateTaskNoArrayReferenced name value prefix vars
     = Some (prohibitedError name value) /\
   exists q, references prefix value q /\ q ∈ vars).
Proof.
  unfold validateTaskNoArrayReferenced, ValidateVariableProhibited.
  destruct (existsb _ _) eqn:Hex.
  - right. split; [done|].
    apply existsb_elem_of in Hex as (m & Hm & Hvar).
    exists (Match_name m). split.
    + apply scan_references; [done|]. by exists m.
    + by apply bool_decide_eq_true in Hvar.
  - left. split; [done|]. intros q Hq.
    apply scan_references in Hq as (m & Hm & <-); [|done].
    rewrite existsb_false_elem_of in Hex. specialize (Hex m Hm).
    by apply bool_decide_eq_false in Hex.
Qed.

(** [validateTaskArraysIsolated]: every reference of the field that
    names an array is the whole field, or the error is the reference
    that is not isolated. *)
Lemma validateTaskArraysIsolated_cases :
  (validateTaskArraysIsolated name value prefix vars = None /\
   forall q, references prefix value q -> q ∈ vars ->
             wholeFieldReference prefix value q) \/
  (validateTaskArraysIsolated name value prefix vars
     = Some (notIsolatedError name value) /\
   exists q, references prefix value q /\ q ∈ vars /\
             ~ wholeFieldReference prefix value q).
Proof.
  unfold validateTaskArraysIsolated, ValidateVariableIsolated.
  destruct (existsb _ _) eqn:Hex.
  - right. split; [done|].
    apply existsb_elem_of in Hex as (m & Hm & Hvar).
    apply andb_prop in Hvar as [Hvar Hw].
    apply bool_decide_eq_true in Hvar. apply negb_true_iff in Hw.
    exists (Match_name m). split; [|split; [done|]].
    + apply scan_references; [done|]. by exists m.
    + intros Hwhole.
      destruct (scan_wholeField _ _ _ prefix_noDollar Hwhole)
        as (m0 & Hscan & _ & Hw0).
      rewrite Hscan in Hm. apply list_elem_of_singleton in Hm as ->.
      congruence.
  - left. split; [done|]. intros q Hq Hvar.
    apply scan_references in Hq as (m & Hm & <-); [|done].
    rewrite existsb_false_elem_of in Hex. specialize (Hex m Hm).
    rewrite (bool_decide_eq_true_2 _ Hvar) in Hex. simpl in Hex.
    apply negb_false_iff in Hex. by apply scan_whole_wholeField.
Qed.
End Checks.

(** ** The fields of the steps *)

Lemma orElse_assoc (a b c : option FieldError) :
  ((a ;;; b) ;;; c) = (a ;;; b ;;; c).
Proof. by destruct a. Qed.

Lemma orElse_congr (a a' b b' : option FieldError) :
  a = a' -> b = b' -> (a ;;; b) = (a' ;;; b').
Proof. by intros -> ->. Qed.

Lemma orElse_None_r (a : option FieldError) : (a ;;; None) = a.
Proof. by destruct a. Qed.

Lemma forEach_ext {A} (f g : A -> option FieldError) (l : list A) :
  (forall x, f x = g x) -> forEach f l = forEach g l.
Proof. intros H. induction l as [|x l IH]; simpl; [done|]. by rewrite H, IH. Qed.

Lemma forEach_map {A B} (f : B -> option FieldError) (g : A -> B) (l : list A) :
  forEach f (map g l) = forEach (fun x => f (g x)) l.
Proof. induction l as [|x l IH]; simpl; [done|]. by rewrite IH. Qed.

Lemma forEach_flat_map {A B} (f : B -> option FieldError) (g : A -> list B)
    (l : list A) :
  forEach f (flat_map g l) = forEach (fun x => forEach f (g x)) l.
Proof.
  induction l as [|x l IH]; simpl; [done|]. by rewrite forEach_app, IH.
Qed.

Lemma forIndexed_enumFrom {A} (body : nat -> A -> option FieldError) i
    (l : list A) :
  forIndexed body i l = forEach (fun '(k, x) => body k x) (enumFrom i l).
Proof.
  revert i. induction l as [|x l IH]; intros i; simpl; [done|].
  by rewrite IH.
Qed.

Lemma stepVariables_fields prefix vars step :
  stepVariables prefix vars step
  = forEach (variableCheck prefix vars) (stepFields step).
Proof.
  unfold stepVariables, stepFields.
  rewrite !forEach_app, !forEach_map, forEach_flat_map, !forIndexed_enumFrom.
  simpl. rewrite orElse_None_r, !orElse_assoc.
  do 3 (apply orElse_congr; [reflexivity|]).
  apply orElse_congr; [apply forEach_ext; by intros [i cmd]|].
  apply orElse_congr; [apply forEach_ext; by intros [i arg]|].
  apply orElse_congr; [by apply forEach_ext|].
  apply forEach_ext. intros [i v]. simpl.
  unfold variableCheck. simpl. by rewrite orElse_None_r.
Qed.

Lemma stepArrayUsage_fields prefix vars step :
  stepArrayUsage prefix vars step
  = forEach (arrayCheck prefix vars) (stepFields step).
Proof.
  unfold stepArrayUsage, stepFields.
  rewrite !forEach_app, !forEach_map, forEach_flat_map, !forIndexed_enumFrom.
  simpl. rewrite orElse_None_r, !orElse_assoc.
  do 3 (apply orElse_congr; [reflexivity|]).
  apply orElse_congr; [apply forEach_ext; by intros [i cmd]|].
  apply orElse_congr; [apply forEach_ext; by intros [i arg]|].
  apply orElse_congr; [by apply forEach_ext|].
  apply forEach_ext. intros [i v]. simpl. by rewrite orElse_None_r.
Qed.

Lemma validateVariables_fields steps prefix vars :
  validateVariables steps prefix vars
  = forEach (variableCheck prefix vars) (flat_map stepFields steps).
Proof.
  unfold validateVariables. rewrite forEach_flat_map.
  apply forEach_ext. intros step. apply stepVariables_fields.
Qed.

Lemma validateArrayUsage_fields steps prefix vars :
  validateArrayUsage steps prefix vars
  = forEach (arrayCheck prefix vars) (flat_map stepFields steps).
Proof.
  unfold validateArrayUsage. rewrite forEach_flat_map.
  apply forEach_ext. intros step. apply stepArrayUsage_fields.
Qed.

(** ** The namespace of the parameters *)

Lemma elem_of_addParameterNames q names params :
  q ∈ addParameterNames names params <->
  q ∈ names \/ q ∈ map ParamSpec_Name params.
Proof.
  unfold addParameterNames. revert names.
  induction params as [|p params IH]; intros names; simpl.
  - split; [by left|]. intros [|H]; [done | inversion H].
  - rewrite IH, elem_of_union, elem_of_singleton, elem_of_cons. tauto.
Qed.

Lemma elem_of_addArrayParameterNames q names params :
  q ∈ addArrayParameterNames names params <->
  q ∈ names \/
  exists p, p ∈ params /\ ParamSpec_Name p = q /\
            ParamSpec_Type p = ParamTypeArray.
Proof.
  unfold addArrayParameterNames. revert names.
  induction params as [|p params IH]; intros names; simpl.
  - split; [by left|]. intros [|(p & H & _)]; [done | inversion H].
  - rewrite IH. destruct (String.eqb_spec (ParamSpec_Type p) ParamTypeArray)
      as [Harr|Hnot].
    + rewrite elem_of_union, elem_of_singleton. split.
      * intros [[->|H]|(p' & Hin & Hp')]; [right | by left | right].
        -- exists p. split; [left | done].
        -- exists p'. split; [by right | done].
      * intros [H|(p' & Hin & Hname & Htype)]; [by left; right|].
        apply elem_of_cons in Hin as [->|Hin]; [by left; left|].
        right. by exists p'.
    + split.
      * intros [H|(p' & Hin & Hp')]; [by left | right].
        exists p'. split; [by right | done].
      * intros [H|(p' & Hin & Hname & Htype)]; [by left|].
        apply elem_of_cons in Hin as [->|Hin]; [done|].
        right. by exists p'.
Qed.

Lemma elem_of_parameterNames inputs params q :
  q ∈ parameterNames inputs params <-> declaredParam inputs params q.
Proof.
  unfold parameterNames, declaredParam.
  rewrite !elem_of_addParameterNames, elem_of_empty. tauto.
Qed.

Lemma elem_of_arrayParameterNames inputs params q :
  q ∈ arrayParameterNames inputs params <-> declaredArray inputs params q.
Proof.
  unfold arrayParameterNames, declaredArray.
  rewrite !elem_of_addArrayParameterNames, elem_of_empty. split.
  - intros [[[]|(p & Hin & Hp)]|(p & Hin & Hp)]; exists p; tauto.
  - intros (p & [Hin|Hin] & Hp); [left; right | right]; by exists p.
Qed.

Lemma validateInputParameterVariables_eq steps inputs params :
  validateInputParameterVariables steps inputs params
  = (validateVariables steps "params" (parameterNames inputs params) ;;;
     validateArrayUsage steps "params" (arrayParameterNames inputs params)).
Proof. reflexivity. Qed.

Lemma params_noDollar : noDollar "params" = true.
Proof. reflexivity. Qed.

(** ** Unresolved references *)

(** C3.  In every field that the validator scans, a reference to
    parameter [q] (a placeholder of [q] in the scope [inputs.params] or
    [outputs.params], which is how the pattern of the validator spells a
    reference to a parameter) resolves exactly when [q] is declared in
    the new-style list or in the legacy list: the namespace is the union
    of the names of the two lists, the check of a field passes exactly
    when every reference of the field is declared, and the check of the
    steps passes exactly when every reference of every scanned field is.
    If some scanned field has a reference that is declared in neither
    list, validation fails with the unresolved-reference error on the
    path of a scanned field that has such a reference. *)
Theorem validateInputParameterVariables_resolution
    (steps : list Step) (inputs : option Inputs) (params : list ParamSpec) :
  (forall q, q ∈ parameterNames inputs params <->
             q ∈ map ParamSpec_Name params \/
             q ∈ map ParamSpec_Name (inputsParams inputs)) /\
  (forall name value,
     validateTaskVariable name value "params" (parameterNames inputs params)
       = None <->
     forall q, references "params" value q -> declaredParam inputs params q) /\
  (validateVariables steps "params" (parameterNames inputs params) = None <->
   forall cls name value q,
     (cls, name, value) ∈ flat_map stepFields steps ->
     references "params" value q -> declaredParam inputs params q) /\
  (forall cls name value q,
     (cls, name, value) ∈ flat_map stepFields steps ->
     references "params" value q -> ~ declaredParam inputs params q ->
     exists cls' name' value' q',
       (cls', name', value') ∈ flat_map stepFields steps /\
       references "params" value' q' /\ ~ declaredParam inputs params q' /\
       validateInputParameterVariables steps inputs params
         = Some {| Message := MsgNonExistentVariable value' "step" name';
                   Paths := ["taskspec.steps." +:+ name'];
                   Details := "" |}).
Proof.
  assert (Hfield : forall name value,
    validateTaskVariable name value "params" (parameterNames inputs params)
      = None <->
    forall q, references "params" value q -> declaredParam inputs params q).
  { intros name value.
    destruct (validateTaskVariable_cases "params" params_noDollar name value
                (parameterNames inputs params)) as [[-> Hall]|[-> (q & Hq & Hnot)]].
    - split; [|done]. intros _ q Hq. by apply elem_of_parameterNames, Hall.
    - split; [done|]. intros Hall. destruct Hnot.
      by apply elem_of_parameterNames, Hall. }
  assert (Hsteps :
    validateVariables steps "params" (parameterNames inputs params) = None <->
    forall cls name value q,
      (cls, name, value) ∈ flat_map stepFields steps ->
      references "params" value q -> declaredParam inputs params q).
  { rewrite validateVariables_fields, forEach_None. split.
    - intros H cls name value q Hin. by apply (Hfield name value), (H _ Hin).
    - intros H [[cls name] value] Hin. apply Hfield. intros q. by eapply H. }
  split; [apply elem_of_parameterNames|]. split; [done|]. split; [done|].
  intros cls name value q Hin Hq Hnot.
  rewrite validateInputParameterVariables_eq.
  destruct (validateVariables steps "params" (parameterNames inputs params))
    as [e|] eqn:He.
  - rewrite validateVariables_fields in He.
    apply forEach_Some in He
      as (pre & [[cls' name'] value'] & post & Hfields & _ & He).
    unfold variableCheck in He. simpl in He.
    destruct (validateTaskVariable_cases "params" params_noDollar name' value'
                (parameterNames inputs params))
      as [[Hnone _]|[Hsome (q' & Hq' & Hnot')]]; [congruence|].
    exists cls', name', value', q'. split; [|split; [done|]].
    + rewrite Hfields. apply elem_of_app. right. left.
    + split; [by rewrite <- elem_of_parameterNames|].
      simpl. by rewrite <- He, Hsome.
  - destruct Hnot. by apply (proj1 Hsteps eq_refl cls name value q).
Qed.

Lemma validateInputParameterVariables_resolution_witness :
  exists cls' name' value' q',
    (cls', name', value')
      ∈ flat_map stepFields [stepEcho "rev=$(inputs.params.revision)"] /\
    references "params" value' q' /\
    ~ declaredParam (legacyOnly [mkParam "flags" ParamTypeArray])
                    [mkParam "url" ParamTypeString] q' /\
    validateInputParameterVariables [stepEcho "rev=$(inputs.params.revision)"]
      (legacyOnly [mkParam "flags" ParamTypeArray])
      [mkParam "url" ParamTypeString]
      = Some {| Message := MsgNonExistentVariable value' "step" name';
                Paths := ["taskspec.steps." +:+ name'];
                Details := "" |}.
Proof.
  apply (proj2 (proj2 (proj2
           (validateInputParameterVariables_resolution
              [stepEcho "rev=$(inputs.params.revision)"]
              (legacyOnly [mkParam "flags" ParamTypeArray])
              [mkParam "url" ParamTypeString])))
           IsolatedArrayField "arg[0]" "rev=$(inputs.params.revision)"
           "revision").
  - vm_compute. do 4 right. left.
  - exists "rev=", "inputs.params", "". repeat split. left.
  - unfold declaredParam. simpl.
    rewrite !list_elem_of_singleton. intros [|]; discriminate.
Defined.

(** ** References to array parameters *)

Lemma wholeFieldReference_unique prefix value q q' :
  noDollar prefix = true ->
  wholeFieldReference prefix value q -> references prefix value q' -> q' = q.
Proof.
  intros Hprefix Hwhole Href.
  destruct (scan_wholeField _ _ _ Hprefix Hwhole) as (m0 & Hscan & Hname & _).
  apply scan_references in Href as (m & Hm & <-); [|done].
  rewrite Hscan in Hm. by apply list_elem_of_singleton in Hm as ->.
Qed.

Lemma elem_of_enumFrom {A} (l : list A) i k x :
  l !! k = Some x -> (i + k, x) ∈ enumFrom i l.
Proof.
  revert i k. induction l as [|y l IH]; intros i [|k]; simpl; try done.
  - intros [= ->]. rewrite Nat.add_0_r. left.
  - intros H. right. rewrite <- Nat.add_succ_comm. by apply IH.
Qed.

Lemma command_field step i token :
  Step_Command step !! i = Some token ->
  (IsolatedArrayField, "command[" +:+ itoa i +:+ "]", token) ∈ stepFields step.
Proof.
  intros H. unfold stepFields. do 3 right. apply elem_of_app. left.
  apply (list_elem_of_fmap_2'
           (fun '(i, cmd) =>
              (IsolatedArrayField, "command[" +:+ itoa i +:+ "]", cmd))
           _ (i, token)); [|done].
  by apply (elem_of_enumFrom _ 0 i).
Qed.

Lemma arg_field step i token :
  Step_Args step !! i = Some token ->
  (IsolatedArrayField, "arg[" +:+ itoa i +:+ "]", token) ∈ stepFields step.
Proof.
  intros H. unfold stepFields. do 3 right.
  apply elem_of_app. right. apply elem_of_app. left.
  apply (list_elem_of_fmap_2'
           (fun '(i, arg) =>
              (IsolatedArrayField, "arg[" +:+ itoa i +:+ "]", arg))
           _ (i, token)); [|done].
  by apply (elem_of_enumFrom _ 0 i).
Qed.

Lemma elem_of_flat_map_stepFields steps step field :
  step ∈ steps -> field ∈ stepFields step ->
  field ∈ flat_map stepFields steps.
Proof.
  intros Hstep Hfield. apply list_elem_of_In, in_flat_map.
  exists step. split; by apply list_elem_of_In.
Qed.

(** A field whose check of the arrays reports an error makes the
    validation of the variables fail. *)
Lemma arrayCheck_fails steps inputs params field :
  field ∈ flat_map stepFields steps ->
  arrayCheck "params" (arrayParameterNames inputs params) field <> None ->
  validateArrayUsage steps "params" (arrayParameterNames inputs params)
    <> None /\
  validateInputParameterVariables steps inputs params <> None.
Proof.
  intros Hin Hcheck.
  assert (Husage : validateArrayUsage steps "params"
                     (arrayParameterNames inputs params) <> None).
  { rewrite validateArrayUsage_fields.
    intros Hnone. rewrite forEach_None in Hnone. by apply Hcheck, Hnone. }
  split; [done|]. rewrite validateInputParameterVariables_eq.
  by apply orElse_is_Some_r.
Qed.

(** C1.  For every command token and every argument token that contains
    a reference to a declared array-typed parameter [q] (a placeholder of
    [q] in the scope [inputs.params] or [outputs.params], which is how
    the pattern of the validator spells a reference to a parameter), the
    check of the token fails, with the error of the reference that is not
    isolated, if and only if the token is not exactly the placeholder,
    and passes if and only if it is; a step with such a token that is
    more than the placeholder fails the validation of the variables.  The
    token [$(inputs.params.flags)] passes, the token
    [prefix-$(inputs.params.flags)-suffix] fails. *)
Theorem validateTaskArraysIsolated_whole_token :
  (forall inputs params name token q,
     declaredArray inputs params q ->
     references "params" token q ->
     (validateTaskArraysIsolated name token "params"
        (arrayParameterNames inputs params)
        = Some {| Message := MsgVariableNotIsolated token "step" name;
                  Paths := ["taskspec.steps." +:+ name]; Details := "" |}
      <-> ~ wholeFieldReference "params" token q) /\
     (validateTaskArraysIsolated name token "params"
        (arrayParameterNames inputs params) = None
      <-> wholeFieldReference "params" token q)) /\
  (forall steps inputs params step i token q,
     step ∈ steps ->
     Step_Command step !! i = Some token \/ Step_Args step !! i = Some token ->
     declaredArray inputs params q ->
     references "params" token q ->
     ~ wholeFieldReference "params" token q ->
     validateArrayUsage steps "params" (arrayParameterNames inputs params)
       <> None /\
     validateInputParameterVariables steps inputs params <> None) /\
  validateInputParameterVariables
    [stepCommand ["echo"; "$(inputs.params.flags)"]]
    (legacyOnly [mkParam "flags" ParamTypeArray]) [] = None /\
  validateInputParameterVariables
    [stepCommand ["echo"; "prefix-$(inputs.params.flags)-suffix"]]
    (legacyOnly [mkParam "flags" ParamTypeArray]) []
    = Some (notIsolatedError "command[1]"
              "prefix-$(inputs.params.flags)-suffix").
Proof.
  assert (Htoken : forall inputs params name token q,
     declaredArray inputs params q ->
     references "params" token q ->
     (validateTaskArraysIsolated name token "params"
        (arrayParameterNames inputs params)
        = Some (notIsolatedError name token)
      <-> ~ wholeFieldReference "params" token q) /\
     (validateTaskArraysIsolated name token "params"
        (arrayParameterNames inputs params) = None
      <-> wholeFieldReference "params" token q)).
  { intros inputs params name token q Harr Href.
    apply elem_of_arrayParameterNames in Harr.
    destruct (validateTaskArraysIsolated_cases "params" params_noDollar
                name token (arrayParameterNames inputs params))
      as [[-> Hall]|[-> (q' & Href' & Harr' & Hnot)]].
    - specialize (Hall q Href Harr). split; split; done.
    - assert (Hq : ~ wholeFieldReference "params" token q).
      { intros Hwhole. apply Hnot.
        by rewrite (wholeFieldReference_unique _ _ _ _ params_noDollar
                      Hwhole Href'). }
      split; split; done. }
  split; [exact Htoken|]. split; [|split; reflexivity].
  intros steps inputs params step i token q Hstep Htok Harr Href Hnot.
  destruct Htok as [Hcmd|Harg].
  - apply (arrayCheck_fails steps inputs params
             (IsolatedArrayField, "command[" +:+ itoa i +:+ "]", token)).
    + by apply (elem_of_flat_map_stepFields steps step), command_field.
    + simpl. destruct (Htoken inputs params ("command[" +:+ itoa i +:+ "]")
                         token q Harr Href) as [Hfail _].
      by rewrite (proj2 Hfail Hnot).
  - apply (arrayCheck_fails steps inputs params
             (IsolatedArrayField, "arg[" +:+ itoa i +:+ "]", token)).
    + by apply (elem_of_flat_map_stepFields steps step), arg_field.
    + simpl. destruct (Htoken inputs params ("arg[" +:+ itoa i +:+ "]")
                         token q Harr Href) as [Hfail _].
      by rewrite (proj2 Hfail Hnot).
Qed.

Lemma flags_declaredArray :
  declaredArray (legacyOnly [mkParam "flags" ParamTypeArray]) [] "flags".
Proof.
  exists (mkParam "flags" ParamTypeArray).
  split; [right; left | split; reflexivity].
Defined.

Lemma flags_embedded :
  references "params" "prefix-$(inputs.params.flags)-suffix" "flags".
Proof.
  exists "prefix-", "inputs.params", "-suffix".
  split; [reflexivity|]. split; [left | reflexivity].
Defined.

Lemma flags_whole :
  wholeFieldReference "params" "$(inputs.params.flags)" "flags".
Proof.
  exists "inputs.params". split; [reflexivity|]. split; [left | reflexivity].
Defined.

Lemma validateTaskArraysIsolated_whole_token_witness :
  ((validateTaskArraysIsolated "command[0]"
      "prefix-$(inputs.params.flags)-suffix" "params"
      (arrayParameterNames (legacyOnly [mkParam "flags" ParamTypeArray]) [])
      = Some {| Message :=
                  MsgVariableNotIsolated "prefix-$(inputs.params.flags)-suffix"
                    "step" "command[0]";
                Paths := ["taskspec.steps." +:+ "command[0]"];
                Details := "" |}
    <-> ~ wholeFieldReference "params"
            "prefix-$(inputs.params.flags)-suffix" "flags") /\
   (validateTaskArraysIsolated "command[0]"
      "prefix-$(inputs.params.flags)-suffix" "params"
      (arrayParameterNames (legacyOnly [mkParam "flags" ParamTypeArray]) [])
      = None
    <-> wholeFieldReference "params"
          "prefix-$(inputs.params.flags)-suffix" "flags")) /\
  ((validateTaskArraysIsolated "arg[2]" "$(inputs.params.flags)" "params"
      (arrayParameterNames (legacyOnly [mkParam "flags" ParamTypeArray]) [])
      = Some {| Message :=
                  MsgVariableNotIsolated "$(inputs.params.flags)"
                    "step" "arg[2]";
                Paths := ["taskspec.steps." +:+ "arg[2]"];
                Details := "" |}
    <-> ~ wholeFieldReference "params" "$(inputs.params.flags)" "flags") /\
   (validateTaskArraysIsolated "arg[2]" "$(inputs.params.flags)" "params"
      (arrayParameterNames (legacyOnly [mkParam "flags" ParamTypeArray]) [])
      = None
    <-> wholeFieldReference "params" "$(inputs.params.flags)" "flags")) /\
  (validateArrayUsage
     [stepCommand ["prefix-$(inputs.params.flags)-suffix"]] "params"
     (arrayParameterNames (legacyOnly [mkParam "flags" ParamTypeArray]) [])
     <> None /\
   validateInputParameterVariables
     [stepCommand ["prefix-$(inputs.params.flags)-suffix"]]
     (legacyOnly [mkParam "flags" ParamTypeArray]) [] <> None).
Proof.
  split; [|split].
  - apply (proj1 validateTaskArraysIsolated_whole_token
             (legacyOnly [mkParam "flags" ParamTypeArray]) [] "command[0]"
             "prefix-$(inputs.params.flags)-suffix" "flags").
    + exact flags_declaredArray.
    + exact flags_embedded.
  - apply (proj1 validateTaskArraysIsolated_whole_token
             (legacyOnly [mkParam "flags" ParamTypeArray]) [] "arg[2]"
             "$(inputs.params.flags)" "flags").
    + exact flags_declaredArray.
    + apply wholeFieldReference_references. exact flags_whole.
  - apply (proj1 (proj2 validateTaskArraysIsolated_whole_token)
             [stepCommand ["prefix-$(inputs.params.flags)-suffix"]]
             (legacyOnly [mkParam "flags" ParamTypeArray]) []
             (stepCommand ["prefix-$(inputs.params.flags)-suffix"])
             0 "prefix-$(inputs.params.flags)-suffix" "flags").
    + left.
    + left. reflexivity.
    + exact flags_declaredArray.
    + exact flags_embedded.
    + intros (scope & Heq & Hin & _). unfold scopesOf in Hin.
      apply elem_of_cons in Hin as [->|Hin]; [discriminate|].
      apply list_elem_of_singleton in Hin as ->. discriminate.
Defined.

(** C2, the claim as stated fails: the image of the step is exactly the
    placeholder of the array parameter [flags], the whole-field form, and
    the validation of the variables fails, with the error of the array
    referenced in a field that admits none, on the path of the image. *)
Lemma validateArrayUsage_whole_field_image :
  wholeFieldReference "params"
    (Step_Image (stepImage "$(inputs.params.flags)")) "flags" /\
  declaredArray (legacyOnly [mkParam "flags" ParamTypeArray]) [] "flags" /\
  validateInputParameterVariables [stepImage "$(inputs.params.flags)"]
    (legacyOnly [mkParam "flags" ParamTypeArray]) []
    = Some {| Message :=
                MsgVariableTypeInvalid "$(inputs.params.flags)" "step" "image";
              Paths := ["taskspec.steps.image"]; Details := "" |}.
Proof.
  split; [exact flags_whole|]. split; [exact flags_declaredArray|].
  reflexivity.
Qed.

(** C2 (amended).  For every field of the class in which no array may be
    referenced (step name, image, working directory, environment value,
    volume-mount name, mount path and sub-path), every reference to a
    declared array-typed parameter is illegal, in the whole-field form as
    well as embedded in a larger string: the check of the field fails
    with the error on the path of the field, and the validation of the
    variables fails.  The check of such a field passes exactly when no
    reference of the field names a declared array-typed parameter. *)
Theorem validateTaskNoArrayReferenced_any_reference :
  (forall inputs params name value q,
     declaredArray inputs params q ->
     references "params" value q ->
     validateTaskNoArrayReferenced name value "params"
       (arrayParameterNames inputs params)
     = Some {| Message := MsgVariableTypeInvalid value "step" name;
               Paths := ["taskspec.steps." +:+ name]; Details := "" |}) /\
  (forall inputs params name value q,
     declaredArray inputs params q ->
     wholeFieldReference "params" value q ->
     validateTaskNoArrayReferenced name value "params"
       (arrayParameterNames inputs params)
     = Some {| Message := MsgVariableTypeInvalid value "step" name;
               Paths := ["taskspec.steps." +:+ name]; Details := "" |}) /\
  (forall steps inputs params name value q,
     (NoArrayField, name, value) ∈ flat_map stepFields steps ->
     declaredArray inputs params q ->
     references "params" value q ->
     validateArrayUsage steps "params" (arrayParameterNames inputs params)
       <> None /\
     validateInputParameterVariables steps inputs params <> None) /\
  (forall inputs params name value,
     validateTaskNoArrayReferenced name value "params"
       (arrayParameterNames inputs params) = None <->
     forall q, references "params" value q -> ~ declaredArray inputs params q).
Proof.
  assert (Hany : forall inputs params name value q,
     declaredArray inputs params q ->
     references "params" value q ->
     validateTaskNoArrayReferenced name value "params"
       (arrayParameterNames inputs params)
     = Some (prohibitedError name value)).
  { intros inputs params name value q Harr Href.
    apply elem_of_arrayParameterNames in Harr.
    destruct (validateTaskNoArrayReferenced_cases "params" params_noDollar
                name value (arrayParameterNames inputs params))
      as [[_ Hall]|[-> _]]; [|done].
    by destruct (Hall q Href). }
  split; [exact Hany|]. split; [|split].
  - intros inputs params name value q Harr Hwhole.
    apply (Hany inputs params name value q Harr).
    by apply wholeFieldReference_references.
  - intros steps inputs params name value q Hin Harr Href.
    apply (arrayCheck_fails steps inputs params (NoArrayField, name, value));
      [done|].
    simpl. by rewrite (Hany inputs params name value q Harr Href).
  - intros inputs params name value.
    destruct (validateTaskNoArrayReferenced_cases "params" params_noDollar
                name value (arrayParameterNames inputs params))
      as [[-> Hall]|[-> (q & Href & Harr)]].
    + split; [|done]. intros _ q Href Harr.
      by apply (Hall q Href), elem_of_arrayParameterNames.
    + split; [done|]. intros Hall.
      by destruct (Hall q Href); apply elem_of_arrayParameterNames.
Qed.

Lemma validateTaskNoArrayReferenced_any_reference_witness :
  validateTaskNoArrayReferenced "image" "registry/$(inputs.params.flags)"
    "params"
    (arrayParameterNames (legacyOnly [mkParam "flags" ParamTypeArray]) [])
    = Some {| Message :=
                MsgVariableTypeInvalid "registry/$(inputs.params.flags)"
                  "step" "image";
              Paths := ["taskspec.steps." +:+ "image"]; Details := "" |} /\
  validateTaskNoArrayReferenced "image" "$(inputs.params.flags)" "params"
    (arrayParameterNames (legacyOnly [mkParam "flags" ParamTypeArray]) [])
    = Some {| Message :=
                MsgVariableTypeInvalid "$(inputs.params.flags)" "step" "image";
              Paths := ["taskspec.steps." +:+ "image"]; Details := "" |} /\
  (validateArrayUsage [stepImage "$(inputs.params.flags)"] "params"
     (arrayParameterNames (legacyOnly [mkParam "flags" ParamTypeArray]) [])
     <> None /\
   validateInputParameterVariables [stepImage "$(inputs.params.flags)"]
     (legacyOnly [mkParam "flags" ParamTypeArray]) [] <> None).
Proof.
  split; [|split].
  - apply (proj1 validateTaskNoArrayReferenced_any_reference
             (legacyOnly [mkParam "flags" ParamTypeArray]) [] "image"
             "registry/$(inputs.params.flags)" "flags").
    + exact flags_declaredArray.
    + exists "registry/", "inputs.params", "".
      split; [reflexivity|]. split; [left | reflexivity].
  - apply (proj1 (proj2 validateTaskNoArrayReferenced_any_reference)
             (legacyOnly [mkParam "flags" ParamTypeArray]) [] "image"
             "$(inputs.params.flags)" "flags").
    + exact flags_declaredArray.
    + exact flags_whole.
  - apply (proj1 (proj2 (proj2 validateTaskNoArrayReferenced_any_reference))
             [stepImage "$(inputs.params.flags)"]
             (legacyOnly [mkParam "flags" ParamTypeArray]) []
             "image" "$(inputs.params.flags)" "flags").
    + right. left.
    + exact flags_declaredArray.
    + apply wholeFieldReference_references. exact flags_whole.
Defined.

(** * Further properties of the validator *)

(** ** Loops that look for a repeated key *)

Lemma firstDup_None {A} (key : A -> string) seen (l : list A) :
  firstDup key seen l = None <->
  NoDup (map key l) /\ forall x, x ∈ l -> key x ∉ seen.
Proof.
  revert seen. induction l as [|x l IH]; intros seen; simpl.
  - split; [|done]. intros _. split; [constructor | intros x Hx; inversion Hx].
  - destruct (bool_decide_reflect (key x ∈ seen)) as [Hin|Hnotin].
    + split; [done|]. intros [_ H]. destruct (H x); [left | done].
    + rewrite IH. change (map key (x :: l)) with (key x :: map key l).
      rewrite NoDup_cons. split.
      * intros [Hnodup Hfresh]. split; [split; [|done]|].
        -- intros Hx. apply (list_elem_of_fmap key) in Hx as (y & Heq & Hy).
           apply (Hfresh y Hy). rewrite <- Heq.
           apply elem_of_union_l, elem_of_singleton. reflexivity.
        -- intros y Hy. apply elem_of_cons in Hy as [->|Hy]; [done|].
           intros Hin. apply (Hfresh y Hy). by apply elem_of_union_r.
      * intros [[Hx Hnodup] Hfresh]. split; [done|].
        intros y Hy. rewrite elem_of_union, elem_of_singleton.
        intros [Heq|Hin].
        -- apply Hx. rewrite <- Heq. by apply (list_elem_of_fmap_2 key).
        -- apply (Hfresh y); [by right | done].
Qed.

Lemma firstDup_Some {A} (key : A -> string) seen (l : list A) x :
  firstDup key seen l = Some x <->
  exists pre post,
    l = pre ++ x :: post /\ firstDup key seen pre = None /\
    (key x ∈ seen \/ key x ∈ map key pre).
Proof.
  revert seen. induction l as [|y l IH]; intros seen; simpl.
  - split; [done|]. intros (pre & post & Hl & _). by destruct pre.
  - destruct (bool_decide_reflect (key y ∈ seen)) as [Hin|Hnotin].
    + split.
      * intros [= ->]. exists [], l. repeat split. by left.
      * intros (pre & post & Hl & Hpre & Hx). destruct pre as [|z pre].
        -- simpl in Hl. by injection Hl as ->.
        -- simpl in Hl. injection Hl as -> _. simpl in Hpre.
           by rewrite bool_decide_eq_true_2 in Hpre.
    + rewrite IH. split.
      * intros (pre & post & -> & Hpre & Hx). exists (y :: pre), post.
        simpl. rewrite bool_decide_eq_false_2 by done.
        repeat split; [done|].
        destruct Hx as [Hx|Hx]; [|by right; right].
        apply elem_of_union in Hx as [Hx|Hx]; [|by left].
        apply elem_of_singleton in Hx. right. rewrite Hx. left.
      * intros (pre & post & Hl & Hpre & Hx). destruct pre as [|z pre].
        -- simpl in Hl. injection Hl as -> ->.
           destruct Hx as [Hx|Hx]; [done | inversion Hx].
        -- simpl in Hl. injection Hl as -> ->. simpl in Hpre.
           rewrite bool_decide_eq_false_2 in Hpre by done.
           exists pre, post. repeat split; [done|].
           destruct Hx as [Hx|Hx]; [by left; apply elem_of_union_r|].
           apply elem_of_cons in Hx as [Hx|Hx]; [|by right].
           left. apply elem_of_union_l, elem_of_singleton. done.
Qed.

(** ** Volumes *)

Lemma volumesLoop_firstDup vols volumes :
  volumesLoop vols volumes
  = (fun v => volumeNameError (Volume_Name v))
      <$> firstDup Volume_Name vols volumes.
Proof.
  revert vols. induction volumes as [|v volumes IH]; intros vols; simpl;
    [done|].
  destruct (bool_decide (Volume_Name v ∈ vols)); [done | apply IH].
Qed.

(** X1.  The volumes are accepted exactly when their names are pairwise
    distinct. *)
Theorem ValidateVolumes_accepts_distinct_names (volumes : list Volume) :
  ValidateVolumes volumes = None <-> NoDup (map Volume_Name volumes).
Proof.
  unfold ValidateVolumes. rewrite volumesLoop_firstDup.
  rewrite fmap_None, firstDup_None. split; [by intros [H _]|].
  intros H. split; [done|]. intros v _. apply not_elem_of_empty.
Qed.

(** X2.  The error of the volumes is the one of the first volume whose
    name is the name of a volume before it: it carries that name and the
    path ["name"], and the names before that volume are pairwise
    distinct. *)
Theorem ValidateVolumes_first_repeated_name (volumes : list Volume)
    (e : FieldError) :
  ValidateVolumes volumes = Some e <->
  exists pre v post,
    volumes = pre ++ v :: post /\
    NoDup (map Volume_Name pre) /\
    Volume_Name v ∈ map Volume_Name pre /\
    e = {| Message := MsgVolumeName (Volume_Name v); Paths := ["name"];
           Details := "" |}.
Proof.
  unfold ValidateVolumes. rewrite volumesLoop_firstDup, fmap_Some. split.
  - intros (v & Hv & ->). apply firstDup_Some in Hv
      as (pre & post & -> & Hpre & Hin).
    apply firstDup_None in Hpre as [Hnodup _].
    exists pre, v, post. repeat split; [done|].
    destruct Hin as [Hin|Hin]; [by apply not_elem_of_empty in Hin | done].
  - intros (pre & v & post & -> & Hnodup & Hin & ->).
    exists v. split; [|done]. apply firstDup_Some.
    exists pre, post. repeat split; [|by right].
    apply firstDup_None. split; [done|]. intros x _. apply not_elem_of_empty.
Qed.

(** ** Names of the legacy resources *)

Lemma duplicatesLoop_firstDup toLower path encountered resources :
  duplicatesLoop toLower path encountered resources
  = (fun _ => ErrMultipleOneOf [path])
      <$> firstDup (fun r => toLower (TaskResource_Name r)) encountered
                   resources.
Proof.
  revert encountered.
  induction resources as [|r resources IH]; intros encountered; simpl; [done|].
  destruct (bool_decide (_ ∈ encountered)); [done | apply IH].
Qed.

(** X3.  The legacy resources pass the check of the duplicates exactly
    when their names are pairwise distinct after lower-casing; otherwise
    the error is the one-of error on the path given by the caller.  Two
    resources whose names differ only by case are rejected. *)
Theorem checkForDuplicates_case_insensitive (ext : Collaborators)
    (resources : list TaskResource) (path : string) :
  (checkForDuplicates ext resources path = None <->
   NoDup (map (fun r => ToLower ext (TaskResource_Name r)) resources)) /\
  (checkForDuplicates ext resources path <> None ->
   checkForDuplicates ext resources path = Some (ErrMultipleOneOf [path])) /\
  (forall i j r1 r2,
     i <> j -> resources !! i = Some r1 -> resources !! j = Some r2 ->
     ToLower ext (TaskResource_Name r1) = ToLower ext (TaskResource_Name r2) ->
     checkForDuplicates ext resources path = Some (ErrMultipleOneOf [path])).
Proof.
  unfold checkForDuplicates. rewrite duplicatesLoop_firstDup.
  assert (Hnone :
    (fun _ : TaskResource => ErrMultipleOneOf [path])
      <$> firstDup (fun r => ToLower ext (TaskResource_Name r)) ∅ resources
      = None <->
    NoDup (map (fun r => ToLower ext (TaskResource_Name r)) resources)).
  { rewrite fmap_None, firstDup_None. split; [by intros [H _]|].
    intros H. split; [done|]. intros r _. apply not_elem_of_empty. }
  assert (Hsome :
    (fun _ : TaskResource => ErrMultipleOneOf [path])
      <$> firstDup (fun r => ToLower ext (TaskResource_Name r)) ∅ resources
      <> None ->
    (fun _ : TaskResource => ErrMultipleOneOf [path])
      <$> firstDup (fun r => ToLower ext (TaskResource_Name r)) ∅ resources
      = Some (ErrMultipleOneOf [path])).
  { by destruct (firstDup _ _ _). }
  split; [done|]. split; [done|].
  intros i j r1 r2 Hij H1 H2 Heq. apply Hsome. rewrite Hnone.
  intros Hnodup. apply Hij.
  apply (NoDup_lookup _ i j (ToLower ext (TaskResource_Name r1)) Hnodup).
  - by rewrite list_lookup_fmap, H1.
  - by rewrite list_lookup_fmap, H2, Heq.
Qed.

Lemma checkForDuplicates_case_insensitive_witness :
  checkForDuplicates lowerCasing
    [mkResource "source" "git"; mkResource "Source" "image"]
    "taskspec.Inputs.Resources.Name"
  = Some (ErrMultipleOneOf ["taskspec.Inputs.Resources.Name"]).
Proof.
  apply (proj2 (proj2 (checkForDuplicates_case_insensitive lowerCasing
           [mkResource "source" "git"; mkResource "Source" "image"]
           "taskspec.Inputs.Resources.Name"))
           0 1 (mkResource "source" "git") (mkResource "Source" "image"));
    [lia | reflexivity | reflexivity | reflexivity].
Defined.

(** ** Workspaces, step mounts and names *)

Lemma elem_of_addWorkspaceNames x wsNames ws :
  x ∈ addWorkspaceNames wsNames ws <->
  x ∈ wsNames \/ x ∈ map Workspace_Name ws.
Proof.
  unfold addWorkspaceNames. revert wsNames.
  induction ws as [|w ws IH]; intros wsNames; simpl.
  - split; [by left|]. intros [|H]; [done | inversion H].
  - rewrite IH, elem_of_union, elem_of_singleton, elem_of_cons. tauto.
Qed.

Section WorkspacesLoop.
Variable dflt : string -> string.

Lemma elem_of_addWorkspacePaths x mountPaths ws :
  x ∈ addWorkspacePaths dflt mountPaths ws <->
  x ∈ mountPaths \/ x ∈ map (resolvedPath dflt) ws.
Proof.
  unfold addWorkspacePaths. revert mountPaths.
  induction ws as [|w ws IH]; intros mountPaths; simpl.
  - split; [by left|]. intros [|H]; [done | inversion H].
  - rewrite IH, elem_of_union, elem_of_singleton, elem_of_cons. tauto.
Qed.

Lemma workspacesLoop_accepts wsNames mountPaths ws :
  workspacesLoop dflt wsNames mountPaths ws = None <->
  NoDup (map Workspace_Name ws) /\
  (forall w, w ∈ ws -> Workspace_Name w ∉ wsNames) /\
  NoDup (map (resolvedPath dflt) ws) /\
  (forall w, w ∈ ws -> resolvedPath dflt w ∉ mountPaths).
Proof.
  revert wsNames mountPaths.
  induction ws as [|w ws IH]; intros wsNames mountPaths; simpl.
  - split; [|done]. intros _.
    repeat split; try constructor; intros w Hw; inversion Hw.
  - change (map Workspace_Name (w :: ws))
      with (Workspace_Name w :: map Workspace_Name ws).
    change (map (resolvedPath dflt) (w :: ws))
      with (resolvedPath dflt w :: map (resolvedPath dflt) ws).
    rewrite !NoDup_cons.
    destruct (bool_decide_reflect (Workspace_Name w ∈ wsNames)) as [Hn|Hn].
    { split; [done|]. intros (_ & H & _). destruct (H w); [left | done]. }
    fold (resolvedPath dflt w).
    destruct (bool_decide_reflect (resolvedPath dflt w ∈ mountPaths))
      as [Hp|Hp].
    { split; [done|]. intros (_ & _ & _ & H). destruct (H w); [left | done]. }
    rewrite IH. split.
    + intros (Hnd & Hfresh & Hpd & Hpfresh). repeat split; auto.
      * intros Hin. apply (list_elem_of_fmap Workspace_Name) in Hin
          as (w' & Heq & Hw').
        apply (Hfresh w' Hw'). rewrite <- Heq.
        apply elem_of_union_l, elem_of_singleton. reflexivity.
      * intros w' Hw'. apply elem_of_cons in Hw' as [->|Hw']; [done|].
        intros Hin. apply (Hfresh w' Hw'). by apply elem_of_union_r.
      * intros Hin. apply (list_elem_of_fmap (resolvedPath dflt)) in Hin
          as (w' & Heq & Hw').
        apply (Hpfresh w' Hw'). rewrite <- Heq.
        apply elem_of_union_l, elem_of_singleton. reflexivity.
      * intros w' Hw'. apply elem_of_cons in Hw' as [->|Hw']; [done|].
        intros Hin. apply (Hpfresh w' Hw'). by apply elem_of_union_r.
    + intros ([Hw Hnd] & Hfresh & [Hpw Hpd] & Hpfresh). repeat split; auto.
      * intros w' Hw'. rewrite elem_of_union, elem_of_singleton.
        intros [Heq|Hin].
        -- apply Hw. rewrite <- Heq.
           by apply (list_elem_of_fmap_2 Workspace_Name).
        -- apply (Hfresh w'); [by right | done].
      * intros w' Hw'. rewrite elem_of_union, elem_of_singleton.
        intros [Heq|Hin].
        -- apply Hpw. rewrite <- Heq.
           by apply (list_elem_of_fmap_2 (resolvedPath dflt)).
        -- apply (Hpfresh w'); [by right | done].
Qed.

Lemma workspacesLoop_app wsNames mountPaths pre ws :
  workspacesLoop dflt wsNames mountPaths pre = None ->
  workspacesLoop dflt wsNames mountPaths (pre ++ ws)
  = workspacesLoop dflt (addWorkspaceNames wsNames pre)
      (addWorkspacePaths dflt mountPaths pre) ws.
Proof.
  revert wsNames mountPaths.
  induction pre as [|w pre IH]; intros wsNames mountPaths; simpl; [done|].
  destruct (bool_decide (Workspace_Name w ∈ wsNames)); [done|].
  destruct (bool_decide (Clean (GetMountPath dflt w) ∈ mountPaths)); [done|].
  apply IH.
Qed.
End WorkspacesLoop.

Lemma elem_of_addMountPaths p mountPaths vms :
  p ∈ addMountPaths mountPaths vms <->
  p ∈ mountPaths \/
  exists vm, vm ∈ vms /\ Clean (VolumeMount_MountPath vm) = p.
Proof.
  unfold addMountPaths. revert mountPaths.
  induction vms as [|vm vms IH]; intros mountPaths; simpl.
  - split; [by left|]. intros [|(vm & H & _)]; [done | inversion H].
  - rewrite IH, elem_of_union, elem_of_singleton. split.
    + intros [[->|H]|(vm' & Hin & Heq)]; [right | by left | right].
      * exists vm. split; [left | done].
      * exists vm'. split; [by right | done].
    + intros [H|(vm' & Hin & Heq)]; [by left; right|].
      apply elem_of_cons in Hin as [->|Hin]; [by left; left|].
      right. by exists vm'.
Qed.

Lemma elem_of_stepsMountPaths p mountPaths steps :
  p ∈ stepsMountPaths mountPaths steps <->
  p ∈ mountPaths \/
  exists step vm, step ∈ steps /\ vm ∈ Step_VolumeMounts step /\
                  Clean (VolumeMount_MountPath vm) = p.
Proof.
  unfold stepsMountPaths. revert mountPaths.
  induction steps as [|step steps IH]; intros mountPaths; simpl.
  - split; [by left|]. intros [|(s & vm & H & _)]; [done | inversion H].
  - rewrite IH, elem_of_addMountPaths. split.
    + intros [[H|(vm & Hin & Heq)]|(s & vm & Hs & Hin & Heq)];
        [by left | right | right].
      * exists step, vm. split; [left | done].
      * exists s, vm. split; [by right | done].
    + intros [H|(s & vm & Hs & Hin & Heq)]; [by left; left|].
      apply elem_of_cons in Hs as [->|Hs].
      * left. right. by exists vm.
      * right. by exists s, vm.
Qed.

(** The set of mount paths with which the loop over the workspaces
    starts. *)
Lemma elem_of_initial_mountPaths p steps stepTemplate :
  p ∈ match stepTemplate with
      | Some tmpl =>
          addMountPaths (stepsMountPaths ∅ steps) (Container_VolumeMounts tmpl)
      | None => stepsMountPaths ∅ steps
      end <->
  mountedPath steps stepTemplate p.
Proof.
  unfold mountedPath. destruct stepTemplate as [tmpl|].
  - rewrite elem_of_addMountPaths, elem_of_stepsMountPaths, elem_of_empty.
    split.
    + intros [[[]|H]|(vm & Hin & Heq)]; [by left | right].
      by exists tmpl, vm.
    + intros [H|(t & vm & [= <-] & Hin & Heq)]; [by left; right|].
      right. by exists vm.
  - rewrite elem_of_stepsMountPaths, elem_of_empty. split.
    + intros [[]|H]. by left.
    + intros [H|(t & vm & Ht & _)]; [by right | done].
Qed.

(** X4.  The declared workspaces are accepted exactly when their names are
    pairwise distinct, their resolved (default-applied, cleaned) mount
    paths are pairwise distinct, and none of these paths is the cleaned
    mount path of a volume mount of a step or of the step template. *)
Theorem validateDeclaredWorkspaces_accepts (dflt : string -> string)
    (workspaces : list WorkspaceDeclaration) (steps : list Step)
    (stepTemplate : option Container) :
  validateDeclaredWorkspaces dflt workspaces steps stepTemplate = None <->
  NoDup (map Workspace_Name workspaces) /\
  NoDup (map (fun w => Clean (GetMountPath dflt w)) workspaces) /\
  forall w, w ∈ workspaces ->
    ~ mountedPath steps stepTemplate (Clean (GetMountPath dflt w)).
Proof.
  unfold validateDeclaredWorkspaces. rewrite workspacesLoop_accepts. split.
  - intros (Hn & _ & Hp & Hfresh). repeat split; [done | done |].
    intros w Hw Hm. apply (Hfresh w Hw).
    by apply elem_of_initial_mountPaths.
  - intros (Hn & Hp & Hfresh). repeat split; [done | | done |].
    + intros w _. apply not_elem_of_empty.
    + intros w Hw Hin. apply (Hfresh w Hw).
      by apply elem_of_initial_mountPaths in Hin.
Qed.

(** X5.  After workspaces that are accepted, a workspace that repeats the
    name of one of them is rejected with the error on
    ["workspaces.name"] carrying the name; a workspace with a new name
    whose resolved path is mounted by a step or by the step template, or
    is the resolved path of a workspace before it, is rejected with the
    error on ["workspaces.mountpath"] carrying the cleaned path. *)
Theorem validateDeclaredWorkspaces_first_rejected (dflt : string -> string)
    (pre post : list WorkspaceDeclaration) (w : WorkspaceDeclaration)
    (steps : list Step) (stepTemplate : option Container) :
  validateDeclaredWorkspaces dflt pre steps stepTemplate = None ->
  (Workspace_Name w ∈ map Workspace_Name pre ->
   validateDeclaredWorkspaces dflt (pre ++ w :: post) steps stepTemplate
   = Some {| Message := MsgWorkspaceName (Workspace_Name w);
             Paths := ["workspaces.name"]; Details := "" |}) /\
  (Workspace_Name w ∉ map Workspace_Name pre ->
   mountedPath steps stepTemplate (Clean (GetMountPath dflt w)) \/
   Clean (GetMountPath dflt w)
     ∈ map (fun w' => Clean (GetMountPath dflt w')) pre ->
   validateDeclaredWorkspaces dflt (pre ++ w :: post) steps stepTemplate
   = Some {| Message := MsgWorkspaceMountPath (Clean (GetMountPath dflt w));
             Paths := ["workspaces.mountpath"]; Details := "" |}).
Proof.
  unfold validateDeclaredWorkspaces. intros Hpre.
  rewrite (workspacesLoop_app _ _ _ _ _ Hpre). simpl. split.
  - intros Hin. rewrite bool_decide_eq_true_2; [reflexivity|].
    apply elem_of_addWorkspaceNames. by right.
  - intros Hfresh Hpath. rewrite bool_decide_eq_false_2.
    + rewrite bool_decide_eq_true_2; [reflexivity|].
      apply elem_of_addWorkspacePaths. destruct Hpath as [Hm|Hin].
      * left. by apply elem_of_initial_mountPaths.
      * by right.
    + rewrite elem_of_addWorkspaceNames, elem_of_empty. tauto.
Qed.

Lemma validateDeclaredWorkspaces_first_rejected_witness :
  validateDeclaredWorkspaces underWorkspace ([wsSrc] ++ [wsCache])
    [stepWithMount (mountAt "cache" "/cache")] None
  = Some {| Message := MsgWorkspaceMountPath "/cache";
            Paths := ["workspaces.mountpath"]; Details := "" |}.
Proof.
  apply (proj2 (validateDeclaredWorkspaces_first_rejected underWorkspace
                  [wsSrc] [] wsCache
                  [stepWithMount (mountAt "cache" "/cache")] None
                  ltac:(vm_compute; reflexivity))).
  - intros H. apply list_elem_of_singleton in H. discriminate H.
  - left. left.
    exists (stepWithMount (mountAt "cache" "/cache")), (mountAt "cache" "/cache").
    split; [left|]. split; [left | reflexivity].
Defined.

(** ** The steps that are accepted *)

Lemma internalName_spec (name : string) :
  HasPrefix name "tekton-internal-" = true <-> internalName name.
Proof. apply HasPrefix_spec. Qed.

Lemma volumeMountsLoop_None idx vms :
  volumeMountsLoop idx vms = None <->
  forall vm, vm ∈ vms ->
    ~ underReservedPath (VolumeMount_MountPath vm) /\
    ~ internalName (VolumeMount_Name vm).
Proof.
  induction vms as [|vm vms IH]; simpl.
  - split; [|done]. intros _ vm Hvm. inversion Hvm.
  - destruct (_ && _) eqn:Hres.
    { split; [done|]. intros H. apply underReservedPath_spec in Hres.
      destruct (H vm) as [Hno _]; [left | done]. }
    destruct (HasPrefix (VolumeMount_Name vm) _) eqn:Hint.
    { split; [done|]. intros H. apply internalName_spec in Hint.
      destruct (H vm) as [_ Hno]; [left | done]. }
    rewrite IH. split.
    + intros H vm' Hvm'. apply elem_of_cons in Hvm' as [->|Hvm']; [|by apply H].
      split.
      * intros Hr. apply underReservedPath_spec in Hr. congruence.
      * intros Hi. apply internalName_spec in Hi. congruence.
    + intros H vm' Hvm'. apply H. by right.
Qed.

Lemma stepBody_None names idx s :
  stepBody names idx s = None <->
  stepWellFormed s /\ (Step_Name s <> "" -> Step_Name s ∉ names).
Proof.
  unfold stepBody, stepWellFormed.
  destruct (nonEmpty (Step_Image s)) eqn:Himg; simpl.
  2:{ apply nonEmpty_false in Himg. split; [done|]. by intros [[H _] _]. }
  apply nonEmpty_true in Himg.
  destruct (nonEmpty (Step_Script s)) eqn:Hscript; simpl.
  - destruct (isNil (Step_Command s)) eqn:Hcmd; simpl.
    + destruct (Step_Command s) as [|c cs] eqn:Hc; [|done].
      apply nonEmpty_true in Hscript.
      destruct (nonEmpty (Step_Name s)) eqn:Hname; simpl.
      * apply nonEmpty_true in Hname.
        destruct (bool_decide_reflect (Step_Name s ∈ names)) as [Hin|Hin].
        -- split; [done|]. intros [_ H]. by destruct (H Hname).
        -- rewrite volumeMountsLoop_None. split.
           ++ intros H. split; [|done]. split; [done|]. split; [by right|done].
           ++ by intros [(_ & _ & H) _].
      * apply nonEmpty_false in Hname. rewrite volumeMountsLoop_None. split.
        -- intros H. split; [|done]. split; [done|]. split; [by right|done].
        -- by intros [(_ & _ & H) _].
    + apply nonEmpty_true in Hscript. split; [done|].
      intros [(_ & [H|H] & _) _]; [done|]. by rewrite H in Hcmd.
  - apply nonEmpty_false in Hscript.
    destruct (nonEmpty (Step_Name s)) eqn:Hname; simpl.
    + apply nonEmpty_true in Hname.
      destruct (bool_decide_reflect (Step_Name s ∈ names)) as [Hin|Hin].
      * split; [done|]. intros [_ H]. by destruct (H Hname).
      * rewrite volumeMountsLoop_None. split.
        -- intros H. split; [|done]. split; [done|]. split; [by left|done].
        -- by intros [(_ & _ & H) _].
    + apply nonEmpty_false in Hname. rewrite volumeMountsLoop_None. split.
      * intros H. split; [|done]. split; [done|]. split; [by left|done].
      * by intros [(_ & _ & H) _].
Qed.

Lemma stepNamesOf_cons s steps :
  stepNamesOf (s :: steps)
  = if nonEmpty (Step_Name s) then Step_Name s :: stepNamesOf steps
    else stepNamesOf steps.
Proof.
  unfold stepNamesOf. simpl. rewrite filter_cons.
  destruct (nonEmpty (Step_Name s)) eqn:Hname.
  - apply nonEmpty_true in Hname. by rewrite decide_True.
  - apply nonEmpty_false in Hname. rewrite decide_False; [done|]. by intros H.
Qed.

Lemma elem_of_stepNamesOf n steps :
  n ∈ stepNamesOf steps <-> n <> "" /\ exists s, s ∈ steps /\ Step_Name s = n.
Proof.
  unfold stepNamesOf. rewrite list_elem_of_filter, list_elem_of_fmap.
  split; intros [Hn (s & H1 & H2)]; (split; [done|]); by exists s.
Qed.

Lemma stepsLoop_None names idx steps :
  stepsLoop names idx steps = None <->
  (forall s, s ∈ steps -> stepWellFormed s) /\
  NoDup (stepNamesOf steps) /\
  (forall n, n ∈ stepNamesOf steps -> n ∉ names).
Proof.
  revert names idx. induction steps as [|s steps IH]; intros names idx.
  - simpl. split; [|done]. intros _. split; [|split].
    + intros s Hs. inversion Hs.
    + constructor.
    + intros n Hn. inversion Hn.
  - simpl. rewrite orElse_None, stepBody_None, IH, stepNamesOf_cons.
    unfold addStepName.
    destruct (nonEmpty (Step_Name s)) eqn:Hname.
    + apply nonEmpty_true in Hname. rewrite NoDup_cons. split.
      * intros [[Hwf Hfresh] (Hall & Hnd & Hnot)]. split; [|split].
        -- intros s' Hs'. apply elem_of_cons in Hs' as [->|Hs']; auto.
        -- split; [|done]. intros Hin. apply (Hnot _ Hin).
           apply elem_of_union_l, elem_of_singleton. reflexivity.
        -- intros n Hn. apply elem_of_cons in Hn as [->|Hn]; [auto|].
           intros Hin. apply (Hnot _ Hn). by apply elem_of_union_r.
      * intros (Hall & [Hs Hnd] & Hnot). split; [split|split; [|split]].
        -- apply Hall. left.
        -- intros _. apply Hnot. left.
        -- intros s' Hs'. apply Hall. by right.
        -- done.
        -- intros n Hn. rewrite elem_of_union, elem_of_singleton.
           intros [->|Hin]; [done|]. apply (Hnot n); [by right | done].
    + apply nonEmpty_false in Hname. split.
      * intros [[Hwf _] (Hall & Hnd & Hnot)]. split; [|done].
        intros s' Hs'. apply elem_of_cons in Hs' as [->|Hs']; auto.
      * intros (Hall & Hnd & Hnot). split; [split|split; [|done]].
        -- apply Hall. left.
        -- by intros H.
        -- intros s' Hs'. apply Hall. by right.
Qed.

(** X6.  A list of steps is accepted exactly when every step has an
    image, does not set both a script and a command, and has no volume
    mount under the reserved path [/tekton/] (other than [/tekton/home])
    or with a name that starts with [tekton-internal-], and the
    non-empty step names are pairwise distinct.  Steps with an empty
    name may be repeated. *)
Theorem validateSteps_accepts (steps : list Step) :
  validateSteps steps = None <->
  (forall s, s ∈ steps ->
     Step_Image s <> "" /\
     (Step_Script s = "" \/ Step_Command s = []) /\
     forall vm, vm ∈ Step_VolumeMounts s ->
       ~ underReservedPath (VolumeMount_MountPath vm) /\
       ~ (exists rest, VolumeMount_Name vm = "tekton-internal-" +:+ rest)) /\
  NoDup (filter (fun n : string => n <> "") (map Step_Name steps)).
Proof.
  unfold validateSteps. rewrite stepsLoop_None. split.
  - by intros (Hall & Hnd & _).
  - intros [Hall Hnd]. split; [done|]. split; [done|].
    intros n _. apply not_elem_of_empty.
Qed.

(** X7.  Whether a list of steps is accepted does not depend on the
    order of the steps: a permutation of an accepted list is accepted,
    and a permutation of a rejected list is rejected (the error that is
    reported may differ). *)
Theorem validateSteps_accepts_permutation (steps steps' : list Step) :
  (steps ≡ₚ steps' ->
   (validateSteps steps = None <-> validateSteps steps' = None)) /\
  (steps ≡ₚ steps' -> validateSteps steps <> None ->
   validateSteps steps' <> None).
Proof.
  assert (Hperm : forall l l' : list Step,
    l ≡ₚ l' -> validateSteps l = None -> validateSteps l' = None).
  { intros l l' Hp. unfold validateSteps. rewrite !stepsLoop_None.
    intros (Hall & Hnd & _). split; [|split].
    - intros s Hs. apply Hall. by rewrite Hp.
    - unfold stepNamesOf in *. by rewrite <- Hp.
    - intros n _. apply not_elem_of_empty. }
  split.
  - intros Hp. split; [by apply Hperm | apply Hperm; by symmetry].
  - intros Hp Hrej Hacc. apply Hrej. apply (Hperm steps' steps); [|done].
    by symmetry.
Qed.

Lemma validateSteps_accepts_permutation_witness :
  [stepBuild; stepNoImage] ≡ₚ [stepNoImage; stepBuild] /\
  validateSteps [stepBuild; stepNoImage] <> None /\
  validateSteps [stepNoImage; stepBuild] <> None.
Proof.
  assert (Hp : [stepBuild; stepNoImage] ≡ₚ [stepNoImage; stepBuild])
    by apply Permutation_swap.
  assert (Hrej : validateSteps [stepBuild; stepNoImage] <> None)
    by (vm_compute; discriminate).
  split; [exact Hp|]. split; [exact Hrej|].
  exact (proj2 (validateSteps_accepts_permutation
                  [stepBuild; stepNoImage] [stepNoImage; stepBuild]) Hp Hrej).
Defined.

(** ** The step that is rejected *)

Lemma take_app_one {A} (pre post : list A) (x : A) :
  take (S (length pre)) (pre ++ x :: post) = pre ++ [x].
Proof.
  induction pre as [|y pre IH]; simpl; [by rewrite take_0|]. by rewrite IH.
Qed.

Lemma stepBody_errorIndex names idx s e i :
  stepBody names idx s = Some e -> errorIndex e = Some i -> i = idx.
Proof.
  intros He Hi. apply stepBody_Some in He as [[_ ->]|[(_ & _ & ->)|[(_ & _ & ->)|He]]].
  - discriminate Hi.
  - by injection Hi.
  - discriminate Hi.
  - apply volumeMountsLoop_Some in He as (vm & _ & [[-> _]| -> ]);
      by injection Hi.
Qed.

(** X8.  When a list of steps is rejected, the error is that of one step,
    the first that is not accepted after the steps before it: the steps
    before it are accepted as a list, the list up to and including it is
    rejected with the same error, and so is every list that starts with
    these steps.  When the message of the error carries a step index
    (script with command, mount under [/tekton/], internal mount name), it
    is the zero-based index of that step in the list. *)
Theorem validateSteps_rejected_step (steps : list Step) (e : FieldError) :
  validateSteps steps = Some e ->
  exists idx,
    idx < length steps /\
    validateSteps (take idx steps) = None /\
    validateSteps (take (S idx) steps) = Some e /\
    (forall later, validateSteps (take (S idx) steps ++ later) = Some e) /\
    (forall i, errorIndex e = Some i -> i = idx).
Proof.
  unfold validateSteps. intros He.
  apply stepsLoop_Some in He as (pre & s & post & -> & Hpre & Hs).
  simpl in Hs. exists (length pre).
  assert (Hone : stepsLoop ∅ 0 (pre ++ [s]) = Some e).
  { rewrite (stepsLoop_app _ _ _ _ Hpre). simpl. by rewrite Hs. }
  split; [|split; [|split; [|split]]].
  - rewrite length_app. simpl. lia.
  - by rewrite take_app_length.
  - by rewrite take_app_one.
  - intros later. rewrite take_app_one. by apply stepsLoop_app_Some.
  - intros i. by apply stepBody_errorIndex with (1 := Hs).
Qed.

Lemma validateSteps_rejected_step_witness :
  exists idx,
    idx < length [stepBuild; stepTest; stepScriptAndCommand] /\
    validateSteps (take idx [stepBuild; stepTest; stepScriptAndCommand])
      = None /\
    validateSteps (take (S idx) [stepBuild; stepTest; stepScriptAndCommand])
      = Some (scriptError 2) /\
    (forall later,
       validateSteps
         (take (S idx) [stepBuild; stepTest; stepScriptAndCommand] ++ later)
       = Some (scriptError 2)) /\
    (forall i, errorIndex (scriptError 2) = Some i -> i = idx).
Proof.
  apply (validateSteps_rejected_step
           [stepBuild; stepTest; stepScriptAndCommand] (scriptError 2)).
  vm_compute. reflexivity.
Defined.

(** X9.  A step with an empty image is rejected with the missing-field
    error on [Image] whatever its other fields are, when the steps before
    it are accepted; and that error is reported only when some step has an
    empty image. *)
Theorem validateSteps_missing_image (steps : list Step) :
  (forall pre s post,
     steps = pre ++ s :: post -> validateSteps pre = None ->
     Step_Image s = "" ->
     validateSteps steps = Some (ErrMissingField ["Image"])) /\
  (validateSteps steps = Some (ErrMissingField ["Image"]) ->
   exists s, s ∈ steps /\ Step_Image s = "").
Proof.
  unfold validateSteps. split.
  - intros pre s post -> Hpre Himg.
    rewrite (stepsLoop_app _ _ _ _ Hpre). simpl. unfold stepBody.
    apply nonEmpty_false in Himg. by rewrite Himg.
  - intros He.
    apply stepsLoop_Some in He as (pre & s & post & -> & _ & Hs).
    exists s. split; [apply elem_of_app; right; left|].
    apply stepBody_Some in Hs as [[Himg _]|[(_ & _ & Hs)|[(_ & _ & Hs)|Hs]]];
      [done | discriminate Hs | discriminate Hs |].
    apply volumeMountsLoop_Some in Hs as (vm & _ & [[Hs _]|Hs]);
      discriminate Hs.
Qed.

Lemma validateSteps_missing_image_witness :
  validateSteps [stepBuild; stepScriptNoImage]
  = Some (ErrMissingField ["Image"]).
Proof.
  apply (proj1 (validateSteps_missing_image [stepBuild; stepScriptNoImage])
           [stepBuild] stepScriptNoImage []);
    [reflexivity | vm_compute; reflexivity | reflexivity].
Defined.

Lemma volumeMountsLoop_internal idx vms i name paths details :
  volumeMountsLoop idx vms
  = Some {| Message := MsgMountNameInternal i name; Paths := paths;
            Details := details |} ->
  i = idx /\
  exists vm, vm ∈ vms /\ VolumeMount_Name vm = name /\ internalName name.
Proof.
  induction vms as [|vm vms IH]; simpl; [done|].
  destruct (_ && _); [done|].
  destruct (HasPrefix (VolumeMount_Name vm) _) eqn:Hint.
  - intros [= <- <- _ _]. split; [done|]. exists vm.
    split; [left|]. split; [done|]. by apply internalName_spec.
  - intros H. destruct (IH H) as [-> (vm' & Hin & Hname)].
    split; [done|]. exists vm'. split; [by right | done].
Qed.

(** X10.  A volume mount whose name starts with [tekton-internal-] makes
    its step rejected with the error on ["volumeMounts.name"] that carries
    the index of the step and the name of the mount, when the steps before
    it are accepted, the step has an image, does not set both script and
    command, does not repeat a step name, the mounts before it are
    accepted and its own mount path is not reserved.  That error is
    reported only for a mount of the step of that index whose name has
    this prefix. *)
Theorem validateSteps_internal_mount_name (steps : list Step) :
  (forall pre s post before vm after,
     steps = pre ++ s :: post ->
     Step_VolumeMounts s = before ++ vm :: after ->
     validateSteps pre = None ->
     Step_Image s <> "" ->
     Step_Script s = "" \/ Step_Command s = [] ->
     (Step_Name s = "" \/
      forall s', s' ∈ pre -> Step_Name s' <> Step_Name s) ->
     (forall vm', vm' ∈ before ->
        ~ underReservedPath (VolumeMount_MountPath vm') /\
        ~ (exists rest, VolumeMount_Name vm' = "tekton-internal-" +:+ rest)) ->
     ~ underReservedPath (VolumeMount_MountPath vm) ->
     (exists rest, VolumeMount_Name vm = "tekton-internal-" +:+ rest) ->
     validateSteps steps
     = Some {| Message := MsgMountNameInternal (length pre)
                            (VolumeMount_Name vm);
               Paths := ["volumeMounts.name"]; Details := "" |}) /\
  (forall idx name,
     validateSteps steps
     = Some {| Message := MsgMountNameInternal idx name;
               Paths := ["volumeMounts.name"]; Details := "" |} ->
     exists s vm,
       steps !! idx = Some s /\ vm ∈ Step_VolumeMounts s /\
       VolumeMount_Name vm = name /\
       exists rest, name = "tekton-internal-" +:+ rest).
Proof.
  unfold validateSteps. split.
  - intros pre s post before vm after -> Hvms Hpre Himg Hsc Hname Hbefore
      Hres Hint.
    rewrite (stepsLoop_app _ _ _ _ Hpre). simpl.
    assert (Hbody : stepBody (namesAfter ∅ pre) (length pre) s
                    = Some (internalNameError (length pre) vm)).
    { unfold stepBody. apply nonEmpty_true in Himg. rewrite Himg. simpl.
      assert (Hsc' : nonEmpty (Step_Script s) && negb (isNil (Step_Command s))
                     = false).
      { destruct Hsc as [Hs|Hc].
        - apply nonEmpty_false in Hs. by rewrite Hs.
        - rewrite Hc. simpl. apply andb_false_r. }
      rewrite Hsc'.
      assert (Hname' : nonEmpty (Step_Name s) &&
                       bool_decide (Step_Name s ∈ namesAfter ∅ pre) = false).
      { destruct Hname as [Hn|Hn].
        - apply nonEmpty_false in Hn. by rewrite Hn.
        - rewrite bool_decide_eq_false_2; [apply andb_false_r|].
          rewrite elem_of_namesAfter, elem_of_empty.
          intros [[]|[_ (s' & Hs' & Heq)]]. by apply (Hn s'). }
      rewrite Hname', Hvms.
      rewrite volumeMountsLoop_app by (by apply volumeMountsLoop_None).
      simpl.
      assert (Hres' : HasPrefix (VolumeMount_MountPath vm) "/tekton/" &&
                      negb (HasPrefix (VolumeMount_MountPath vm) "/tekton/home")
                      = false).
      { apply not_true_iff_false. intros H.
        by apply underReservedPath_spec in H. }
      rewrite Hres'. apply internalName_spec in Hint. by rewrite Hint. }
    by rewrite Hbody.
  - intros idx name He.
    apply stepsLoop_Some in He as (pre & s & post & -> & _ & Hs).
    simpl in Hs.
    apply stepBody_Some in Hs as [[_ Hs]|[(_ & _ & Hs)|[(_ & _ & Hs)|Hs]]];
      [discriminate Hs | discriminate Hs | discriminate Hs |].
    apply volumeMountsLoop_internal in Hs as [-> (vm & Hin & Hname & Hint)].
    exists s, vm. split; [apply list_lookup_middle; done|]. by split.
Qed.

Lemma validateSteps_internal_mount_name_witness :
  validateSteps [stepBuild; stepInternalMount]
  = Some {| Message := MsgMountNameInternal 1 "tekton-internal-tools";
            Paths := ["volumeMounts.name"]; Details := "" |}.
Proof.
  apply (proj1 (validateSteps_internal_mount_name
                  [stepBuild; stepInternalMount])
           [stepBuild] stepInternalMount []
           [] (mountAt "tekton-internal-tools" "/tools") []).
  - reflexivity.
  - reflexivity.
  - vm_compute. reflexivity.
  - discriminate.
  - by left.
  - right. intros s' Hs'. apply list_elem_of_singleton in Hs' as ->.
    discriminate.
  - intros vm' Hvm'. inversion Hvm'.
  - intros [[rest Hrest] _]. discriminate Hrest.
  - by exists "tools".
Defined.

(** ** The variables of the steps, as a whole *)

Lemma forEach_first {A} (body : A -> option FieldError) (l : list A) e :
  forEach body l = Some e <->
  exists pre x post, l = pre ++ x :: post /\
    (forall y, y ∈ pre -> body y = None) /\ body x = Some e.
Proof.
  split.
  - intros H. apply forEach_Some in H as (pre & x & post & Hl & Hpre & Hx).
    exists pre, x, post. by rewrite <- forEach_None.
  - intros (pre & x & post & -> & Hpre & Hx).
    apply forEach_None in Hpre. rewrite forEach_app, Hpre. simpl.
    by rewrite Hx.
Qed.

Lemma variableCheck_None inputs params cls name value :
  variableCheck "params" (parameterNames inputs params) (cls, name, value)
    = None <-> fieldResolves inputs params value.
Proof.
  unfold variableCheck, fieldResolves. simpl.
  destruct (validateTaskVariable_cases "params" params_noDollar name value
              (parameterNames inputs params))
    as [[-> Hall]|[-> (q & Hq & Hnot)]].
  - split; [|done]. intros _ q Hq. by apply elem_of_parameterNames, Hall.
  - split; [done|]. intros Hall. destruct Hnot.
    by apply elem_of_parameterNames, Hall.
Qed.

Lemma variableCheck_Some inputs params cls name value e :
  variableCheck "params" (parameterNames inputs params) (cls, name, value)
    = Some e <->
  ~ fieldResolves inputs params value /\ e = unresolvedError name value.
Proof.
  rewrite <- variableCheck_None with (cls := cls) (name := name).
  unfold variableCheck. simpl.
  destruct (validateTaskVariable_cases "params" params_noDollar name value
              (parameterNames inputs params)) as [[-> _]|[-> _]].
  - split; [done | by intros [H _]].
  - split; [by intros [= <-] | by intros [_ ->]].
Qed.

Lemma arrayCheck_None inputs params cls name value :
  arrayCheck "params" (arrayParameterNames inputs params) (cls, name, value)
    = None <-> fieldArraysLegal inputs params cls value.
Proof.
  unfold arrayCheck, fieldArraysLegal. destruct cls.
  - destruct (validateTaskNoArrayReferenced_cases "params" params_noDollar
                name value (arrayParameterNames inputs params))
      as [[-> Hall]|[-> (q & Hq & Hin)]].
    + split; [|done]. intros _ q Hq Harr.
      destruct (Hall q Hq). by apply elem_of_arrayParameterNames.
    + split; [done|]. intros Hall.
      apply elem_of_arrayParameterNames in Hin.
      by destruct (Hall q Hq Hin).
  - destruct (validateTaskArraysIsolated_cases "params" params_noDollar
                name value (arrayParameterNames inputs params))
      as [[-> Hall]|[-> (q & Hq & Hin & Hnot)]].
    + split; [|done]. intros _ q Hq Harr. split; [done|].
      apply Hall; [done|]. by apply elem_of_arrayParameterNames.
    + split; [done|]. intros Hall.
      apply elem_of_arrayParameterNames in Hin.
      destruct Hnot. by apply (Hall q Hq Hin).
Qed.

Lemma arrayCheck_Some inputs params cls name value e :
  arrayCheck "params" (arrayParameterNames inputs params) (cls, name, value)
    = Some e <->
  ~ fieldArraysLegal inputs params cls value /\ e = arrayError cls name value.
Proof.
  rewrite <- arrayCheck_None with (name := name).
  unfold arrayCheck, arrayError. destruct cls.
  - destruct (validateTaskNoArrayReferenced_cases "params" params_noDollar
                name value (arrayParameterNames inputs params))
      as [[-> _]|[-> _]].
    + split; [done | by intros [H _]].
    + split; [by intros [= <-] | by intros [_ ->]].
  - destruct (validateTaskArraysIsolated_cases "params" params_noDollar
                name value (arrayParameterNames inputs params))
      as [[-> _]|[-> _]].
    + split; [done | by intros [H _]].
    + split; [by intros [= <-] | by intros [_ ->]].
Qed.

(** X11.  The check of the parameter variables accepts the steps exactly
    when, in every scanned field of every step, every reference to a
    parameter is to a parameter declared in the new-style list or in the
    legacy list, and every reference to a parameter declared with the
    array type stands in a command or argument token and is the whole
    token. *)
Theorem validateInputParameterVariables_accepts
    (steps : list Step) (inputs : option Inputs) (params : list ParamSpec) :
  validateInputParameterVariables steps inputs params = None <->
  forall cls name value q,
    (cls, name, value) ∈ flat_map stepFields steps ->
    references "params" value q ->
    declaredParam inputs params q /\
    (declaredArray inputs params q ->
     cls = IsolatedArrayField /\ wholeFieldReference "params" value q).
Proof.
  rewrite validateInputParameterVariables_eq, orElse_None.
  rewrite validateVariables_fields, validateArrayUsage_fields, !forEach_None.
  split.
  - intros [Hvar Harr] cls name value q Hin Hq. split.
    + by apply (proj1 (variableCheck_None _ _ _ _ _) (Hvar _ Hin)).
    + by apply (proj1 (arrayCheck_None _ _ _ _ _) (Harr _ Hin)).
  - intros H. split; intros [[cls name] value] Hin.
    + apply variableCheck_None. intros q Hq. by apply (H cls name value q).
    + apply arrayCheck_None. intros q Hq. by apply (H cls name value q).
Qed.

(** X12.  The error of the check of the parameter variables.  The
    references are resolved first, over all the fields of all the steps,
    and the arrays are checked only when every reference resolves: the
    error is the unresolved-reference error of the first scanned field
    with an undeclared reference or, when there is no such field, the
    array error of the first scanned field with an illegal reference to
    an array (prohibited in a field of the first class, not isolated in a
    command or argument token). *)
Theorem validateInputParameterVariables_first_error
    (steps : list Step) (inputs : option Inputs) (params : list ParamSpec)
    (e : FieldError) :
  validateInputParameterVariables steps inputs params = Some e <->
  exists pre cls name value post,
    flat_map stepFields steps = pre ++ (cls, name, value) :: post /\
    ((forall c n v, (c, n, v) ∈ pre -> fieldResolves inputs params v) /\
     ~ fieldResolves inputs params value /\
     e = unresolvedError name value
     \/
     (forall c n v, (c, n, v) ∈ flat_map stepFields steps ->
                    fieldResolves inputs params v) /\
     (forall c n v, (c, n, v) ∈ pre -> fieldArraysLegal inputs params c v) /\
     ~ fieldArraysLegal inputs params cls value /\
     e = arrayError cls name value).
Proof.
  rewrite validateInputParameterVariables_eq, orElse_Some.
  rewrite validateVariables_fields, validateArrayUsage_fields.
  rewrite !forEach_first, forEach_None. split.
  - intros [(pre & [[cls name] value] & post & Hl & Hpre & Hx)
           |[Hall (pre & [[cls name] value] & post & Hl & Hpre & Hx)]];
      exists pre, cls, name, value, post; (split; [done|]).
    + left. apply variableCheck_Some in Hx as [Hx ->].
      split; [|done]. intros c n v Hin.
      by apply (proj1 (variableCheck_None _ _ c n v)), Hpre.
    + right. apply arrayCheck_Some in Hx as [Hx ->].
      split; [|split; [|done]].
      * intros c n v Hin.
        by apply (proj1 (variableCheck_None _ _ c n v)), Hall.
      * intros c n v Hin.
        by apply (proj1 (arrayCheck_None _ _ c n v)), Hpre.
  - intros (pre & cls & name & value & post & Hl
            & [(Hpre & Hx & ->)|(Hall & Hpre & Hx & ->)]).
    + left. exists pre, (cls, name, value), post. split; [done|]. split.
      * intros [[c n] v] Hin. apply variableCheck_None. by eapply Hpre.
      * by apply variableCheck_Some.
    + right. split.
      * intros [[c n] v] Hin. apply variableCheck_None. by eapply Hall.
      * exists pre, (cls, name, value), post. split; [done|]. split.
        -- intros [[c n] v] Hin. apply arrayCheck_None. by eapply Hpre.
        -- by apply arrayCheck_Some.
Qed.

(** ** What the checks of the variables read *)

Lemma stepFields_withScript s script :
  stepFields (withScript s script) = stepFields s.
Proof. reflexivity. Qed.

Lemma flat_map_stepFields_withScript (script : Step -> string) steps :
  flat_map stepFields (map (fun s => withScript s (script s)) steps)
  = flat_map stepFields steps.
Proof.
  induction steps as [|s steps IH]; [done|].
  cbn [map flat_map]. by rewrite IH, stepFields_withScript.
Qed.

(** X13.  The checks of the variables do not read the script of a step:
    replacing the scripts of the steps changes neither the result of the
    check of the parameter variables nor that of the resource variables.
    A script may thus hold any placeholder. *)
Theorem variable_checks_ignore_script (script : Step -> string)
    (steps : list Step) (inputs : option Inputs) (outputs : option Outputs)
    (params : list ParamSpec) (resources : option TaskResources) :
  validateInputParameterVariables
    (map (fun s => withScript s (script s)) steps) inputs params
  = validateInputParameterVariables steps inputs params /\
  validateResourceVariables
    (map (fun s => withScript s (script s)) steps) inputs outputs resources
  = validateResourceVariables steps inputs outputs resources.
Proof.
  unfold validateInputParameterVariables, validateResourceVariables.
  by rewrite !validateVariables_fields, !validateArrayUsage_fields,
             !flat_map_stepFields_withScript.
Qed.

Lemma elem_of_addResourceNames n names rs :
  n ∈ addResourceNames names rs <->
  n ∈ names \/ n ∈ map TaskResource_Name rs.
Proof.
  unfold addResourceNames. revert names.
  induction rs as [|r rs IH]; intros names; simpl.
  - split; [by left|]. intros [|H]; [done | inversion H].
  - rewrite IH, elem_of_union, elem_of_singleton, elem_of_cons. tauto.
Qed.

Lemma validateResourceVariables_names steps inputs outputs resources :
  exists resourceNames : gset string,
    (forall n, n ∈ resourceNames <->
               declaredResource inputs outputs resources n) /\
    validateResourceVariables steps inputs outputs resources
    = validateVariables steps "resources" resourceNames.
Proof.
  unfold validateResourceVariables, declaredResource.
  eexists. split; [|reflexivity]. intros n.
  destruct resources as [r|], inputs as [i|], outputs as [o|]; simpl;
    rewrite ?elem_of_addResourceNames, elem_of_empty, ?elem_of_nil; tauto.
Qed.

(** X14.  The check of the resource variables depends on the declared
    resources only through the set of their names, taken over the four
    lists (the inputs and outputs of the resources, the legacy inputs and
    the legacy outputs): two declarations with the same names give the
    same result, whatever the list, the order and the type of each
    resource. *)
Theorem validateResourceVariables_declared_names (steps : list Step)
    (inputs inputs' : option Inputs) (outputs outputs' : option Outputs)
    (resources resources' : option TaskResources) :
  (forall n, declaredResource inputs outputs resources n <->
             declaredResource inputs' outputs' resources' n) ->
  validateResourceVariables steps inputs outputs resources
  = validateResourceVariables steps inputs' outputs' resources'.
Proof.
  intros Hsame.
  destruct (validateResourceVariables_names steps inputs outputs resources)
    as (vars & Hvars & ->).
  destruct (validateResourceVariables_names steps inputs' outputs' resources')
    as (vars' & Hvars' & ->).
  replace vars' with vars; [done|].
  apply leibniz_equiv, set_equiv. intros n. by rewrite Hvars, Hvars', Hsame.
Qed.

Lemma validateResourceVariables_declared_names_witness :
  validateResourceVariables [stepEcho "$(inputs.resources.source)"]
    (Some {| Inputs_Resources := [gitSource]; Inputs_Params := [] |})
    None None
  = validateResourceVariables [stepEcho "$(inputs.resources.source)"]
    None None
    (Some {| TaskResources_Inputs := [gitSource];
             TaskResources_Outputs := [] |}).
Proof.
  apply (validateResourceVariables_declared_names
           [stepEcho "$(inputs.resources.source)"]).
  intros n. unfold declaredResource. simpl.
  rewrite !elem_of_nil. tauto.
Defined.

(** X15.  The check of the parameter variables depends on the declared
    parameters only through the set of the declared names and the set of
    the names declared with the array type, taken over the new-style list
    and the legacy list together: a parameter is treated in the same way
    in either list, and the order of the declarations does not matter. *)
Theorem validateInputParameterVariables_declared_names (steps : list Step)
    (inputs inputs' : option Inputs) (params params' : list ParamSpec) :
  (forall q, declaredParam inputs params q <->
             declaredParam inputs' params' q) ->
  (forall q, declaredArray inputs params q <->
             declaredArray inputs' params' q) ->
  validateInputParameterVariables steps inputs params
  = validateInputParameterVariables steps inputs' params'.
Proof.
  intros Hnames Harrays. rewrite !validateInputParameterVariables_eq.
  replace (parameterNames inputs' params')
    with (parameterNames inputs params).
  - replace (arrayParameterNames inputs' params')
      with (arrayParameterNames inputs params); [done|].
    apply leibniz_equiv, set_equiv. intros q.
    by rewrite !elem_of_arrayParameterNames.
  - apply leibniz_equiv, set_equiv. intros q.
    by rewrite !elem_of_parameterNames.
Qed.

Lemma validateInputParameterVariables_declared_names_witness :
  validateInputParameterVariables [stepEcho "$(inputs.params.flags)"]
    (legacyOnly [mkParam "flags" ParamTypeArray]) []
  = validateInputParameterVariables [stepEcho "$(inputs.params.flags)"]
    None [mkParam "flags" ParamTypeArray].
Proof.
  apply (validateInputParameterVariables_declared_names
           [stepEcho "$(inputs.params.flags)"]).
  - intros q. unfold declaredParam. simpl. rewrite !elem_of_nil. tauto.
  - intros q. unfold declaredArray. simpl. split.
    + intros (p & [Hp|Hp] & H); [inversion Hp|]. exists p. tauto.
    + intros (p & [Hp|Hp] & H); [|inversion Hp]. exists p. tauto.
Defined.

(** ** The legacy inputs and outputs *)

Lemma validateOneOf_inputs_None (ts : TaskSpec) :
  match TaskSpec_Inputs ts with
  | Some inputs =>
      if negb (isNil (Inputs_Params inputs)) &&
         negb (isNil (TaskSpec_Params ts)) then
        Some (ErrMultipleOneOf ["inputs.params"; "params"])
      else if negb (isNil (resourcesInputs (TaskSpec_Resources ts))) &&
              negb (isNil (Inputs_Resources inputs)) then
        Some (ErrMultipleOneOf ["inputs.resources"; "resources.inputs"])
      else None
  | None => None
  end = None <->
  (inputsParams (TaskSpec_Inputs ts) = [] \/ TaskSpec_Params ts = []) /\
  (resourcesInputs (TaskSpec_Resources ts) = [] \/
   legacyInputResources ts = []).
Proof.
  unfold legacyInputResources.
  destruct (TaskSpec_Inputs ts) as [inputs|]; simpl; [|tauto].
  destruct (Inputs_Params inputs), (TaskSpec_Params ts),
    (resourcesInputs (TaskSpec_Resources ts)), (Inputs_Resources inputs);
    simpl; split; try done; try tauto;
    intros [[H|H] [H'|H']]; discriminate.
Qed.

(** X16.  The block on the fields declared twice accepts exactly when,
    for each of the three pairs (legacy and new-style parameters, legacy
    and new-style input resources, legacy and new-style output
    resources), at most one list of the pair is non-empty.  The pairs are
    tested in this order: with both lists of input resources non-empty
    and the parameters in one list at most, the error names
    [inputs.resources] and [resources.inputs]; with both lists of output
    resources non-empty and nothing wrong with the inputs, it names
    [outputs.resources] and [resources.outputs]. *)
Theorem validateOneOf_resources (ts : TaskSpec) :
  (validateOneOf ts = None <->
   (inputsParams (TaskSpec_Inputs ts) = [] \/ TaskSpec_Params ts = []) /\
   (resourcesInputs (TaskSpec_Resources ts) = [] \/
    legacyInputResources ts = []) /\
   (resourcesOutputs (TaskSpec_Resources ts) = [] \/
    legacyOutputResources ts = [])) /\
  (inputsParams (TaskSpec_Inputs ts) = [] \/ TaskSpec_Params ts = [] ->
   resourcesInputs (TaskSpec_Resources ts) <> [] ->
   legacyInputResources ts <> [] ->
   validateOneOf ts
   = Some (ErrMultipleOneOf ["inputs.resources"; "resources.inputs"])) /\
  (inputsParams (TaskSpec_Inputs ts) = [] \/ TaskSpec_Params ts = [] ->
   resourcesInputs (TaskSpec_Resources ts) = [] \/
   legacyInputResources ts = [] ->
   resourcesOutputs (TaskSpec_Resources ts) <> [] ->
   legacyOutputResources ts <> [] ->
   validateOneOf ts
   = Some (ErrMultipleOneOf ["outputs.resources"; "resources.outputs"])).
Proof.
  split; [|split].
  - unfold validateOneOf. rewrite orElse_None, validateOneOf_inputs_None.
    unfold legacyOutputResources.
    destruct (TaskSpec_Outputs ts) as [outputs|]; simpl; [|tauto].
    destruct (resourcesOutputs (TaskSpec_Resources ts)),
      (Outputs_Resources outputs); simpl; split; try done; try tauto.
    + by intros [_ H].
    + intros (_ & _ & [H|H]); discriminate.
  - unfold validateOneOf, legacyInputResources. intros Hp Hr Hl.
    destruct (TaskSpec_Inputs ts) as [inputs|]; simpl in *; [|done].
    apply isNil_false in Hr, Hl. rewrite Hr, Hl.
    by destruct Hp as [-> | ->]; simpl; rewrite ?andb_false_r.
  - unfold validateOneOf. intros Hp Hr Ho Hl.
    rewrite (proj2 (validateOneOf_inputs_None ts) (conj Hp Hr)). simpl.
    unfold legacyOutputResources in Hl.
    destruct (TaskSpec_Outputs ts) as [outputs|]; simpl in *; [|done].
    apply isNil_false in Ho, Hl. by rewrite Ho, Hl.
Qed.

Lemma validateOneOf_resources_witness :
  validateOneOf
    (resourcesSpec None
       (Some {| Outputs_Resources := [imageBuilt] |})
       (Some {| TaskResources_Inputs := [gitSource];
                TaskResources_Outputs := [imageBuilt] |}))
  = Some (ErrMultipleOneOf ["outputs.resources"; "resources.outputs"]).
Proof.
  apply (proj2 (proj2 (validateOneOf_resources
    (resourcesSpec None
       (Some {| Outputs_Resources := [imageBuilt] |})
       (Some {| TaskResources_Inputs := [gitSource];
                TaskResources_Outputs := [imageBuilt] |}))))).
  - by left.
  - by right.
  - discriminate.
  - discriminate.
Defined.

Lemma validateResourceType_None ext r path :
  validateResourceType ext r path = None <->
  TaskResource_Type r ∈ AllResourceTypes ext.
Proof.
  unfold validateResourceType.
  destruct (existsb _ _) eqn:Hex.
  - split; [|done]. intros _.
    apply existsb_exists in Hex as (allowed & Hin & Heq).
    apply String.eqb_eq in Heq as ->. by apply list_elem_of_In.
  - split; [done|]. intros Hin.
    assert (Htrue : existsb
              (fun allowed => String.eqb (TaskResource_Type r) allowed)
              (AllResourceTypes ext) = true); [|congruence].
    apply existsb_exists. exists (TaskResource_Type r).
    split; [by apply list_elem_of_In | apply String.eqb_refl].
Qed.

Lemma checkForDuplicates_None ext resources path :
  checkForDuplicates ext resources path = None <->
  NoDup (map (fun r => ToLower ext (TaskResource_Name r)) resources).
Proof.
  unfold checkForDuplicates.
  rewrite duplicatesLoop_firstDup, fmap_None, firstDup_None.
  split; [by intros [H _]|].
  intros H. split; [done|]. intros r _. apply not_elem_of_empty.
Qed.

Lemma resourceTypes_None ext under resources :
  forEach (fun resource =>
             validateResourceType ext resource
               (under +:+ TaskResource_Name resource +:+ ".Type")) resources
    = None <->
  forall r, r ∈ resources -> TaskResource_Type r ∈ AllResourceTypes ext.
Proof.
  rewrite forEach_None. apply forall_proper; intros r.
  apply forall_proper; intros _. apply validateResourceType_None.
Qed.

(** X17.  The legacy inputs and outputs are accepted exactly when every
    legacy resource has a type of the table of the resource types, the
    names of the legacy input resources are pairwise distinct after
    lower-casing and so are those of the legacy output resources, and the
    types of the legacy parameters are accepted.  The types of all the
    input resources are checked before their names: the first input
    resource whose type is not in the table is reported with the
    invalid-value error on [taskspec.Inputs.Resources.<name>.Type], also
    when names are repeated. *)
Theorem validateDeprecated_accepts (ext : Collaborators) (ts : TaskSpec) :
  (validateDeprecated ext ts = None <->
   (forall r, r ∈ legacyInputResources ts ++ legacyOutputResources ts ->
              TaskResource_Type r ∈ AllResourceTypes ext) /\
   NoDup (map (fun r => ToLower ext (TaskResource_Name r))
              (legacyInputResources ts)) /\
   NoDup (map (fun r => ToLower ext (TaskResource_Name r))
              (legacyOutputResources ts)) /\
   (forall inputs, TaskSpec_Inputs ts = Some inputs ->
                   validateInputParameterTypes inputs = None)) /\
  (forall pre r post,
     legacyInputResources ts = pre ++ r :: post ->
     (forall r', r' ∈ pre -> TaskResource_Type r' ∈ AllResourceTypes ext) ->
     TaskResource_Type r ∉ AllResourceTypes ext ->
     validateDeprecated ext ts
     = Some (ErrInvalidValue (TaskResource_Type r)
               ("taskspec.Inputs.Resources." +:+ TaskResource_Name r
                  +:+ ".Type"))).
Proof.
  unfold validateDeprecated, legacyInputResources, legacyOutputResources.
  split.
  - rewrite orElse_None.
    assert (Hin :
      match TaskSpec_Inputs ts with
      | Some inputs =>
          forEach (fun resource =>
            validateResourceType ext resource
              ("taskspec.Inputs.Resources." +:+ TaskResource_Name resource
                 +:+ ".Type")) (Inputs_Resources inputs) ;;;
          checkForDuplicates ext (Inputs_Resources inputs)
            "taskspec.Inputs.Resources.Name" ;;;
          validateInputParameterTypes inputs
      | None => None
      end = None <->
      (forall r, r ∈ match TaskSpec_Inputs ts with
                     | Some inputs => Inputs_Resources inputs
                     | None => []
                     end -> TaskResource_Type r ∈ AllResourceTypes ext) /\
      NoDup (map (fun r => ToLower ext (TaskResource_Name r))
               match TaskSpec_Inputs ts with
               | Some inputs => Inputs_Resources inputs
               | None => []
               end) /\
      (forall inputs, TaskSpec_Inputs ts = Some inputs ->
                      validateInputParameterTypes inputs = None)).
    { destruct (TaskSpec_Inputs ts) as [inputs|].
      - rewrite !orElse_None, (resourceTypes_None ext "taskspec.Inputs.Resources."),
          checkForDuplicates_None. split.
        + intros (H1 & H2 & H3). split; [done|]. split; [done|].
          by intros ? [= <-].
        + intros (H1 & H2 & H3). split; [done|]. split; [done|]. by apply H3.
      - split; [|done]. intros _. split; [|split; [constructor|done]].
        intros r Hr. inversion Hr. }
    assert (Hout :
      match TaskSpec_Outputs ts with
      | Some outputs =>
          forEach (fun resource =>
            validateResourceType ext resource
              ("taskspec.Outputs.Resources." +:+ TaskResource_Name resource
                 +:+ ".Type")) (Outputs_Resources outputs) ;;;
          checkForDuplicates ext (Outputs_Resources outputs)
            "taskspec.Outputs.Resources.Name"
      | None => None
      end = None <->
      (forall r, r ∈ match TaskSpec_Outputs ts with
                     | Some outputs => Outputs_Resources outputs
                     | None => []
                     end -> TaskResource_Type r ∈ AllResourceTypes ext) /\
      NoDup (map (fun r => ToLower ext (TaskResource_Name r))
               match TaskSpec_Outputs ts with
               | Some outputs => Outputs_Resources outputs
               | None => []
               end)).
    { destruct (TaskSpec_Outputs ts) as [outputs|].
      - by rewrite !orElse_None, (resourceTypes_None ext "taskspec.Outputs.Resources."),
          checkForDuplicates_None.
      - split; [|done]. intros _. split; [|constructor].
        intros r Hr. inversion Hr. }
    rewrite Hin, Hout. split.
    + intros [(H1 & H2 & H3) (H4 & H5)]. split; [|done].
      intros r Hr. apply elem_of_app in Hr as [Hr|Hr]; auto.
    + intros (H1 & H2 & H3 & H4). split; [split; [|done]|split; [|done]].
      * intros r Hr. apply H1, elem_of_app. by left.
      * intros r Hr. apply H1, elem_of_app. by right.
  - intros pre r post Hl Hpre Hr.
    destruct (TaskSpec_Inputs ts) as [inputs|]; [|by destruct pre].
    rewrite Hl, forEach_app.
    rewrite (proj2 (resourceTypes_None ext "taskspec.Inputs.Resources." pre) Hpre). simpl.
    rewrite <- (validateResourceType_None ext r
      ("taskspec.Inputs.Resources." +:+ TaskResource_Name r +:+ ".Type"))
      in Hr.
    unfold validateResourceType in *.
    by destruct (existsb (fun allowed =>
                            String.eqb (TaskResource_Type r) allowed)
                         (AllResourceTypes ext)).
Qed.

Lemma validateDeprecated_accepts_witness :
  validateDeprecated lowerCasing
    (resourcesSpec
       (Some {| Inputs_Resources := [gitSource; mkResource "source" "svn"];
                Inputs_Params := [] |}) None None)
  = Some (ErrInvalidValue "svn" "taskspec.Inputs.Resources.source.Type").
Proof.
  apply (proj2 (validateDeprecated_accepts lowerCasing
    (resourcesSpec
       (Some {| Inputs_Resources := [gitSource; mkResource "source" "svn"];
                Inputs_Params := [] |}) None None))
    [gitSource] (mkResource "source" "svn") []).
  - reflexivity.
  - intros r' Hr'. apply list_elem_of_singleton in Hr' as ->.
    apply list_elem_of_In. simpl. tauto.
  - intros Hin. apply list_elem_of_In in Hin. simpl in Hin.
    repeat destruct Hin as [Hin|Hin]; try discriminate Hin. exact Hin.
Defined.

(** ** The validator as a whole *)

Lemma ViaField_None prefix fe : ViaField prefix fe = None <-> fe = None.
Proof. by destruct fe. Qed.

Lemma validateStepNames_None ext steps :
  validateStepNames ext steps = None <->
  forall step, step ∈ steps ->
    Step_Name step = "" \/ IsDNS1123Label ext (Step_Name step) = [].
Proof.
  unfold validateStepNames. rewrite forEach_None.
  apply forall_proper; intros step. apply forall_proper; intros _.
  destruct (Step_Name step) as [|c n] eqn:Hname; simpl.
  - split; [by left | done].
  - destruct (IsDNS1123Label ext (String c n)); simpl.
    + split; [by right | done].
    + split; [done | by intros [|]].
Qed.

Lemma ValidateVolumes_None volumes :
  ValidateVolumes volumes = None <-> NoDup (map Volume_Name volumes).
Proof.
  unfold ValidateVolumes.
  rewrite volumesLoop_firstDup, fmap_None, firstDup_None.
  split; [by intros [H _]|].
  intros H. split; [done|]. intros v _. apply not_elem_of_empty.
Qed.

(** X18.  A specification is accepted exactly when every check of the
    validator accepts it: it has a step; the volume names are pairwise
    distinct; the declared workspaces are accepted against the steps and
    the step template as they are written; the step template merges and
    the merged steps are accepted; no field is declared twice; the
    resources and the parameter types are accepted; the legacy inputs and
    outputs are accepted; every non-empty step name, as written, is a DNS
    label; and the four checks of the variables accept the steps as they
    are written.  The guard on the entirely empty specification rejects
    nothing that the check on the steps would accept. *)
Theorem Validate_accepts (ext : Collaborators) (ts : TaskSpec) :
  Validate ext ts = None <->
  TaskSpec_Steps ts <> [] /\
  NoDup (map Volume_Name (TaskSpec_Volumes ts)) /\
  validateDeclaredWorkspaces (defaultMountPath ext) (TaskSpec_Workspaces ts)
    (TaskSpec_Steps ts) (TaskSpec_StepTemplate ts) = None /\
  (exists mergedSteps,
     MergeStepsWithStepTemplate ext (TaskSpec_StepTemplate ts)
       (TaskSpec_Steps ts) = inl mergedSteps /\
     validateSteps mergedSteps = None) /\
  validateOneOf ts = None /\
  TaskResources_Validate ext (TaskSpec_Resources ts) = None /\
  ValidateParameterTypes ext (TaskSpec_Params ts) = None /\
  validateDeprecated ext ts = None /\
  (forall step, step ∈ TaskSpec_Steps ts ->
     Step_Name step = "" \/ IsDNS1123Label ext (Step_Name step) = []) /\
  ValidateParameterVariables ext (TaskSpec_Steps ts) (TaskSpec_Params ts)
    = None /\
  validateInputParameterVariables (TaskSpec_Steps ts) (TaskSpec_Inputs ts)
    (TaskSpec_Params ts) = None /\
  ValidateResourcesVariables ext (TaskSpec_Steps ts) (TaskSpec_Resources ts)
    = None /\
  validateResourceVariables (TaskSpec_Steps ts) (TaskSpec_Inputs ts)
    (TaskSpec_Outputs ts) (TaskSpec_Resources ts) = None.
Proof.
  unfold Validate. rewrite <- ValidateVolumes_None, <- validateStepNames_None.
  destruct (DeepEqualEmpty ts) eqn:Hempty.
  { apply DeepEqualEmpty_spec in Hempty as ->. split; [done|].
    by intros [H _]. }
  destruct (isNil (TaskSpec_Steps ts)) eqn:Hsteps.
  { destruct (TaskSpec_Steps ts); [|done]. split; [done|]. by intros [H _]. }
  apply isNil_false in Hsteps.
  rewrite !orElse_None, ViaField_None.
  destruct (MergeStepsWithStepTemplate ext _ _) as [merged|err].
  - rewrite !orElse_None, ViaField_None. split.
    + intros (Hv & Hw & Hs & H). split; [done|]. split; [done|].
      split; [done|]. split; [by exists merged|]. tauto.
    + intros (_ & Hv & Hw & (merged' & Heq & Hs) & Hrest).
      injection Heq as <-. tauto.
  - split; [by intros (_ & _ & H)|].
    by intros (_ & _ & _ & (merged & H & _) & _).
Qed.

Lemma validateSteps_paths steps e :
  validateSteps steps = Some e ->
  Paths e ∈ [["Image"]; ["script"]; ["name"]; ["volumeMounts.mountPath"];
             ["volumeMounts.name"]].
Proof.
  unfold validateSteps. intros He.
  apply stepsLoop_Some in He as (pre & s & post & _ & _ & Hs).
  apply stepBody_Some in Hs as [[_ ->]|[(_ & _ & ->)|[(_ & _ & ->)|Hs]]];
    simpl.
  - left.
  - right. left.
  - do 2 right. left.
  - apply volumeMountsLoop_Some in Hs as (vm & _ & [[-> _]| -> ]); simpl.
    + do 3 right. left.
    + do 4 right. left.
Qed.

(** X19.  The paths of the errors of the first checks, as the validator
    reports them.  When the specification has a step, an error of the
    check of the volumes is reported first, with the path [volumes.name];
    when the volumes and the workspaces are accepted and the step
    template merges, an error of the check of the merged steps is
    reported with its message and its path put under [steps]: the path is
    one of [steps.Image], [steps.script], [steps.name],
    [steps.volumeMounts.mountPath] and [steps.volumeMounts.name]. *)
Theorem Validate_error_paths (ext : Collaborators) (ts : TaskSpec)
    (e0 : FieldError) :
  TaskSpec_Steps ts <> [] ->
  (ValidateVolumes (TaskSpec_Volumes ts) = Some e0 ->
   Validate ext ts
   = Some {| Message := Message e0; Paths := ["volumes.name"];
             Details := Details e0 |}) /\
  (forall mergedSteps,
     ValidateVolumes (TaskSpec_Volumes ts) = None ->
     validateDeclaredWorkspaces (defaultMountPath ext) (TaskSpec_Workspaces ts)
       (TaskSpec_Steps ts) (TaskSpec_StepTemplate ts) = None ->
     MergeStepsWithStepTemplate ext (TaskSpec_StepTemplate ts)
       (TaskSpec_Steps ts) = inl mergedSteps ->
     validateSteps mergedSteps = Some e0 ->
     exists path,
       Validate ext ts
       = Some {| Message := Message e0; Paths := path;
                 Details := Details e0 |} /\
       path ∈ stepErrorPaths).
Proof.
  intros Hsteps.
  assert (Hnot : DeepEqualEmpty ts = false).
  { destruct (DeepEqualEmpty ts) eqn:H; [|done].
    apply DeepEqualEmpty_spec in H. by rewrite H in Hsteps. }
  apply isNil_false in Hsteps. unfold Validate. rewrite Hnot, Hsteps. split.
  - intros Hv. rewrite Hv. simpl.
    unfold ValidateVolumes in Hv. rewrite volumesLoop_firstDup in Hv.
    apply fmap_Some in Hv as (v & _ & ->). reflexivity.
  - intros merged Hv Hw Hm Hs. rewrite Hv, Hw, Hm, Hs. simpl.
    eexists. split; [reflexivity|].
    apply validateSteps_paths in Hs. unfold stepErrorPaths.
    repeat (apply elem_of_cons in Hs as [->|Hs];
            [apply list_elem_of_In; vm_compute; tauto|]).
    inversion Hs.
Qed.

Lemma Validate_error_paths_witness :
  exists path,
    Validate acceptAll brokenStepSpec
    = Some {| Message := MsgMissingFields; Paths := path; Details := "" |} /\
    path ∈ stepErrorPaths.
Proof.
  apply (proj2 (Validate_error_paths acceptAll brokenStepSpec
                  (ErrMissingField ["Image"]) ltac:(discriminate))
           (TaskSpec_Steps brokenStepSpec));
    vm_compute; reflexivity.
Defined.

Lemma Validate_accepts_witness :
  Validate acceptAll buildSpec = None /\
  NoDup (map Volume_Name (TaskSpec_Volumes buildSpec)).
Proof.
  assert (H : Validate acceptAll buildSpec = None)
    by (vm_compute; reflexivity).
  split; [exact H|].
  exact (proj1 (proj2 (proj1 (Validate_accepts acceptAll buildSpec) H))).
Defined.

(** * Properties of the defaults of task runs *)

Lemma wrap64_exact (z : Z) :
  wrap64 z = z <-> (- 2 ^ 63 <= z < 2 ^ 63)%Z.
Proof.
  unfold wrap64. split.
  - intros H.
    pose proof (Z.mod_pos_bound (z + 2 ^ 63) (2 ^ 64) ltac:(lia)). lia.
  - intros H. rewrite Z.mod_small; lia.
Qed.

Lemma wrap64_minutes (m : Z) :
  wrap64 (m * Minute) = (m * Minute)%Z <->
  (-153722867 <= m <= 153722867)%Z.
Proof. rewrite wrap64_exact. unfold Minute. lia. Qed.

Section TaskRunDefaultsProperties.
Variables PodTemplate OtherSpec OtherMeta Ctx V1alpha2TaskRunSpec : Type.
Variable IsUpgradeViaDefaulting : Ctx -> bool.
Variable FromContextOrDefaults : Ctx -> Defaults PodTemplate.
Variable WithinParent : Ctx -> ObjectMeta OtherMeta -> Ctx.
Variable WithinSpec : Ctx -> Ctx.
Variable ConvertUp :
  Ctx -> TaskRunSpec PodTemplate OtherSpec -> option V1alpha2TaskRunSpec.
Variable ConvertDown :
  Ctx -> V1alpha2TaskRunSpec -> option (TaskRunSpec PodTemplate OtherSpec).
Variable TaskSpec_SetDefaults : Ctx -> TaskSpec -> TaskSpec.
Variable NamespacedTaskKind : string.
Variable config_DefaultTimeoutMinutes : Z.

Abbreviation SetDefaults :=
  (TaskRunSpec_SetDefaults IsUpgradeViaDefaulting FromContextOrDefaults
     ConvertUp ConvertDown TaskSpec_SetDefaults NamespacedTaskKind
     config_DefaultTimeoutMinutes).
Abbreviation upgraded :=
  (upgradeViaDefaulting IsUpgradeViaDefaulting ConvertUp ConvertDown).

Lemma SetDefaults_Timeout ctx (trs : TaskRunSpec PodTemplate OtherSpec) :
  TaskRunSpec_Timeout (SetDefaults ctx trs)
  = Some (default
            (defaultTimeout IsUpgradeViaDefaulting
               config_DefaultTimeoutMinutes ctx (FromContextOrDefaults ctx))
            (TaskRunSpec_Timeout (upgraded ctx trs))).
Proof.
  unfold TaskRunSpec_SetDefaults.
  destruct (upgraded ctx trs) as [sa ref ts timeout pod other]. simpl.
  destruct ref as [[name kind api]|]; simpl;
    [destruct kind as [|c kind]; simpl|];
    destruct timeout, sa as [|c' sa],
      (DefaultServiceAccount (FromContextOrDefaults ctx)) as [|c'' dsa],
      pod, ts; reflexivity.
Qed.

(** X20.  After the defaults are set, a task run specification always has
    a timeout.  Outside an upgrade, a timeout that is given is kept, and a
    missing timeout becomes the configured number of minutes as a
    duration, computed in 64-bit arithmetic: the duration is that number
    of minutes exactly when the number is between -153722867 and
    153722867, and wraps around otherwise.  In an upgrade, a timeout that
    is missing after the conversion becomes the fixed default of the
    package [config], whatever the configuration says. *)
Theorem TaskRunSpec_SetDefaults_timeout
    (ctx : Ctx) (trs : TaskRunSpec PodTemplate OtherSpec) :
  (exists t, TaskRunSpec_Timeout (SetDefaults ctx trs) = Some t) /\
  (IsUpgradeViaDefaulting ctx = false ->
   forall t, TaskRunSpec_Timeout trs = Some t ->
             TaskRunSpec_Timeout (SetDefaults ctx trs) = Some t) /\
  (IsUpgradeViaDefaulting ctx = false -> TaskRunSpec_Timeout trs = None ->
   TaskRunSpec_Timeout (SetDefaults ctx trs)
   = Some (wrap64
             (DefaultTimeoutMinutes (FromContextOrDefaults ctx) * Minute)) /\
   (TaskRunSpec_Timeout (SetDefaults ctx trs)
    = Some (DefaultTimeoutMinutes (FromContextOrDefaults ctx) * Minute)%Z <->
    (-153722867 <= DefaultTimeoutMinutes (FromContextOrDefaults ctx)
                <= 153722867)%Z)) /\
  (IsUpgradeViaDefaulting ctx = true ->
   TaskRunSpec_Timeout (upgraded ctx trs) = None ->
   TaskRunSpec_Timeout (SetDefaults ctx trs)
   = Some (config_DefaultTimeoutMinutes * Minute)%Z).
Proof.
  rewrite SetDefaults_Timeout. split; [by eexists|].
  unfold upgradeViaDefaulting, defaultTimeout. split; [|split].
  - intros -> t ->. reflexivity.
  - intros -> ->. simpl. split; [reflexivity|].
    rewrite <- wrap64_minutes. split; [by intros [= ->] | by intros ->].
  - intros Hup Hnone. unfold upgradeViaDefaulting in Hnone.
    rewrite Hup in *. by rewrite Hnone.
Qed.

(** X21.  Outside an upgrade, setting the defaults changes a field of the
    specification only where a value is missing: a non-empty service
    account name, a pod template and the kind of the task reference that
    are given are kept, as are the name of the task reference and the
    fields that the method does not know; an empty service account name
    becomes the configured one, a missing pod template the configured
    one, an empty kind of a task reference the kind of a namespaced
    task; an embedded task specification gets the defaults of task
    specifications. *)
Theorem TaskRunSpec_SetDefaults_fields
    (ctx : Ctx) (trs : TaskRunSpec PodTemplate OtherSpec) :
  IsUpgradeViaDefaulting ctx = false ->
  TaskRunSpec_Other (SetDefaults ctx trs) = TaskRunSpec_Other trs /\
  TaskRunSpec_ServiceAccountName (SetDefaults ctx trs)
  = (if decide (TaskRunSpec_ServiceAccountName trs = "")
     then DefaultServiceAccount (FromContextOrDefaults ctx)
     else TaskRunSpec_ServiceAccountName trs) /\
  TaskRunSpec_PodTemplate (SetDefaults ctx trs)
  = match TaskRunSpec_PodTemplate trs with
    | Some tmpl => Some tmpl
    | None => DefaultPodTemplate (FromContextOrDefaults ctx)
    end /\
  TaskRunSpec_TaskRef (SetDefaults ctx trs)
  = (ref ← TaskRunSpec_TaskRef trs;
     Some {| TaskRef_Name := TaskRef_Name ref;
             TaskRef_Kind := if decide (TaskRef_Kind ref = "")
                             then NamespacedTaskKind else TaskRef_Kind ref;
             TaskRef_APIVersion := TaskRef_APIVersion ref |}) /\
  TaskRunSpec_TaskSpec (SetDefaults ctx trs)
  = TaskSpec_SetDefaults ctx <$> TaskRunSpec_TaskSpec trs.
Proof.
  intros Hup. unfold TaskRunSpec_SetDefaults, upgradeViaDefaulting.
  rewrite Hup. destruct trs as [sa ref ts timeout pod other]. simpl.
  destruct ref as [[name kind api]|]; simpl;
    [destruct kind as [|c kind]; simpl|];
    destruct timeout, sa as [|c' sa],
      (DefaultServiceAccount (FromContextOrDefaults ctx)) as [|c'' dsa],
      pod, ts; simpl; repeat split; reflexivity.
Qed.

Lemma SetDefaults_eq ctx (trs : TaskRunSpec PodTemplate OtherSpec) :
  IsUpgradeViaDefaulting ctx = false ->
  SetDefaults ctx trs
  = {| TaskRunSpec_ServiceAccountName :=
         if decide (TaskRunSpec_ServiceAccountName trs = "")
         then DefaultServiceAccount (FromContextOrDefaults ctx)
         else TaskRunSpec_ServiceAccountName trs;
       TaskRunSpec_TaskRef :=
         ref ← TaskRunSpec_TaskRef trs;
         Some {| TaskRef_Name := TaskRef_Name ref;
                 TaskRef_Kind := if decide (TaskRef_Kind ref = "")
                                 then NamespacedTaskKind
                                 else TaskRef_Kind ref;
                 TaskRef_APIVersion := TaskRef_APIVersion ref |};
       TaskRunSpec_TaskSpec :=
         TaskSpec_SetDefaults ctx <$> TaskRunSpec_TaskSpec trs;
       TaskRunSpec_Timeout :=
         Some (default
                 (wrap64 (DefaultTimeoutMinutes (FromContextOrDefaults ctx)
                          * Minute))
                 (TaskRunSpec_Timeout trs));
       TaskRunSpec_PodTemplate :=
         match TaskRunSpec_PodTemplate trs with
         | Some tmpl => Some tmpl
         | None => DefaultPodTemplate (FromContextOrDefaults ctx)
         end;
       TaskRunSpec_Other := TaskRunSpec_Other trs |}.
Proof.
  intros Hup.
  unfold TaskRunSpec_SetDefaults, upgradeViaDefaulting, defaultTimeout.
  rewrite Hup. destruct trs as [sa ref ts timeout pod other]. simpl.
  destruct ref as [[name kind api]|]; simpl;
    [destruct kind as [|c kind]; simpl|];
    destruct timeout, sa as [|c' sa],
      (DefaultServiceAccount (FromContextOrDefaults ctx)) as [|c'' dsa],
      pod, ts; reflexivity.
Qed.

(** X22.  Outside an upgrade, setting the defaults twice is the same as
    setting them once, provided that the defaults of task specifications
    have this property. *)
Theorem TaskRunSpec_SetDefaults_idempotent
    (ctx : Ctx) (trs : TaskRunSpec PodTemplate OtherSpec) :
  IsUpgradeViaDefaulting ctx = false ->
  (forall ts, TaskSpec_SetDefaults ctx (TaskSpec_SetDefaults ctx ts)
              = TaskSpec_SetDefaults ctx ts) ->
  SetDefaults ctx (SetDefaults ctx trs) = SetDefaults ctx trs.
Proof.
  intros Hup Hts. rewrite (SetDefaults_eq ctx (SetDefaults ctx trs) Hup).
  rewrite (SetDefaults_eq ctx trs Hup).
  destruct trs as [sa ref ts timeout pod other]. simpl. f_equal.
  - destruct (decide (sa = "")) as [->|Hsa].
    + by destruct (decide
                     (DefaultServiceAccount (FromContextOrDefaults ctx) = "")).
    + by rewrite decide_False.
  - destruct ref as [[name kind api]|]; simpl; [|done]. do 2 f_equal.
    destruct (decide (kind = "")) as [->|Hkind].
    + by destruct (decide (NamespacedTaskKind = "")).
    + by rewrite decide_False.
  - destruct ts as [ts|]; simpl; [|done]. by rewrite Hts.
  - destruct pod; [done|].
    by destruct (DefaultPodTemplate (FromContextOrDefaults ctx)).
Qed.

(** X23.  After the defaults of a task run are set, its labels are a map
    that has the label [app.kubernetes.io/managed-by]: a value that the
    label has is kept, also when it is empty, and otherwise the value is
    the default of the configuration read from the context of the task
    run; every other label is as before, and so are the other fields of
    the metadata.  The specification gets the defaults of the
    specifications, in the context of the task run. *)
Theorem TaskRun_SetDefaults_labels
    (ctx : Ctx) (tr : TaskRun PodTemplate OtherSpec OtherMeta) :
  let tr' :=
    TaskRun_SetDefaults IsUpgradeViaDefaulting FromContextOrDefaults
      WithinParent WithinSpec ConvertUp ConvertDown TaskSpec_SetDefaults
      NamespacedTaskKind config_DefaultTimeoutMinutes ctx tr in
  let before :=
    default ∅ (ObjectMeta_Labels (TaskRun_ObjectMeta tr)) in
  let ctx' := WithinParent ctx (TaskRun_ObjectMeta tr) in
  (exists labels,
     ObjectMeta_Labels (TaskRun_ObjectMeta tr') = Some labels /\
     labels !! managedByLabelKey
     = Some (default (DefaultManagedByLabelValue (FromContextOrDefaults ctx'))
                     (before !! managedByLabelKey)) /\
     (forall key, key <> managedByLabelKey ->
                  labels !! key = before !! key)) /\
  ObjectMeta_Other (TaskRun_ObjectMeta tr')
  = ObjectMeta_Other (TaskRun_ObjectMeta tr) /\
  TaskRun_Spec tr' = SetDefaults (WithinSpec ctx') (TaskRun_Spec tr).
Proof.
  unfold TaskRun_SetDefaults. cbn zeta. split; [|done].
  cbn [TaskRun_ObjectMeta ObjectMeta_Labels]. eexists. split; [reflexivity|].
  replace (match ObjectMeta_Labels (TaskRun_ObjectMeta tr) with
           | Some labels => labels
           | None => ∅
           end)
    with (default ∅ (ObjectMeta_Labels (TaskRun_ObjectMeta tr)))
    by (by destruct (ObjectMeta_Labels (TaskRun_ObjectMeta tr))).
  generalize (default ∅ (ObjectMeta_Labels (TaskRun_ObjectMeta tr))).
  intros labels.
  destruct (labels !! managedByLabelKey) as [v|] eqn:Hkey.
  - by rewrite Hkey.
  - split; [by rewrite lookup_insert_eq|].
    intros key Hne. by rewrite lookup_insert_ne.
Qed.

End TaskRunDefaultsProperties.

Lemma TaskRunSpec_SetDefaults_timeout_witness :
  TaskRunSpec_Timeout (sampleSetDefaults (false, sampleDefaults) sampleRunSpec)
  = Some (60 * Minute)%Z.
Proof.
  unfold sampleSetDefaults.
  apply (proj2 (proj2 (proj1 (proj2 (proj2
    (TaskRunSpec_SetDefaults_timeout string unit (bool * Defaults string)
       (TaskRunSpec string unit) fst snd
       (fun _ trs => Some trs) (fun _ v => Some v) (fun _ ts => ts)
       "Task" 60%Z (false, sampleDefaults) sampleRunSpec)))
    eq_refl eq_refl))).
  simpl. lia.
Defined.

Lemma TaskRunSpec_SetDefaults_fields_witness :
  TaskRunSpec_ServiceAccountName
    (sampleSetDefaults (false, sampleDefaults) explicitRunSpec) = "builder" /\
  TaskRunSpec_PodTemplate
    (sampleSetDefaults (false, sampleDefaults) explicitRunSpec)
  = Some "spot-nodes" /\
  TaskRunSpec_ServiceAccountName
    (sampleSetDefaults (false, sampleDefaults) sampleRunSpec) = "default".
Proof.
  unfold sampleSetDefaults.
  pose proof (TaskRunSpec_SetDefaults_fields string unit
       (bool * Defaults string) (TaskRunSpec string unit) fst snd
       (fun _ trs => Some trs) (fun _ v => Some v) (fun _ ts => ts)
       "Task" 60%Z (false, sampleDefaults) explicitRunSpec eq_refl)
    as (_ & Hsa & Hpod & _).
  pose proof (TaskRunSpec_SetDefaults_fields string unit
       (bool * Defaults string) (TaskRunSpec string unit) fst snd
       (fun _ trs => Some trs) (fun _ v => Some v) (fun _ ts => ts)
       "Task" 60%Z (false, sampleDefaults) sampleRunSpec eq_refl)
    as (_ & Hsa' & _).
  split; [exact Hsa|]. split; [exact Hpod | exact Hsa'].
Defined.

Lemma TaskRunSpec_SetDefaults_idempotent_witness :
  sampleSetDefaults (false, sampleDefaults)
    (sampleSetDefaults (false, sampleDefaults) sampleRunSpec)
  = sampleSetDefaults (false, sampleDefaults) sampleRunSpec.
Proof.
  unfold sampleSetDefaults.
  apply (TaskRunSpec_SetDefaults_idempotent string unit
           (bool * Defaults string) (TaskRunSpec string unit) fst snd
           (fun _ trs => Some trs) (fun _ v => Some v) (fun _ ts => ts)
           "Task" 60%Z (false, sampleDefaults) sampleRunSpec);
    [reflexivity | intros ts; reflexivity].
Defined.
